(** * FindDifferences: the hash-tree differencing engine of NodeConfigLoder

    A shallow embedding of [src/configloder/FindDifferences.ts] (class
    [FindDifferences]): the tree builder [buildHashTree], the incremental
    update [findDifferencesAndUpdate] with its four passes, and the public
    operations [initialize] and [detectChanges].

    What the embedding covers:
    - snapshots are the values [JSON.parse] returns: null, booleans, numbers,
      strings, arrays and plain objects.  Numbers are the integers, strings
      are sequences of code units below 256;
    - objects list their own properties in the order JavaScript enumerates
      them; [in] also sees the names inherited from the prototypes;
    - a hash-tree node is the object [{ __hash, ...children }] of the source;
    - [calculateHash] is SHA-256 in lower-case hexadecimal, computed here;
    - the ['difference'] events and the number of [calculateHash] calls are
      logged, and a thrown [TypeError] ends a call with the tree as it was
      mutated so far. *)

From Stdlib Require Import ZArith List String Ascii Bool Arith Lia DecimalString Permutation.
From Stdlib Require DecimalPos.
Import ListNotations.

Set Warnings "-register-all".

Local Open Scope list_scope.
Local Open Scope string_scope.

(* ================================================================== *)
(** ** SHA-256 (FIPS 180-4), the digest behind [crypto.createHash]     *)
(* ================================================================== *)

Module Sha256.
Local Open Scope Z_scope.

Definition wrap32 (x : Z) : Z := Z.land x 0xFFFFFFFF.
Definition add32 (x y : Z) : Z := wrap32 (x + y).
Definition rotr (n x : Z) : Z :=
  Z.lor (Z.shiftr x n) (wrap32 (Z.shiftl x (32 - n))).
Definition not32 (x : Z) : Z := Z.lxor x 0xFFFFFFFF.

Definition Ch (x y z : Z) : Z := Z.lxor (Z.land x y) (Z.land (not32 x) z).
Definition Maj (x y z : Z) : Z :=
  Z.lxor (Z.lxor (Z.land x y) (Z.land x z)) (Z.land y z).
Definition bsig0 (x : Z) : Z := Z.lxor (Z.lxor (rotr 2 x) (rotr 13 x)) (rotr 22 x).
Definition bsig1 (x : Z) : Z := Z.lxor (Z.lxor (rotr 6 x) (rotr 11 x)) (rotr 25 x).
Definition ssig0 (x : Z) : Z := Z.lxor (Z.lxor (rotr 7 x) (rotr 18 x)) (Z.shiftr x 3).
Definition ssig1 (x : Z) : Z := Z.lxor (Z.lxor (rotr 17 x) (rotr 19 x)) (Z.shiftr x 10).

(** The round constants are the first 32 bits of the fractional parts of
    the cube roots of the first 64 primes, the initial hash value those of
    the square roots of the first 8. *)
Definition primes : list Z :=
  [ 2; 3; 5; 7; 11; 13; 17; 19; 23; 29; 31; 37; 41; 43; 47; 53;
    59; 61; 67; 71; 73; 79; 83; 89; 97; 101; 103; 107; 109; 113; 127; 131;
    137; 139; 149; 151; 157; 163; 167; 173; 179; 181; 191; 193; 197; 199;
    211; 223; 227; 229; 233; 239; 241; 251; 257; 263; 269; 271; 277; 281;
    283; 293; 307; 311 ].

(** The integer cube root of [n], found bit by bit from bit [bit - 1] down. *)
Fixpoint cube_root (bit : nat) (n r : Z) : Z :=
  match bit with
  | O => r
  | S bit' =>
      let r' := r + 2 ^ Z.of_nat bit' in
      cube_root bit' n (if r' * r' * r' <=? n then r' else r)
  end.

Definition frac_cube_root (p : Z) : Z := wrap32 (cube_root 36 (p * 2 ^ 96) 0).
Definition frac_square_root (p : Z) : Z := wrap32 (Z.sqrt (p * 2 ^ 64)).

Definition K : list Z := Eval vm_compute in map frac_cube_root primes.

(** The eight working variables a..h, also the running hash value. *)
Record regs := Regs {
  ra : Z; rb : Z; rc : Z; rd : Z; re : Z; rf : Z; rg : Z; rh : Z }.

Definition H0 : regs :=
  Eval vm_compute in
    match map frac_square_root (firstn 8 primes) with
    | [a; b; c; d; e; f; g; h] => Regs a b c d e f g h
    | _ => Regs 0 0 0 0 0 0 0 0
    end.

(** Padding: the bit 1, zeros up to 56 modulo 64 bytes, then the bit length
    on eight bytes, big-endian. *)
Fixpoint be_bytes (n : nat) (x : Z) : list Z :=
  match n with
  | O => []
  | S n' => Z.land (Z.shiftr x (8 * Z.of_nat n')) 0xFF :: be_bytes n' x
  end.

Definition pad (msg : list Z) : list Z :=
  let len := Z.of_nat (List.length msg) in
  msg ++ [0x80] ++ repeat 0 (Z.to_nat ((55 - len) mod 64)) ++ be_bytes 8 (8 * len).

Fixpoint words (fuel : nat) (bs : list Z) : list Z :=
  match fuel, bs with
  | S fuel', b0 :: b1 :: b2 :: b3 :: rest =>
      (Z.shiftl b0 24 + Z.shiftl b1 16 + Z.shiftl b2 8 + b3) :: words fuel' rest
  | _, _ => []
  end.

Fixpoint blocks (fuel : nat) (ws : list Z) : list (list Z) :=
  match fuel, ws with
  | S fuel', _ :: _ => firstn 16 ws :: blocks fuel' (skipn 16 ws)
  | _, _ => []
  end.

(** The message schedule, held newest word first: [w] is W(t-1)..W(0). *)
Fixpoint schedule (n : nat) (w : list Z) : list Z :=
  match n with
  | O => w
  | S n' =>
      let wt := add32 (add32 (add32 (ssig1 (nth 1 w 0)) (nth 6 w 0))
                             (ssig0 (nth 14 w 0))) (nth 15 w 0) in
      schedule n' (wt :: w)
  end.

Definition round (r : regs) (kw : Z * Z) : regs :=
  let (k, w) := kw in
  let t1 := add32 (add32 (add32 (add32 (rh r) (bsig1 (re r)))
                                (Ch (re r) (rf r) (rg r))) k) w in
  let t2 := add32 (bsig0 (ra r)) (Maj (ra r) (rb r) (rc r)) in
  Regs (add32 t1 t2) (ra r) (rb r) (rc r) (add32 (rd r) t1) (re r) (rf r) (rg r).

Definition compress (h : regs) (block : list Z) : regs :=
  let w := rev (schedule 48 (rev block)) in
  let r := fold_left round (combine K w) h in
  Regs (add32 (ra h) (ra r)) (add32 (rb h) (rb r)) (add32 (rc h) (rc r))
       (add32 (rd h) (rd r)) (add32 (re h) (re r)) (add32 (rf h) (rf r))
       (add32 (rg h) (rg r)) (add32 (rh h) (rh r)).

Definition digest_words (msg : list Z) : list Z :=
  let bs := pad msg in
  let ws := words (List.length bs) bs in
  let r := fold_left compress (blocks (List.length ws) ws) H0 in
  [ra r; rb r; rc r; rd r; re r; rf r; rg r; rh r].

End Sha256.

(* ================================================================== *)
(** ** Strings: code units, UTF-8, hexadecimal and decimal digits      *)
(* ================================================================== *)

Definition code (c : ascii) : Z := Z.of_N (N_of_ascii c).
Definition chr (z : Z) : ascii := ascii_of_N (Z.to_N z).

(** [hash.update(value)] hashes the UTF-8 encoding of the string: a code
    unit below 128 is one byte, one from 128 to 255 is two. *)
Fixpoint utf8 (s : string) : list Z :=
  match s with
  | EmptyString => []
  | String c rest =>
      let z := code c in
      if (z <? 128)%Z then z :: utf8 rest
      else Z.lor 0xC0 (Z.shiftr z 6) :: Z.lor 0x80 (Z.land z 0x3F) :: utf8 rest
  end.

Definition hex_digit (z : Z) : ascii :=
  if (z <? 10)%Z then chr (48 + z) else chr (87 + z).

Fixpoint hex_nibbles (n : nat) (x : Z) : string :=
  match n with
  | O => ""
  | S n' => String (hex_digit (Z.land (Z.shiftr x (4 * Z.of_nat n')) 0xF))
                   (hex_nibbles n' x)
  end.

Definition hex_of_words (ws : list Z) : string :=
  fold_right (fun w acc => (hex_nibbles 8 w ++ acc)%string) "" ws.

(** [crypto.createHash('sha256').update(value).digest('hex')] *)
Definition sha256_hex (value : string) : string :=
  hex_of_words (Sha256.digest_words (utf8 value)).

Arguments sha256_hex : simpl never.

(** [Number.prototype.toString] on an integer: decimal digits, a minus sign
    when negative. *)
Definition decimal (z : Z) : string := NilEmpty.string_of_int (Z.to_int z).

(** A property name is an array index when it is the decimal writing of an
    integer from 0 to 2^32 - 2 (no sign, no leading zero). *)
Definition array_index (key : string) : option Z :=
  match NilEmpty.uint_of_string key with
  | Some u =>
      let n := Z.of_uint u in
      if (decimal n =? key) && (n <? 4294967295)%Z then Some n else None
  | None => None
  end.

(** [Array.prototype.sort] without a comparator orders strings by their
    code units.  Keys are distinct, so any sorting algorithm gives the same
    list; this one inserts. *)
Fixpoint insert_sorted (key : string) (sorted : list string) : list string :=
  match sorted with
  | [] => [key]
  | k :: rest =>
      if String.leb key k then key :: sorted else k :: insert_sorted key rest
  end.

Definition sort (keys : list string) : list string :=
  fold_right insert_sorted [] keys.

(* ================================================================== *)
(** ** Snapshots: the values of [JSON.parse], and [JSON.stringify]     *)
(* ================================================================== *)

Inductive Json : Type :=
| JNull
| JBool (b : bool)
| JNum (n : Z)
| JStr (s : string)
| JArr (items : list Json)
| JObj (props : list (string * Json)).

(** [QuoteJSONString]: the two-character escapes, [\u00xx] for the other
    control characters, every other code unit as it is. *)
Definition escape_char (c : ascii) : string :=
  let z := code c in
  if (z =? 8)%Z then "\b"
  else if (z =? 9)%Z then "\t"
  else if (z =? 10)%Z then "\n"
  else if (z =? 12)%Z then "\f"
  else if (z =? 13)%Z then "\r"
  else if (z =? 34)%Z then String "\" (String (chr 34) "")
  else if (z =? 92)%Z then "\\"
  else if (z <? 32)%Z then "\u00" ++ hex_nibbles 2 z
  else String c "".

Fixpoint escape (s : string) : string :=
  match s with
  | EmptyString => ""
  | String c rest => escape_char c ++ escape rest
  end.

Definition quote (s : string) : string :=
  String (chr 34) (escape s ++ String (chr 34) "").

(** [JSON.stringify] on these values.  A number is an integer and is
    written in plain digits, as JavaScript writes the integers of magnitude
    below 10^21; fractions, and larger magnitudes, which JavaScript writes
    with an exponent, are outside the type.  The engine only hashes this
    text. *)
Fixpoint JSON_stringify (value : Json) : string :=
  match value with
  | JNull => "null"
  | JBool true => "true"
  | JBool false => "false"
  | JNum n => decimal n
  | JStr s => quote s
  | JArr items =>
      "[" ++ String.concat "," (map JSON_stringify items) ++ "]"
  | JObj props =>
      "{" ++ String.concat ","
               (map (fun '(k, v) => quote k ++ ":" ++ JSON_stringify v) props)
          ++ "}"
  end.

Fixpoint depth (value : Json) : nat :=
  match value with
  | JArr items => S (fold_right Nat.max 0 (map depth items))
  | JObj props => S (fold_right Nat.max 0 (map (fun '(_, v) => depth v) props))
  | _ => 0
  end.

(** Truthiness, as [if (x.type)] tests it. *)
Definition truthy (value : Json) : bool :=
  match value with
  | JNull => false
  | JBool b => b
  | JNum n => negb (n =? 0)%Z
  | JStr s => negb (s =? "")
  | JArr _ | JObj _ => true
  end.

(* ================================================================== *)
(** ** JavaScript objects: own properties in enumeration order         *)
(* ================================================================== *)

(** An object is the list of its own enumerable properties in the order
    [for..in], [Object.keys] and [Object.entries] visit them: the array
    indices in ascending numeric order, then the other names in the order
    they were created. *)
Section Properties.
Context {V : Type}.

Fixpoint own_get (key : string) (o : list (string * V)) : option V :=
  match o with
  | [] => None
  | (k, v) :: rest => if k =? key then Some v else own_get key rest
  end.

Definition own_has (key : string) (o : list (string * V)) : bool :=
  match own_get key o with Some _ => true | None => false end.

Fixpoint replace_value (key : string) (v : V) (o : list (string * V))
  : list (string * V) :=
  match o with
  | [] => []
  | (k, w) :: rest =>
      if k =? key then (k, v) :: rest else (k, w) :: replace_value key v rest
  end.

(** A new array index goes before the first property that is a larger
    index or no index at all. *)
Fixpoint insert_index (i : Z) (key : string) (v : V) (o : list (string * V))
  : list (string * V) :=
  match o with
  | [] => [(key, v)]
  | (k, w) :: rest =>
      match array_index k with
      | Some j =>
          if (j <? i)%Z then (k, w) :: insert_index i key v rest
          else (key, v) :: o
      | None => (key, v) :: o
      end
  end.

(** [CreateDataProperty]: what an object literal, a spread and
    [Object.fromEntries] do for each property. *)
Definition define (key : string) (v : V) (o : list (string * V))
  : list (string * V) :=
  if own_has key o then replace_value key v o
  else match array_index key with
       | Some i => insert_index i key v o
       | None => o ++ [(key, v)]
       end.

(** [o[key] = v] on an object whose prototype is [Object.prototype]: as
    [define], except that [__proto__], when it is not an own property,
    reaches the inherited setter, which rebinds the prototype and creates
    no property. *)
Definition assign (key : string) (v : V) (o : list (string * V))
  : list (string * V) :=
  if (key =? "__proto__") && negb (own_has key o) then o else define key v o.

(** [delete o[key]] *)
Definition delete (key : string) (o : list (string * V)) : list (string * V) :=
  filter (fun '(k, _) => negb (k =? key)) o.

(** [{ ...o, ...source }]: the properties of [source], in its order. *)
Definition spread (source o : list (string * V)) : list (string * V) :=
  fold_left (fun o '(k, v) => define k v o) source o.

(** [Object.fromEntries(entries)] *)
Definition from_entries (entries : list (string * V)) : list (string * V) :=
  spread entries [].
End Properties.

(** The names every object inherits from [Object.prototype]; [in] answers
    true for them on any object. *)
Definition Object_prototype_names : list string :=
  [ "constructor"; "__defineGetter__"; "__defineSetter__"; "hasOwnProperty";
    "__lookupGetter__"; "__lookupSetter__"; "isPrototypeOf";
    "propertyIsEnumerable"; "toString"; "valueOf"; "__proto__";
    "toLocaleString" ].

(** The methods an array inherits from [Array.prototype] in addition. *)
Definition Array_prototype_names : list string :=
  [ "at"; "concat"; "copyWithin"; "entries"; "every"; "fill"; "filter";
    "find"; "findIndex"; "findLast"; "findLastIndex"; "flat"; "flatMap";
    "forEach"; "includes"; "indexOf"; "join"; "keys"; "lastIndexOf"; "map";
    "pop"; "push"; "reduce"; "reduceRight"; "reverse"; "shift"; "slice";
    "some"; "sort"; "splice"; "toReversed"; "toSorted"; "toSpliced";
    "unshift"; "values"; "with" ].

Definition mem (key : string) (names : list string) : bool :=
  existsb (String.eqb key) names.

Definition indices (n : nat) : list string :=
  map (fun i => decimal (Z.of_nat i)) (seq 0 n).

(** What [jsonData[key]] evaluates to. *)
Inductive Lookup : Type :=
| Value (v : Json)      (* an own property, an element, a length *)
| Method                (* a function inherited from a prototype *)
| Prototype             (* the prototype object, through [__proto__] *)
| Undefined.

Definition inherited (key : string) (names : list string) : Lookup :=
  if key =? "__proto__" then Prototype
  else if mem key names then Method
  else Undefined.

Definition element (key : string) (items : list Json) : option Json :=
  match array_index key with
  | Some i => nth_error items (Z.to_nat i)
  | None => None
  end.

Definition char_at (key : string) (s : string) : option Json :=
  match array_index key with
  | Some i => option_map (fun c => JStr (String c "")) (String.get (Z.to_nat i) s)
  | None => None
  end.

Definition get (jsonData : Json) (key : string) : Lookup :=
  match jsonData with
  | JObj props =>
      match own_get key props with
      | Some v => Value v
      | None => inherited key Object_prototype_names
      end
  | JArr items =>
      match element key items with
      | Some v => Value v
      | None =>
          if key =? "length" then Value (JNum (Z.of_nat (List.length items)))
          else inherited key (Array_prototype_names ++ Object_prototype_names)
      end
  | JStr s =>
      match char_at key s with
      | Some v => Value v
      | None => Undefined
      end
  | _ => Undefined
  end.

(** [key in jsonData]; [None] when the right operand is not an object and
    the operator throws a [TypeError]. *)
Definition has (jsonData : Json) (key : string) : option bool :=
  match jsonData with
  | JObj _ | JArr _ =>
      Some (match get jsonData key with Undefined => false | _ => true end)
  | _ => None
  end.

(** The keys [for (const key in jsonData)] visits. *)
Definition for_in (jsonData : Json) : list string :=
  match jsonData with
  | JObj props => map fst props
  | JArr items => indices (List.length items)
  | JStr s => indices (String.length s)
  | _ => []
  end.

(* ================================================================== *)
(** ** The hash tree and the engine's state                            *)
(* ================================================================== *)

(** [interface HashTreeNode { __hash: string; [key: string]: unknown }]:
    a node is one object; the digest is its property [__hash] and every
    other property is a child.  A property holds a string or an object. *)
Inductive TreeValue : Type :=
| Text (s : string)
| Node (props : list (string * TreeValue)).

Definition HashTreeNode : Type := list (string * TreeValue).

Inductive Kind : Type := added | removed | modified.

(** [interface DifferenceEvent { type; path }] *)
Record DifferenceEvent : Type := Difference { type : Kind; path : string }.

Inductive TypeError : Type :=
| InOnPrimitive        (* [key in x] where x is no object *)
| HashOfUndefined      (* [hash.update(undefined)] *)
| AssignOnPrimitive.   (* ['s'.__hash = h] in strict mode *)

(** The node a method works on, the events emitted so far in order, and the
    number of digests computed so far. *)
Record Frame : Type := mkFrame {
  hashTree : HashTreeNode;
  events : list DifferenceEvent;
  hashCalls : nat }.

Inductive Completion (A : Type) : Type :=
| Normal (a : A)
| Throw (e : TypeError)
| Unmodelled   (* the call went on with a prototype object as a value *)
| OutOfFuel.
Arguments Normal {A} a.
Arguments Throw {A} e.
Arguments Unmodelled {A}.
Arguments OutOfFuel {A}.

(** A method body: it may mutate the node, emit, hash, and end abruptly; the
    mutations made before a throw stay. *)
Definition M (A : Type) : Type := Frame -> Completion A * Frame.

Definition ret {A} (a : A) : M A := fun s => (Normal a, s).

Definition bind {A B} (m : M A) (k : A -> M B) : M B :=
  fun s =>
    match m s with
    | (Normal a, s') => k a s'
    | (Throw e, s') => (Throw e, s')
    | (Unmodelled, s') => (Unmodelled, s')
    | (OutOfFuel, s') => (OutOfFuel, s')
    end.

Notation "x <- m ;; k" := (bind m (fun x => k))
  (at level 61, m at next level, right associativity).
Notation "m ;; k" := (bind m (fun _ => k))
  (at level 61, right associativity).

Definition throw {A} (e : TypeError) : M A := fun s => (Throw e, s).
Definition unmodelled {A} : M A := fun s => (Unmodelled, s).
Definition out_of_fuel {A} : M A := fun s => (OutOfFuel, s).

Definition read : M HashTreeNode := fun s => (Normal (hashTree s), s).

Definition mutate (f : HashTreeNode -> HashTreeNode) : M unit :=
  fun s => (Normal tt, mkFrame (f (hashTree s)) (events s) (hashCalls s)).

(** [this.emit('difference', { type, path })] *)
Definition emit (kind : Kind) (currentPath : string) : M unit :=
  fun s => (Normal tt,
            mkFrame (hashTree s) (events s ++ [Difference kind currentPath])
                    (hashCalls s)).

(** [s] after [n] more digests and nothing else. *)
Definition hashed (n : nat) (s : Frame) : Frame :=
  mkFrame (hashTree s) (events s) (hashCalls s + n).

(** [calculateHash(value)]; [None] is [undefined], which [update] rejects. *)
Definition calculateHash (value : option string) : M string :=
  match value with
  | Some text => fun s => (Normal (sha256_hex text), hashed 1 s)
  | None => throw HashOfUndefined
  end.

(** Run a method on the child object [hashTree[key]]; the child is mutated
    in place, so its new content is in the parent whatever the outcome. *)
Definition within {A} (key : string) (m : M A) : M A :=
  fun s =>
    match own_get key (hashTree s) with
    | Some (Node child) =>
        let (r, s') := m (mkFrame child (events s) (hashCalls s)) in
        (r, mkFrame (replace_value key (Node (hashTree s')) (hashTree s))
                    (events s') (hashCalls s'))
    | _ => (Unmodelled, s)
    end.

Fixpoint for_each {A} (items : list A) (body : A -> M unit) : M unit :=
  match items with
  | [] => ret tt
  | x :: rest => body x ;; for_each rest body
  end.

Fixpoint map_each {A B} (items : list A) (f : A -> M B) : M (list B) :=
  match items with
  | [] => ret []
  | x :: rest => y <- f x ;; ys <- map_each rest f ;; ret (y :: ys)
  end.

(** [value.__hash] for a property value: a string has no such property. *)
Definition hash_of (value : TreeValue) : option TreeValue :=
  match value with
  | Text _ => None
  | Node props => own_get "__hash" props
  end.

(** A value inside a template literal, and as an element of [join].  A
    node is written [[object Object]], which is what JavaScript does for an
    object that inherits [toString]; a node with an own property
    [toString] makes the conversion throw a [TypeError], and that case is
    outside these two functions.  The properties below that convert a node
    say which snapshots they cover: those whose digests are strings. *)
Definition in_template (x : option TreeValue) : string :=
  match x with
  | Some (Text s) => s
  | Some (Node _) => "[object Object]"
  | None => "undefined"
  end.

Definition in_join (x : option TreeValue) : string :=
  match x with
  | Some (Text s) => s
  | Some (Node _) => "[object Object]"
  | None => ""
  end.

(** [x === h] for a property value [x] and a string [h]. *)
Definition strict_equal (x : option TreeValue) (h : string) : bool :=
  match x with
  | Some (Text s) => s =? h
  | _ => false
  end.

(** [path ? `${path}.${key}` : key] *)
Definition join_path (path key : string) : string :=
  if path =? "" then key else path ++ "." ++ key.

(** [key in hashTree] *)
Definition in_tree (key : string) (tree : HashTreeNode) : bool :=
  own_has key tree || mem key Object_prototype_names.

(** [JSON.stringify(jsonValue)]; a function or [undefined] gives
    [undefined]. *)
Definition stringify (jsonValue : Lookup) : option string :=
  match jsonValue with
  | Value v => Some (JSON_stringify v)
  | Prototype => Some "{}"
  | Method | Undefined => None
  end.

(** [x.type], tested for truthiness. *)
Definition has_type (data : Json) : bool :=
  match get data "type" with
  | Value v => truthy v
  | _ => false
  end.

Definition is_object (data : Json) : bool :=
  match data with
  | JArr _ | JObj _ => true
  | _ => false
  end.

(* ================================================================== *)
(** ** The tree builder                                                *)
(* ================================================================== *)

(** [{ __hash: this.calculateHash(JSON.stringify(x)) }] *)
Definition leaf (x : Lookup) : M HashTreeNode :=
  h <- calculateHash (stringify x) ;;
  ret [("__hash", Text h)].

(** [.map(([key, value]) => `${key}:${value.__hash}`).join('')] *)
Definition combine_entries (entries : list (string * TreeValue)) : string :=
  String.concat ""
    (map (fun '(key, value) => key ++ ":" ++ in_template (hash_of value)) entries).

Fixpoint reduce {A B} (items : list A) (f : B -> A -> M B) (acc : B) : M B :=
  match items with
  | [] => ret acc
  | x :: rest => acc' <- f acc x ;; reduce rest f acc'
  end.

(** [buildHashTree], unfolded [fuel] levels deep. *)
Fixpoint buildHashTree_at (fuel : nat) (data : Json) : M HashTreeNode :=
  match fuel with
  | O => out_of_fuel
  | S fuel' =>
      let buildHashTree := buildHashTree_at fuel' in
      match data with
      | JArr items =>
          childHashes <- map_each items buildHashTree ;;
          combinedHash <-
            calculateHash
              (Some (String.concat ""
                       (map (fun h => in_join (own_get "__hash" h)) childHashes))) ;;
          ret (spread
                 (from_entries
                    (combine (indices (List.length childHashes))
                             (map Node childHashes)))
                 [("__hash", Text combinedHash)])
      | JObj props =>
          if has_type data then leaf (Value data)
          else
            childHashes <-
              reduce (sort (map fst props))
                (fun tree key =>
                   match own_get key props with
                   | Some v =>
                       child <- buildHashTree v ;;
                       ret (assign key (Node child) tree)
                   | None => throw HashOfUndefined
                   end)
                [] ;;
            combinedHash <- calculateHash (Some (combine_entries childHashes)) ;;
            ret (spread childHashes [("__hash", Text combinedHash)])
      | _ => leaf (Value data)
      end
  end.

Definition buildHashTree (data : Json) : M HashTreeNode :=
  buildHashTree_at (S (depth data)) data.

(* ================================================================== *)
(** ** The differencing engine                                         *)
(* ================================================================== *)

Definition placeholder : HashTreeNode := [("__hash", Text "")].

(** The child properties of a node, in enumeration order:
    [Object.entries(node).filter(([key]) => key !== '__hash')]. *)
Definition children (node : HashTreeNode) : list (string * TreeValue) :=
  filter (fun '(key, _) => negb (key =? "__hash")) node.

(** The statements [processObjectValue] (lines 187-193) and
    [processPrimitiveValue] (lines 222-228) share: compare the digest stored
    in [hashTree[key]] with the new one; when they differ, emit [modified]
    and store the new one in [hashTree[key].__hash]. *)
Definition storeIfChanged (newPrimitiveHash key currentPath : string) : M unit :=
  tree <- read ;;
  match own_get key tree with
  | Some child =>
      if strict_equal (hash_of child) newPrimitiveHash then ret tt
      else
        emit modified currentPath ;;
        match child with
        | Node props =>
            mutate (replace_value key
                      (Node (assign "__hash" (Text newPrimitiveHash) props)))
        | Text _ => throw AssignOnPrimitive
        end
  | None => unmodelled
  end.

(** The last statement of [findDifferencesAndUpdate] (lines 289-294): the
    digest of the node is recomputed from its children as they are now. *)
Definition recomputeHash : M unit :=
  tree <- read ;;
  h <- calculateHash (Some (combine_entries (children tree))) ;;
  mutate (assign "__hash" (Text h)).

Section Passes.
(** [this.findDifferencesAndUpdate], for the recursive call. *)
Variable findDifferencesAndUpdate : Json -> string -> M unit.

Definition processPrimitiveValue (jsonValue : Lookup) (key currentPath : string)
  : M unit :=
  newPrimitiveHash <- calculateHash (stringify jsonValue) ;;
  storeIfChanged newPrimitiveHash key currentPath.

Definition processObjectValue (jsonValue : Json) (key currentPath : string)
  : M unit :=
  if has_type jsonValue then
    newPrimitiveHash <- calculateHash (Some (JSON_stringify jsonValue)) ;;
    storeIfChanged newPrimitiveHash key currentPath
  else
    tree <- read ;;
    match own_get key tree with
    | Some (Node _) => ret tt
    | _ => mutate (assign key (Node placeholder))
    end ;;
    within key (findDifferencesAndUpdate jsonValue currentPath).

Definition processKeyValue (jsonData : Json) (key currentPath : string)
  : M unit :=
  match get jsonData key with
  | Value jsonValue =>
      if is_object jsonValue then processObjectValue jsonValue key currentPath
      else processPrimitiveValue (Value jsonValue) key currentPath
  | Prototype => unmodelled
  | jsonValue => processPrimitiveValue jsonValue key currentPath
  end.

(** The body of the loop of [processExistingKeys]. *)
Definition processExistingKey (jsonData : Json) (path key : string) : M unit :=
  if key =? "__hash" then ret tt
  else
    let currentPath := join_path path key in
    match has jsonData key with
    | None => throw InOnPrimitive
    | Some false => emit removed currentPath ;; mutate (delete key)
    | Some true => processKeyValue jsonData key currentPath
    end.

(** [for (const key in hashTree)] visits the keys the node has when the
    loop starts; the body deletes or rewrites the current key only. *)
Definition processExistingKeys (jsonData : Json) (path : string) : M unit :=
  tree <- read ;;
  for_each (map fst tree) (processExistingKey jsonData path).

(** The body of the loop of [processAddedKeys]. *)
Definition processAddedKey (jsonData : Json) (path key : string) : M unit :=
  let currentPath := join_path path key in
  tree <- read ;;
  if in_tree key tree then ret tt
  else
    emit added currentPath ;;
    child <-
      match get jsonData key with
      | Value jsonValue =>
          if is_object jsonValue then buildHashTree jsonValue
          else leaf (Value jsonValue)
      | Prototype => unmodelled
      | jsonValue => leaf jsonValue
      end ;;
    mutate (assign key (Node child)).

Definition processAddedKeys (jsonData : Json) (path : string) : M unit :=
  for_each (for_in jsonData) (processAddedKey jsonData path).

Definition findDifferencesAndUpdate_body (jsonData : Json) (path : string)
  : M unit :=
  newHash <- calculateHash (Some (JSON_stringify jsonData)) ;;
  tree <- read ;;
  if strict_equal (own_get "__hash" tree) newHash then ret tt
  else
    processExistingKeys jsonData path ;;
    processAddedKeys jsonData path ;;
    recomputeHash.
End Passes.

(** [findDifferencesAndUpdate], unfolded [fuel] levels deep. *)
Fixpoint findDifferencesAndUpdate_at (fuel : nat) (jsonData : Json) (path : string)
  : M unit :=
  match fuel with
  | O => out_of_fuel
  | S fuel' =>
      findDifferencesAndUpdate_body (findDifferencesAndUpdate_at fuel') jsonData path
  end.

Definition findDifferencesAndUpdate (jsonData : Json) (path : string) : M unit :=
  findDifferencesAndUpdate_at (S (depth jsonData)) jsonData path.

(** [constructor()]: [this.previousHashTree = { __hash: '' }] *)
Definition constructor : Frame := mkFrame placeholder [] 0.

(** [initialize(jsonData)] *)
Definition initialize (jsonData : Json) : M HashTreeNode :=
  tree <- buildHashTree jsonData ;;
  mutate (fun _ => tree) ;;
  ret tree.

(** [detectChanges(jsonData)] *)
Definition detectChanges (jsonData : Json) : M HashTreeNode :=
  findDifferencesAndUpdate jsonData "" ;;
  read.

(* ================================================================== *)
(** ** Observing a call                                                *)
(* ================================================================== *)

(** The engine after a call, however the call ended. *)
Definition after {A} (m : M A) (s : Frame) : Frame := snd (m s).

Definition completion {A} (m : M A) (s : Frame) : Completion A := fst (m s).

(** The events the call emitted: the ones logged beyond those of [s]. *)
Definition emitted_by {A} (m : M A) (s : Frame) : list DifferenceEvent :=
  skipn (List.length (events s)) (events (after m s)).

(** The digests the call computed. *)
Definition hashes_by {A} (m : M A) (s : Frame) : nat :=
  hashCalls (after m s) - hashCalls s.

Definition root_digest (s : Frame) : option TreeValue :=
  own_get "__hash" (hashTree s).

(** A node as section 3 of the specification describes it: [__hash] holds
    a digest string and every other property is again such a node. *)
Fixpoint intact (value : TreeValue) : bool :=
  match value with
  | Text _ => false
  | Node props =>
      match own_get "__hash" props with
      | Some (Text _) => true
      | _ => false
      end
      && forallb (fun '(key, child) => (key =? "__hash") || intact child) props
  end.

(** The tree [buildHashTree] returns for [data], and the digests it takes. *)
Definition built (data : Json) : HashTreeNode :=
  match completion (buildHashTree data) constructor with
  | Normal tree => tree
  | _ => []
  end.

Definition build_cost (data : Json) : nat :=
  hashCalls (after (buildHashTree data) constructor).

(** No object inside [data] has a property named [__hash]. *)
Fixpoint free_of_hash_key (data : Json) : bool :=
  match data with
  | JArr items => forallb free_of_hash_key items
  | JObj props =>
      forallb (fun '(key, v) => negb (key =? "__hash") && free_of_hash_key v) props
  | _ => true
  end.

(** The values both passes treat as one unit: primitives, [null], and
    objects with a truthy [type]. *)
Definition atomic (value : Json) : bool :=
  negb (is_object value) || has_type value.

(** [m] returns [a] after [n] digests, from every state, touching neither
    the tree nor the event log. *)
Definition returns {A} (m : M A) (a : A) (n : nat) : Prop :=
  forall s, m s = (Normal a, hashed n s).

(** The child [buildHashTree] makes for the property [key] of an object. *)
Definition child_of (props : list (string * Json)) (key : string) : TreeValue :=
  match own_get key props with
  | Some v => Node (built v)
  | None => Node []
  end.

Definition sound (tree : HashTreeNode) : Prop := intact (Node tree) = true.

(** [m] keeps the property [I] of the node it works on, however it ends. *)
Definition keeps {A} (I : HashTreeNode -> Prop) (m : M A) : Prop :=
  forall s, I (hashTree s) -> I (hashTree (after m s)).

(** A property name that is no array index and none of the two names the
    node object treats specially. *)
Definition plain_name (key : string) : bool :=
  match array_index key with
  | Some _ => false
  | None => negb (key =? "__hash") && negb (key =? "__proto__")
  end.

(** The digest of a value taken as one unit. *)
Definition digest (value : Json) : string := sha256_hex (JSON_stringify value).

(** The index paths, from [i] on, at which two arrays have elements of
    different digests. *)
Fixpoint changed_from (i : nat) (old new : list Json) : list string :=
  match old, new with
  | x :: old', y :: new' =>
      (if digest x =? digest y then [] else [decimal (Z.of_nat i)])
      ++ changed_from (S i) old' new'
  | _, _ => []
  end.

(** The node of a value taken as one unit: [{ __hash: digest }]. *)
Definition leaf_node (value : Json) : TreeValue :=
  Node [("__hash", Text (digest value))].

(** The index keys [start], [start + 1], ... paired with [values]. *)
Definition index_entries {V} (start : nat) (values : list V) : list (string * V) :=
  combine (map (fun i => decimal (Z.of_nat i)) (seq start (List.length values)))
          values.

(** Every property of [o] is an array index below [i]. *)
Definition below {V} (i : Z) (o : list (string * V)) : Prop :=
  Forall (fun kv => exists j, array_index (fst kv) = Some j /\ (j < i)%Z) o.

(** [m] never stops for lack of fuel: the unfolding it was given covers
    every recursive call it makes. *)
Definition finishes {A} (m : M A) : Prop :=
  forall s, completion m s <> OutOfFuel.

(** A name that is plain and not inherited from [Object.prototype]. *)
Definition ordinary_name (key : string) : bool :=
  plain_name key && negb (mem key Object_prototype_names).

(** An object whose names are distinct and ordinary and whose values are
    taken as units. *)
Definition flat (props : list (string * Json)) : Prop :=
  NoDup (map fst props)
  /\ forallb ordinary_name (map fst props) = true
  /\ forallb atomic (map snd props) = true.

(** The properties of an object in the order [buildHashTree] creates the
    children: by sorted name. *)
Definition by_sorted_name (props : list (string * Json)) : list (string * Json) :=
  map (fun key => (key, match own_get key props with
                        | Some v => v
                        | None => JNull
                        end))
      (sort (map fst props)).

Definition leaves (props : list (string * Json)) : HashTreeNode :=
  map (fun '(key, v) => (key, leaf_node v)) props.

(** What the first pass reports for the children [old] against the object
    [new]: [removed] for a name [new] lacks, [modified] for a name whose
    digest differs. *)
Definition existing_events (new old : list (string * Json)) : list DifferenceEvent :=
  flat_map (fun '(key, x) =>
              match own_get key new with
              | None => [Difference removed key]
              | Some y =>
                  if digest x =? digest y then [] else [Difference modified key]
              end) old.

(** The children the first pass leaves, with the values of [new]. *)
Definition kept (new old : list (string * Json)) : list (string * Json) :=
  flat_map (fun '(key, _) =>
              match own_get key new with
              | None => []
              | Some y => [(key, y)]
              end) old.

(** The properties of [new] under names [old] does not have. *)
Definition fresh (old new : list (string * Json)) : list (string * Json) :=
  filter (fun '(key, _) => negb (own_has key old)) new.

(** A name that is neither [__hash] nor inherited by an object or an
    array from its prototype. *)
Definition safe_name (key : string) : bool :=
  negb (key =? "__hash")
  && negb (mem key (Array_prototype_names ++ Object_prototype_names)).

(** A snapshot all of whose property names are safe and whose arrays have
    at most 2^32 - 1 elements (the JavaScript limit). *)
Fixpoint tidy_json (data : Json) : bool :=
  match data with
  | JArr items =>
      (Z.of_nat (List.length items) <=? 4294967295)%Z && forallb tidy_json items
  | JObj props =>
      forallb (fun '(key, v) => safe_name key && tidy_json v) props
  | _ => true
  end.

(** A node whose [__hash] is a digest string and whose other properties
    have safe names and are again such nodes. *)
Fixpoint tidy (value : TreeValue) : bool :=
  match value with
  | Text _ => false
  | Node props =>
      match own_get "__hash" props with
      | Some (Text _) => true
      | _ => false
      end
      && forallb (fun '(key, child) =>
                    (key =? "__hash") || (safe_name key && tidy child)) props
  end.

(** What a tidy node asks of each of its properties. *)
Definition tidy_entry (kc : string * TreeValue) : Prop :=
  fst kc = "__hash" \/ (safe_name (fst kc) = true /\ tidy (snd kc) = true).

(** From a tidy node, [m] returns normally and leaves a tidy node. *)
Definition succeeds {A} (m : M A) : Prop :=
  forall s, tidy (Node (hashTree s)) = true ->
    exists a s', m s = (Normal a, s') /\ tidy (Node (hashTree s')) = true.

(** [m] only appends to the event log, and only events that satisfy [P]. *)
Definition appends {A} (P : DifferenceEvent -> Prop) (m : M A) : Prop :=
  forall s, exists new,
    events (after m s) = (events s ++ new)%list /\ Forall P new.

(** The event lies below the path [p]; no path is above the root. *)
Definition under (p : string) (e : DifferenceEvent) : Prop :=
  p = "" \/ String.prefix (p ++ ".") (path e) = true.

(* ================================================================== *)
(** ** The JavaScript sibling, [src/configloder/FindDifferences.js]    *)
(* ================================================================== *)

(** The builder of the older JavaScript class.  It differs from the
    TypeScript one in two expressions: an array joins its child nodes
    themselves, [childHashes.join('')], and an object labels a child with
    [value.__hash || value]. *)
Module Js.

(** [`${value.__hash || value}`]: an empty or missing digest falls back to
    the value itself. *)
Definition label (value : TreeValue) : string :=
  match hash_of value with
  | Some (Text EmptyString) | None => in_template (Some value)
  | digest => in_template digest
  end.

Definition combine_entries (entries : list (string * TreeValue)) : string :=
  String.concat ""
    (map (fun '(key, value) => key ++ ":" ++ label value) entries).

Fixpoint buildHashTree_at (fuel : nat) (data : Json) : M HashTreeNode :=
  match fuel with
  | O => out_of_fuel
  | S fuel' =>
      let buildHashTree := buildHashTree_at fuel' in
      match data with
      | JArr items =>
          childHashes <- map_each items buildHashTree ;;
          combinedHash <-
            calculateHash
              (Some (String.concat ""
                       (map (fun h => in_join (Some (Node h))) childHashes))) ;;
          ret (spread
                 (combine (indices (List.length childHashes))
                          (map Node childHashes))
                 [("__hash", Text combinedHash)])
      | JObj props =>
          if has_type data then leaf (Value data)
          else
            childHashes <-
              reduce (sort (map fst props))
                (fun tree key =>
                   match own_get key props with
                   | Some v =>
                       child <- buildHashTree v ;;
                       ret (assign key (Node child) tree)
                   | None => throw HashOfUndefined
                   end)
                [] ;;
            combinedHash <- calculateHash (Some (combine_entries childHashes)) ;;
            ret (spread childHashes [("__hash", Text combinedHash)])
      | _ => leaf (Value data)
      end
  end.

Definition buildHashTree (data : Json) : M HashTreeNode :=
  buildHashTree_at (S (depth data)) data.

(** [constructor()]: [this.previousHashTree = {}] *)
Definition constructor : Frame := mkFrame [] [] 0.

(** [initialize(jsonData)] *)
Definition initialize (jsonData : Json) : M HashTreeNode :=
  tree <- buildHashTree jsonData ;;
  mutate (fun _ => tree) ;;
  ret tree.

(** Lines 73-76 and 86-89 of [findDifferencesAndUpdate]: compare the
    digest stored in [hashTree[key]] with the new one; when they differ,
    emit [modified] and replace the child by a new leaf,
    [hashTree[key] = { __hash: newPrimitiveHash }]. *)
Definition replaceIfChanged (newPrimitiveHash key currentPath : string) : M unit :=
  tree <- read ;;
  match own_get key tree with
  | Some child =>
      if strict_equal (hash_of child) newPrimitiveHash then ret tt
      else
        emit modified currentPath ;;
        mutate (assign key (Node [("__hash", Text newPrimitiveHash)]))
  | None => unmodelled
  end.

(** Lines 107-112: the digest of the node from its children as they are
    now. *)
Definition recomputeHash : M unit :=
  tree <- read ;;
  h <- calculateHash (Some (combine_entries (children tree))) ;;
  mutate (assign "__hash" (Text h)).

Section Passes.
(** [this.findDifferencesAndUpdate], for the recursive call; the node it
    works on is the one [within] selects. *)
Variable findDifferencesAndUpdate : Json -> string -> M unit.

(** The body of the first loop, lines 62-90. *)
Definition existingKey (jsonData : Json) (path key : string) : M unit :=
  if key =? "__hash" then ret tt
  else
    let currentPath := join_path path key in
    match has jsonData key with
    | None => throw InOnPrimitive
    | Some false => emit removed currentPath ;; mutate (delete key)
    | Some true =>
        match get jsonData key with
        | Value jsonValue =>
            if is_object jsonValue then
              if has_type jsonValue then
                newPrimitiveHash <-
                  calculateHash (Some (JSON_stringify jsonValue)) ;;
                replaceIfChanged newPrimitiveHash key currentPath
              else
                tree <- read ;;
                match own_get key tree with
                | Some (Node _) => ret tt
                | _ => mutate (assign key (Node []))
                end ;;
                within key (findDifferencesAndUpdate jsonValue currentPath)
            else
              newPrimitiveHash <-
                calculateHash (Some (JSON_stringify jsonValue)) ;;
              replaceIfChanged newPrimitiveHash key currentPath
        | Prototype => unmodelled
        | jsonValue =>
            newPrimitiveHash <- calculateHash (stringify jsonValue) ;;
            replaceIfChanged newPrimitiveHash key currentPath
        end
    end.

(** The body of the second loop, lines 95-103. *)
Definition addedKey (jsonData : Json) (path key : string) : M unit :=
  let currentPath := join_path path key in
  tree <- read ;;
  if in_tree key tree then ret tt
  else
    emit added currentPath ;;
    child <-
      match get jsonData key with
      | Value jsonValue =>
          if is_object jsonValue then buildHashTree jsonValue
          else leaf (Value jsonValue)
      | Prototype => unmodelled
      | jsonValue => leaf jsonValue
      end ;;
    mutate (assign key (Node child)).

Definition findDifferencesAndUpdate_body (jsonData : Json) (path : string)
  : M unit :=
  newHash <- calculateHash (Some (JSON_stringify jsonData)) ;;
  tree <- read ;;
  if strict_equal (own_get "__hash" tree) newHash then ret tt
  else
    (tree <- read ;; for_each (map fst tree) (existingKey jsonData path)) ;;
    for_each (for_in jsonData) (addedKey jsonData path) ;;
    recomputeHash.
End Passes.

Fixpoint findDifferencesAndUpdate_at (fuel : nat) (jsonData : Json) (path : string)
  : M unit :=
  match fuel with
  | O => out_of_fuel
  | S fuel' =>
      findDifferencesAndUpdate_body (findDifferencesAndUpdate_at fuel') jsonData path
  end.

Definition findDifferencesAndUpdate (jsonData : Json) (path : string) : M unit :=
  findDifferencesAndUpdate_at (S (depth jsonData)) jsonData path.

(** [detectChanges(jsonData)] *)
Definition detectChanges (jsonData : Json) : M HashTreeNode :=
  findDifferencesAndUpdate jsonData "" ;;
  read.

End Js.

(** No array occurs in [data] outside a type-tagged object. *)
Fixpoint array_free (data : Json) : bool :=
  match data with
  | JArr _ => false
  | JObj props =>
      has_type (JObj props) || forallb (fun '(_, v) => array_free v) props
  | _ => true
  end.

(** The node has the own property [key] with value [c]. *)
Definition has_child (key : string) (c : TreeValue) (tree : HashTreeNode) : Prop :=
  own_get key tree = Some c.

(** The child under [key] agrees with the snapshot: the value is there,
    and the child holds its digest when the value is taken as one unit, or
    is a node that [nested] relates to the value otherwise. *)
Definition agrees (nested : Json -> HashTreeNode -> Prop)
           (data : Json) (key : string) (child : TreeValue) : Prop :=
  exists v, get data key = Value v
    /\ if atomic v then strict_equal (hash_of child) (digest v) = true
       else exists c, child = Node c /\ nested v c.

(** The node has nothing to report about the snapshot, as deep as
    [findDifferencesAndUpdate] looks: the root test succeeds, or every
    child agrees with the snapshot and every key of the snapshot is
    there. *)
Fixpoint settled (fuel : nat) (data : Json) (tree : HashTreeNode) : Prop :=
  match fuel with
  | O => False
  | S fuel' =>
      strict_equal (own_get "__hash" tree) (digest data) = true
      \/ ((forall key child, key <> "__hash" -> own_get key tree = Some child ->
             agrees (settled fuel') data key child)
          /\ (forall key, In key (for_in data) -> own_has key tree = true))
  end.

(** No node of the tree has a property named [__proto__].  The engine
    creates none: [o[key] = v] with that key reaches the inherited setter,
    and the builder spreads only what it assigned. *)
Fixpoint proto_free (value : TreeValue) : bool :=
  match value with
  | Text _ => true
  | Node props =>
      forallb (fun '(key, child) => negb (key =? "__proto__") && proto_free child)
              props
  end.

(** The call ended the way the code can end: it returned or it threw. *)
Definition ended {A} (c : Completion A) : bool :=
  match c with
  | Normal _ | Throw _ => true
  | Unmodelled | OutOfFuel => false
  end.

(** From a node without [__proto__] properties, [m] stays within what the
    embedding covers, and leaves such a node when it returns. *)
Definition covered {A} (m : M A) : Prop :=
  forall s, proto_free (Node (hashTree s)) = true ->
    match m s with
    | (Normal _, s') => proto_free (Node (hashTree s')) = true
    | (Unmodelled, _) => False
    | _ => True
    end.

(* ================================================================== *)
(** * Properties                                                     *)
(* ================================================================== *)

(** ** Test vectors for the digest and the serializer *)

Example sha256_empty :
  sha256_hex "" = "e3b0c44298fc1c149afbf4c8996fb92427ae41e4649b934ca495991b7852b855".
Proof. vm_compute. reflexivity. Qed.

Example sha256_abc :
  sha256_hex "abc" = "ba7816bf8f01cfea414140de5dae2223b00361a396177a9cb410ff61f20015ad".
Proof. vm_compute. reflexivity. Qed.

Example sha256_two_blocks :
  sha256_hex "abcdbcdecdefdefgefghfghighijhijkijkljklmklmnlmnomnopnopq"
  = "248d6a61d20638b8e5c026930c3e6039a33ce45964ff2167f6ecedd419db06c1".
Proof. vm_compute. reflexivity. Qed.

Example stringify_nested :
  JSON_stringify (JObj [("n", JObj [("k", JStr "v")]); ("l", JArr [JNum 1; JNull; JBool true])])
  = String.concat "" ["{"; quote "n"; ":{"; quote "k"; ":"; quote "v"; "},";
                      quote "l"; ":[1,null,true]}"].
Proof. reflexivity. Qed.

(* ================================================================== *)
(** ** Scenarios run on the engine                                     *)
(* ================================================================== *)

(** C6. Nested modification: after [initialize({n:{k:"v"}})], the call
    [detectChanges({n:{k:"w"}})] returns normally and emits exactly one
    event, [modified] at the dot-joined path [n.k] (no leading separator);
    nothing is emitted at path [n]. *)
Theorem nested_modification_emits_one_event :
  let s := after (initialize (JObj [("n", JObj [("k", JStr "v")])])) constructor in
  let call := detectChanges (JObj [("n", JObj [("k", JStr "w")])]) in
  completion call s = Normal (hashTree (after call s))
  /\ emitted_by call s = [Difference modified "n.k"]
  /\ (forall kind, ~ In (Difference kind "n") (emitted_by call s)).
Proof.
  vm_compute. repeat split.
  intros kind [H | []]. discriminate H.
Qed.

(** C1, evaluated.  After [initialize({n:{k:"v"}})] the same snapshot is
    passed to [detectChanges].  The stored root digest is the hash of
    ["n:" + child digest], not the hash of the serialized snapshot, so the
    short-circuit test fails; the engine walks the whole tree again and
    computes five digests (root test, test at [n], leaf [k], and the two
    recomputed digests) where a pruned call computes one. *)
Theorem unchanged_snapshot_is_walked_again :
  let v := JObj [("n", JObj [("k", JStr "v")])] in
  let s := after (initialize v) constructor in
  strict_equal (root_digest s) (sha256_hex (JSON_stringify v)) = false
  /\ root_digest s
     = Some (Text (sha256_hex
          ("n:" ++ sha256_hex ("k:" ++ sha256_hex (JSON_stringify (JStr "v"))))))
  /\ emitted_by (detectChanges v) s = []
  /\ hashes_by (detectChanges v) s = 5.
Proof. vm_compute. repeat split. Qed.

(** C2. A tree updated incrementally can carry another root digest than
    the tree built from the same content: [initialize({b:1})] followed by
    [detectChanges({c:3,b:1,a:2})] leaves the children [b], [c], [a] (the
    prior key first, then the new keys as the snapshot enumerates them) and
    hashes ["b:..c:..a:.."], while [buildHashTree({c:3,b:1,a:2})] has the
    same children in sorted order [a], [b], [c], which is not the order of
    the snapshot, and hashes ["a:..b:..c:.."]. *)
Theorem incremental_digest_differs_from_fresh_build :
  exists (v0 v1 : Json) (updated fresh : Frame),
    updated = after (detectChanges v1) (after (initialize v0) constructor)
    /\ fresh = after (initialize v1) constructor
    /\ for_in v0 = ["b"]
    /\ for_in v1 = ["c"; "b"; "a"]
    /\ Permutation (children (hashTree updated)) (children (hashTree fresh))
    /\ map fst (children (hashTree updated)) = ["b"; "c"; "a"]
    /\ map fst (children (hashTree fresh)) = ["a"; "b"; "c"]
    /\ map fst (children (hashTree fresh)) = sort (for_in v1)
    /\ root_digest updated
       = Some (Text (sha256_hex (combine_entries (children (hashTree updated)))))
    /\ root_digest fresh
       = Some (Text (sha256_hex (combine_entries (children (hashTree fresh)))))
    /\ root_digest updated <> root_digest fresh.
Proof.
  exists (JObj [("b", JNum 1)]),
         (JObj [("c", JNum 3); ("b", JNum 1); ("a", JNum 2)]).
  eexists. eexists. split; [reflexivity|]. split; [reflexivity|].
  vm_compute. repeat split.
  - eapply perm_trans; [apply perm_skip, perm_swap | apply perm_swap].
  - discriminate.
Qed.

(** C3, evaluated.  [initialize({s:{a:1}})], then
    [detectChanges({s:{type:"X"}})]: one [modified] event at [s], and the
    child [s] gets the new digest but keeps its old child [a]; it is not
    the leaf [{ __hash }] that [buildHashTree] makes of the same value.
    Going back to [{s:{a:1}}] then finds [a] still in place and emits
    nothing. *)
Theorem type_tagged_update_keeps_stale_children :
  let tagged := JObj [("type", JStr "X")] in
  let s0 := after (initialize (JObj [("s", JObj [("a", JNum 1)])])) constructor in
  let s1 := after (detectChanges (JObj [("s", tagged)])) s0 in
  emitted_by (detectChanges (JObj [("s", tagged)])) s0 = [Difference modified "s"]
  /\ own_get "s" (hashTree s1)
     = Some (Node [("__hash", Text (sha256_hex (JSON_stringify tagged)));
                   ("a", Node [("__hash", Text (sha256_hex "1"))])])
  /\ completion (buildHashTree tagged) constructor
     = Normal [("__hash", Text (sha256_hex (JSON_stringify tagged)))]
  /\ emitted_by (detectChanges (JObj [("s", JObj [("a", JNum 1)])])) s1 = [].
Proof. vm_compute. repeat split. Qed.

(** C4, evaluated.  On a new engine, [detectChanges({a:[1]})] twice: the
    second call emits nothing, yet it changes the root digest, because the
    array node attached by [buildHashTree] hashes its child digests alone
    and the recomputation at the end of [findDifferencesAndUpdate] hashes
    ["0:" + digest]. *)
Theorem second_update_changes_root_digest :
  let v := JObj [("a", JArr [JNum 1])] in
  let s1 := after (detectChanges v) constructor in
  let s2 := after (detectChanges v) s1 in
  completion (detectChanges v) s1 = Normal (hashTree s2)
  /\ emitted_by (detectChanges v) s1 = []
  /\ own_get "a" (hashTree s1)
     = Some (Node [("0", Node [("__hash", Text (sha256_hex "1"))]);
                   ("__hash", Text (sha256_hex (sha256_hex "1")))])
  /\ own_get "a" (hashTree s2)
     = Some (Node [("0", Node [("__hash", Text (sha256_hex "1"))]);
                   ("__hash", Text (sha256_hex ("0:" ++ sha256_hex "1")))])
  /\ root_digest s2 <> root_digest s1.
Proof. vm_compute. repeat split. discriminate. Qed.

(** C5, refuted as stated.  The digest is one more property of the node
    object.  A snapshot with a key named [__hash] is a plain object for
    [buildHashTree]; the spread of its children into the node literal then
    overwrites the digest with the child built for that key. *)
Lemma hash_key_overwrites_digest :
  let call := initialize (JObj [("__hash", JNum 1)]) in
  completion call constructor
    = Normal [("__hash", Node [("__hash", Text (sha256_hex "1"))])]
  /\ root_digest (after call constructor)
     = Some (Node [("__hash", Text (sha256_hex "1"))])
  /\ intact (Node (hashTree (after call constructor))) = false.
Proof. vm_compute. repeat split. Qed.

(** C7, refuted as stated.  Swapping the two elements of [[{a:1},{b:1}]]
    emits no [modified] event at all: the elements are objects, the engine
    descends into them and reports removed and added keys below the index
    paths. *)
Lemma reordered_objects_emit_no_modified :
  let s := after (initialize (JArr [JObj [("a", JNum 1)]; JObj [("b", JNum 1)]]))
                 constructor in
  let call := detectChanges (JArr [JObj [("b", JNum 1)]; JObj [("a", JNum 1)]]) in
  Permutation [JObj [("a", JNum 1)]; JObj [("b", JNum 1)]]
              [JObj [("b", JNum 1)]; JObj [("a", JNum 1)]]
  /\ emitted_by call s
     = [Difference removed "0.a"; Difference added "0.b";
        Difference removed "1.b"; Difference added "1.a"]
  /\ ~ In (Difference modified "0") (emitted_by call s)
  /\ ~ In (Difference modified "1") (emitted_by call s).
Proof.
  split; [apply perm_swap|].
  vm_compute. repeat split; intros H;
    repeat (destruct H as [H | H]; [discriminate H|]); exact H.
Qed.

(** C8, refuted as stated.  The keys ["10"] and ["9"] sort as ["10"], ["9"],
    but both are array indices, which an object enumerates in ascending
    numeric order wherever they were created: the children are combined as
    ["9:.."] then ["10:.."], and the digest is not the hash of the
    concatenation in sorted order. *)
Lemma index_keys_are_combined_in_numeric_order :
  let data := JObj [("9", JNum 1); ("10", JNum 2)] in
  let tree := hashTree (after (initialize data) constructor) in
  has_type data = false
  /\ sort (for_in data) = ["10"; "9"]
  /\ map fst (children tree) = ["9"; "10"]
  /\ own_get "__hash" tree
     = Some (Text (sha256_hex ("9:" ++ sha256_hex "1" ++ "10:" ++ sha256_hex "2")))
  /\ own_get "__hash" tree
     <> Some (Text (sha256_hex ("10:" ++ sha256_hex "2" ++ "9:" ++ sha256_hex "1"))).
Proof. vm_compute. repeat split. discriminate. Qed.

(** C10, refuted as stated.  On a new engine the snapshot [{"__hash": 1}]
    has one top-level key and no event is emitted for it: the placeholder
    root already has a property of that name, so [key in hashTree] holds. *)
Lemma hash_key_is_never_reported_added :
  let call := detectChanges (JObj [("__hash", JNum 1)]) in
  for_in (JObj [("__hash", JNum 1)]) = ["__hash"]
  /\ completion call constructor = Normal (hashTree (after call constructor))
  /\ emitted_by call constructor = []
  /\ children (hashTree (after call constructor)) = [].
Proof. vm_compute. repeat split. Qed.

(** ** Frames and the monad *)

Lemma hashed_0 (s : Frame) : hashed 0 s = s.
Proof. destruct s; unfold hashed; simpl; now rewrite Nat.add_0_r. Qed.

Lemma hashed_hashed (n m : nat) (s : Frame) :
  hashed n (hashed m s) = hashed (m + n) s.
Proof. unfold hashed; simpl; now rewrite Nat.add_assoc. Qed.

Lemma returns_ret {A} (a : A) : returns (ret a) a 0.
Proof. intros s. unfold ret. now rewrite hashed_0. Qed.

Lemma returns_bind {A B} (m : M A) (k : A -> M B) a n b p :
  returns m a n -> returns (k a) b p -> returns (bind m k) b (n + p).
Proof.
  intros Hm Hk s. unfold bind. rewrite Hm, Hk. now rewrite hashed_hashed.
Qed.

Lemma returns_calculateHash (text : string) :
  returns (calculateHash (Some text)) (sha256_hex text) 1.
Proof. intros s. reflexivity. Qed.

Lemma returns_leaf (v : Json) :
  returns (leaf (Value v)) [("__hash", Text (sha256_hex (JSON_stringify v)))] 1.
Proof.
  unfold leaf. change 1 with (1 + 0).
  eapply returns_bind; [apply returns_calculateHash | apply returns_ret].
Qed.

Lemma returns_map_each {A B} (f : A -> M B) (items : list A) :
  (forall x, In x items -> exists b n, returns (f x) b n) ->
  exists bs n, returns (map_each items f) bs n.
Proof.
  induction items as [|x rest IH]; intros H; simpl.
  - exists [], 0. apply returns_ret.
  - destruct (H x (or_introl eq_refl)) as (b & n & Hb).
    destruct IH as (bs & p & Hbs); [intros; apply H; now right|].
    exists (b :: bs), (n + (p + 0)).
    eapply returns_bind; [exact Hb|].
    eapply returns_bind; [exact Hbs| apply returns_ret].
Qed.

Lemma returns_reduce {A B} (f : B -> A -> M B) (items : list A) :
  (forall acc x, In x items -> exists acc' n, returns (f acc x) acc' n) ->
  forall acc, exists acc' n, returns (reduce items f acc) acc' n.
Proof.
  induction items as [|x rest IH]; intros H acc; simpl.
  - exists acc, 0. apply returns_ret.
  - destruct (H acc x (or_introl eq_refl)) as (acc1 & n & H1).
    destruct (IH (fun a y Hy => H a y (or_intror Hy)) acc1) as (acc2 & p & H2).
    exists acc2, (n + p). eapply returns_bind; eassumption.
Qed.

(** ** Depth of the parts of a snapshot *)

Lemma depth_item (v : Json) (items : list Json) :
  In v items -> depth v < depth (JArr items).
Proof.
  induction items as [|x rest IH]; [intros []|].
  intros [->|H]; simpl in *.
  - lia.
  - specialize (IH H). lia.
Qed.

Lemma depth_prop (key : string) (v : Json) (props : list (string * Json)) :
  own_get key props = Some v -> depth v < depth (JObj props).
Proof.
  simpl. induction props as [|[k w] rest IH]; simpl; [discriminate|].
  destruct (k =? key).
  - intros [= ->]. lia.
  - intros H. specialize (IH H). lia.
Qed.

Lemma own_get_In {V} (key : string) (o : list (string * V)) :
  In key (map fst o) -> exists v, own_get key o = Some v.
Proof.
  induction o as [|[k w] rest IH]; simpl; [intros []|].
  intros [->|H].
  - rewrite String.eqb_refl. eauto.
  - destruct (k =? key); eauto.
Qed.

Lemma insert_sorted_perm (key : string) (l : list string) :
  Permutation (insert_sorted key l) (key :: l).
Proof.
  induction l as [|k rest IH]; simpl; [constructor; constructor|].
  destruct (String.leb key k); [apply Permutation_refl|].
  rewrite IH. apply perm_swap.
Qed.

Lemma sort_perm (l : list string) : Permutation (sort l) l.
Proof.
  induction l as [|k rest IH]; simpl; [constructor|].
  unfold sort in *. simpl. rewrite insert_sorted_perm. now constructor.
Qed.

(** ** The builder is total and pure *)

Lemma buildHashTree_at_returns (fuel : nat) :
  forall data, depth data < fuel ->
  exists tree n, returns (buildHashTree_at fuel data) tree n.
Proof.
  induction fuel as [|fuel IH]; intros data Hd; [lia|].
  destruct data as [| b | z | str | items | props];
    try (simpl; eexists; eexists; apply returns_leaf).
  - (* array *)
    simpl buildHashTree_at.
    destruct (returns_map_each (buildHashTree_at fuel) items) as (bs & n & Hbs).
    { intros x Hx. apply IH. pose proof (depth_item x items Hx). lia. }
    eexists; eexists.
    eapply returns_bind; [exact Hbs|].
    eapply returns_bind; [apply returns_calculateHash | apply returns_ret].
  - (* object *)
    simpl buildHashTree_at.
    destruct (has_type (JObj props)).
    { eexists; eexists; apply returns_leaf. }
    match goal with |- context [reduce ?l ?f ?a] =>
      destruct (returns_reduce f l) with (acc := a) as (acc' & n & Hr) end.
    { intros acc key Hk.
      apply (Permutation_in _ (sort_perm _)) in Hk.
      destruct (own_get_In key props Hk) as (v & Hv). rewrite Hv.
      destruct (IH v) as (t & p & Ht).
      { pose proof (depth_prop key v props Hv). lia. }
      eexists; eexists.
      eapply returns_bind; [exact Ht | apply returns_ret]. }
    eexists; eexists.
    eapply returns_bind; [exact Hr|].
    eapply returns_bind; [apply returns_calculateHash | apply returns_ret].
Qed.

Lemma bind_ext {A B} (m m' : M A) (k k' : A -> M B) (s : Frame) :
  m s = m' s -> (forall a s', k a s' = k' a s') -> bind m k s = bind m' k' s.
Proof.
  intros Hm Hk. unfold bind. rewrite Hm.
  destruct (m' s) as [[a| | |] s']; auto.
Qed.

Lemma map_each_ext {A B} (f g : A -> M B) (items : list A) :
  (forall x, In x items -> forall s, f x s = g x s) ->
  forall s, map_each items f s = map_each items g s.
Proof.
  induction items as [|x rest IH]; intros H s; simpl; [reflexivity|].
  apply bind_ext; [apply H; now left|].
  intros b s'. apply bind_ext; [|reflexivity].
  apply IH. intros; apply H; now right.
Qed.

Lemma reduce_ext {A B} (f g : B -> A -> M B) (items : list A) :
  (forall acc x, In x items -> forall s, f acc x s = g acc x s) ->
  forall acc s, reduce items f acc s = reduce items g acc s.
Proof.
  induction items as [|x rest IH]; intros H acc s; simpl; [reflexivity|].
  apply bind_ext; [apply H; now left|].
  intros acc' s'. apply IH. intros; apply H; now right.
Qed.

Lemma buildHashTree_at_fuel (fuel1 : nat) :
  forall fuel2 data, depth data < fuel1 -> depth data < fuel2 ->
  forall s, buildHashTree_at fuel1 data s = buildHashTree_at fuel2 data s.
Proof.
  induction fuel1 as [|fuel1 IH]; intros [|fuel2] data H1 H2 s; try lia.
  destruct data as [| b | z | str | items | props]; try reflexivity.
  - simpl buildHashTree_at. apply bind_ext; [|reflexivity].
    apply map_each_ext. intros x Hx s'.
    pose proof (depth_item x items Hx). apply IH; lia.
  - simpl buildHashTree_at. destruct (has_type (JObj props)); [reflexivity|].
    apply bind_ext; [|reflexivity].
    apply reduce_ext. intros acc key Hk s'.
    destruct (own_get key props) as [v|] eqn:Hv; [|reflexivity].
    pose proof (depth_prop key v props Hv).
    apply bind_ext; [apply IH; lia | reflexivity].
Qed.

Lemma buildHashTree_returns (data : Json) :
  returns (buildHashTree data) (built data) (build_cost data).
Proof.
  destruct (buildHashTree_at_returns (S (depth data)) data) as (tree & n & H);
    [lia|].
  unfold built, build_cost, completion, after. fold (buildHashTree data) in H.
  rewrite (H constructor). simpl. exact H.
Qed.

Lemma buildHashTree_at_built (fuel : nat) (data : Json) :
  depth data < fuel ->
  returns (buildHashTree_at fuel data) (built data) (build_cost data).
Proof.
  intros Hd s.
  rewrite (buildHashTree_at_fuel fuel (S (depth data)) data Hd (Nat.lt_succ_diag_r _)).
  apply buildHashTree_returns.
Qed.

Lemma returns_unique {A} (m : M A) a n a' n' :
  returns m a n -> returns m a' n' -> a = a' /\ n = n'.
Proof.
  intros H H'. specialize (H constructor). rewrite (H' constructor) in H.
  inversion H. split; [reflexivity | lia].
Qed.

Lemma returns_map_each_map {A B} (f : A -> M B) (g : A -> B) (c : A -> nat)
      (items : list A) :
  (forall x, In x items -> returns (f x) (g x) (c x)) ->
  returns (map_each items f) (map g items) (list_sum (map c items)).
Proof.
  induction items as [|x rest IH]; intros H; simpl.
  - apply returns_ret.
  - eapply returns_bind; [apply H; now left|].
    rewrite <- (Nat.add_0_r (list_sum _)).
    eapply returns_bind; [apply IH; intros; apply H; now right | apply returns_ret].
Qed.

Lemma returns_reduce_fold {A B} (f : B -> A -> M B) (g : B -> A -> B) (c : A -> nat)
      (items : list A) :
  (forall acc x, In x items -> returns (f acc x) (g acc x) (c x)) ->
  forall acc,
    returns (reduce items f acc) (fold_left g items acc) (list_sum (map c items)).
Proof.
  induction items as [|x rest IH]; intros H acc; simpl.
  - apply returns_ret.
  - eapply returns_bind; [apply H; now left|].
    apply IH. intros; apply H; now right.
Qed.

(** ** Equations for [built] *)

Lemma built_atomic (v : Json) :
  atomic v = true ->
  built v = [("__hash", Text (sha256_hex (JSON_stringify v)))].
Proof.
  intros Ha.
  assert (H : returns (buildHashTree v)
                [("__hash", Text (sha256_hex (JSON_stringify v)))] 1).
  { unfold buildHashTree. destruct v as [| b | z | str | items | props];
      try apply returns_leaf.
    - discriminate Ha.
    - unfold atomic in Ha. simpl in Ha.
      remember (depth (JObj props)) as d. simpl buildHashTree_at.
      rewrite Ha. apply returns_leaf. }
  exact (proj1 (returns_unique _ _ _ _ _ (buildHashTree_returns v) H)).
Qed.

Lemma built_array (items : list Json) :
  built (JArr items) =
  spread
    (from_entries
       (combine (indices (List.length items))
                (map (fun v => Node (built v)) items)))
    [("__hash",
      Text (sha256_hex
              (String.concat ""
                 (map (fun v => in_join (own_get "__hash" (built v))) items))))].
Proof.
  eapply proj1, returns_unique; [apply buildHashTree_returns|].
  unfold buildHashTree. remember (depth (JArr items)) as d eqn:Hd.
  simpl buildHashTree_at.
  eapply returns_bind.
  { apply returns_map_each_map with (g := built) (c := build_cost).
    intros x Hx. apply buildHashTree_at_built.
    pose proof (depth_item x items Hx). lia. }
  eapply returns_bind; [apply returns_calculateHash|].
  rewrite !map_map, length_map. apply returns_ret.
Qed.

Lemma built_object (props : list (string * Json)) :
  has_type (JObj props) = false ->
  built (JObj props) =
  let childHashes :=
    fold_left (fun tree key => assign key (child_of props key) tree)
              (sort (map fst props)) [] in
  spread childHashes
         [("__hash", Text (sha256_hex (combine_entries childHashes)))].
Proof.
  intros Ht.
  eapply proj1, returns_unique; [apply buildHashTree_returns|].
  unfold buildHashTree. remember (depth (JObj props)) as d eqn:Hd.
  simpl buildHashTree_at. rewrite Ht.
  eapply returns_bind.
  { apply returns_reduce_fold
      with (g := fun tree key => assign key (child_of props key) tree)
           (c := fun key => match own_get key props with
                            | Some v => build_cost v + 0 | None => 0 end).
    intros acc key Hk.
    apply (Permutation_in _ (sort_perm _)) in Hk.
    destruct (own_get_In key props Hk) as (v & Hv).
    unfold child_of. rewrite Hv.
    eapply returns_bind; [|apply returns_ret].
    apply buildHashTree_at_built.
    pose proof (depth_prop key v props Hv). lia. }
  eapply returns_bind; [apply returns_calculateHash | apply returns_ret].
Qed.

(** ** Own properties under [define], [assign] and [delete] *)

Section OwnProperties.
Context {V : Type}.
Implicit Types (o : list (string * V)) (key : string) (v : V).

Lemma own_has_get key o : own_has key o = false <-> own_get key o = None.
Proof. unfold own_has. destruct (own_get key o); split; congruence. Qed.

Lemma own_get_app key o o' :
  own_get key (o ++ o') =
  match own_get key o with Some v => Some v | None => own_get key o' end.
Proof.
  induction o as [|[k w] rest IH]; simpl; [reflexivity|].
  destruct (k =? key); auto.
Qed.

Lemma own_get_replace_same key v o :
  own_get key (replace_value key v o) =
  match own_get key o with Some _ => Some v | None => None end.
Proof.
  induction o as [|[k w] rest IH]; simpl; [reflexivity|].
  destruct (k =? key) eqn:E; simpl; rewrite E; auto.
Qed.

Lemma own_get_replace_other key key' v o :
  key' <> key -> own_get key' (replace_value key v o) = own_get key' o.
Proof.
  intros Hne. induction o as [|[k w] rest IH]; simpl; [reflexivity|].
  destruct (k =? key) eqn:E; simpl.
  - apply String.eqb_eq in E. subst k.
    destruct (key =? key') eqn:E'; [apply String.eqb_eq in E'; congruence|reflexivity].
  - destruct (k =? key'); auto.
Qed.

Lemma own_get_insert_same i key v o :
  own_get key o = None -> own_get key (insert_index i key v o) = Some v.
Proof.
  induction o as [|[k w] rest IH]; simpl; intros H.
  - now rewrite String.eqb_refl.
  - destruct (k =? key) eqn:E; [discriminate|].
    destruct (array_index k) as [j|]; [destruct (j <? i)%Z|]; simpl;
      rewrite ?E, ?String.eqb_refl; auto.
Qed.

Lemma own_get_insert_other i key key' v o :
  key' <> key -> own_get key' (insert_index i key v o) = own_get key' o.
Proof.
  intros Hne.
  assert (Hk : (key =? key') = false).
  { apply String.eqb_neq. congruence. }
  induction o as [|[k w] rest IH]; simpl.
  - now rewrite Hk.
  - destruct (array_index k) as [j|]; [destruct (j <? i)%Z|]; simpl;
      rewrite ?Hk; try reflexivity.
    destruct (k =? key'); auto.
Qed.

Lemma own_get_define_same key v o : own_get key (define key v o) = Some v.
Proof.
  unfold define, own_has. destruct (own_get key o) as [w|] eqn:E.
  - rewrite own_get_replace_same, E. reflexivity.
  - destruct (array_index key).
    + now apply own_get_insert_same.
    + rewrite own_get_app, E. simpl. now rewrite String.eqb_refl.
Qed.

Lemma own_get_define_other key key' v o :
  key' <> key -> own_get key' (define key v o) = own_get key' o.
Proof.
  intros Hne. unfold define. destruct (own_has key o).
  - now apply own_get_replace_other.
  - destruct (array_index key).
    + now apply own_get_insert_other.
    + rewrite own_get_app. destruct (own_get key' o); [reflexivity|].
      simpl. destruct (key =? key') eqn:E; [|reflexivity].
      apply String.eqb_eq in E. congruence.
Qed.

Lemma own_get_assign_other key key' v o :
  key' <> key -> own_get key' (assign key v o) = own_get key' o.
Proof.
  intros Hne. unfold assign.
  destruct ((key =? "__proto__") && negb (own_has key o)); [reflexivity|].
  now apply own_get_define_other.
Qed.

Lemma own_get_delete_other key key' o :
  key' <> key -> own_get key' (delete key o) = own_get key' o.
Proof.
  intros Hne. induction o as [|[k w] rest IH]; simpl; [reflexivity|].
  destruct (k =? key) eqn:E; simpl.
  - apply String.eqb_eq in E. subst k.
    destruct (key =? key') eqn:E'; [apply String.eqb_eq in E'; congruence|exact IH].
  - now rewrite IH.
Qed.

(** What holds of every property still holds after the object changes. *)
Variable P : string * V -> Prop.

Lemma Forall_replace key v o :
  Forall P o -> P (key, v) -> Forall P (replace_value key v o).
Proof.
  intros Ho Hv. induction Ho as [|[k w] rest Hk Hrest IH]; simpl; [constructor|].
  destruct (k =? key) eqn:E.
  - apply String.eqb_eq in E. subst k. now constructor.
  - now constructor.
Qed.

Lemma Forall_insert i key v o :
  Forall P o -> P (key, v) -> Forall P (insert_index i key v o).
Proof.
  intros Ho Hv. induction Ho as [|[k w] rest Hk Hrest IH]; simpl.
  - now repeat constructor.
  - destruct (array_index k) as [j|]; [destruct (j <? i)%Z|];
      repeat (constructor; auto).
Qed.

Lemma Forall_define key v o :
  Forall P o -> P (key, v) -> Forall P (define key v o).
Proof.
  intros Ho Hv. unfold define. destruct (own_has key o).
  - now apply Forall_replace.
  - destruct (array_index key).
    + now apply Forall_insert.
    + apply Forall_app. split; [assumption | now repeat constructor].
Qed.

Lemma Forall_assign key v o :
  Forall P o -> P (key, v) -> Forall P (assign key v o).
Proof.
  intros Ho Hv. unfold assign.
  destruct ((key =? "__proto__") && negb (own_has key o)); [assumption|].
  now apply Forall_define.
Qed.

Lemma Forall_delete key o : Forall P o -> Forall P (delete key o).
Proof.
  intros Ho. unfold delete. apply Forall_forall. intros x Hx.
  apply filter_In in Hx. destruct Hx as [Hx _].
  revert x Hx. now apply Forall_forall.
Qed.

Lemma Forall_spread source o :
  Forall P source -> Forall P o -> Forall P (spread source o).
Proof.
  unfold spread. intros Hs. revert o.
  induction Hs as [|[k v] rest Hk Hrest IH]; simpl; intros o Ho; [assumption|].
  apply IH. now apply Forall_define.
Qed.

Lemma own_get_Forall key v o : Forall P o -> own_get key o = Some v -> P (key, v).
Proof.
  intros Ho. induction Ho as [|[k w] rest Hk Hrest IH]; simpl; [discriminate|].
  destruct (k =? key) eqn:E.
  - apply String.eqb_eq in E. subst k. now intros [= ->].
  - exact IH.
Qed.

End OwnProperties.

Lemma Json_depth_ind (P : Json -> Prop) :
  (forall data, (forall v, depth v < depth data -> P v) -> P data) ->
  forall data, P data.
Proof.
  intros step data. remember (depth data) as d eqn:Hd. revert data Hd.
  induction d as [d IH] using lt_wf_ind. intros data ->.
  apply step. intros v Hv. now apply (IH (depth v)).
Qed.

Lemma own_get_Some_In {V} (key : string) (v : V) (o : list (string * V)) :
  own_get key o = Some v -> In (key, v) o.
Proof.
  induction o as [|[k w] rest IH]; simpl; [discriminate|].
  destruct (k =? key) eqn:E.
  - apply String.eqb_eq in E. subst k. intros [= ->]. now left.
  - intros H. right. now apply IH.
Qed.

Lemma decimal_not_hash (z : Z) : decimal z <> "__hash".
Proof.
  unfold decimal. destruct (Z.to_int z) as [u|u]; simpl; [|discriminate].
  destruct u; simpl; discriminate.
Qed.

Lemma indices_not_hash (n : nat) (key : string) :
  In key (indices n) -> key <> "__hash".
Proof.
  unfold indices. intros H. apply in_map_iff in H.
  destruct H as (i & <- & _). apply decimal_not_hash.
Qed.

(** ** Sound nodes *)

Lemma intact_Node (props : HashTreeNode) :
  intact (Node props) =
  match own_get "__hash" props with Some (Text _) => true | _ => false end
  && forallb (fun '(key, child) => (key =? "__hash") || intact child) props.
Proof. reflexivity. Qed.

Lemma sound_iff (tree : HashTreeNode) :
  sound tree <->
  (exists h, own_get "__hash" tree = Some (Text h))
  /\ Forall (fun kc => fst kc = "__hash" \/ intact (snd kc) = true) tree.
Proof.
  unfold sound. rewrite intact_Node, andb_true_iff, forallb_forall, Forall_forall.
  split; intros [Hd Hk]; split.
  - destruct (own_get "__hash" tree) as [[h|]|]; try discriminate. eauto.
  - intros [k c] Hx. specialize (Hk _ Hx). simpl in *.
    apply orb_true_iff in Hk. destruct Hk as [Hk|Hk]; [left|now right].
    now apply String.eqb_eq.
  - destruct Hd as (h & ->). reflexivity.
  - intros [k c] Hx. specialize (Hk _ Hx). simpl in *.
    apply orb_true_iff. destruct Hk as [->|Hk]; [left|now right].
    apply String.eqb_refl.
Qed.

Lemma sound_leaf (h : string) : sound [("__hash", Text h)].
Proof. reflexivity. Qed.

Lemma sound_child (tree : HashTreeNode) (key : string) (child : HashTreeNode) :
  sound tree -> own_get key tree = Some (Node child) ->
  key <> "__hash" /\ sound child.
Proof.
  intros Hs Hget. apply sound_iff in Hs. destruct Hs as [(h & Hh) Hk].
  assert (Hne : key <> "__hash") by (intros ->; congruence).
  split; [exact Hne|].
  apply (own_get_Forall _ key (Node child) tree Hk) in Hget.
  simpl in Hget. destruct Hget as [?|?]; [contradiction|assumption].
Qed.

Lemma sound_define (tree : HashTreeNode) (key : string) (child : TreeValue) :
  sound tree -> key <> "__hash" -> intact child = true ->
  sound (define key child tree).
Proof.
  intros Hs Hne Hc. apply sound_iff in Hs. destruct Hs as [(h & Hh) Hk].
  apply sound_iff. split.
  - exists h. rewrite own_get_define_other; [assumption|congruence].
  - apply Forall_define; [assumption|now right].
Qed.

Lemma sound_assign (tree : HashTreeNode) (key : string) (child : TreeValue) :
  sound tree -> key <> "__hash" -> intact child = true ->
  sound (assign key child tree).
Proof.
  intros Hs Hne Hc. unfold assign.
  destruct ((key =? "__proto__") && negb (own_has key tree)); [assumption|].
  now apply sound_define.
Qed.

Lemma sound_replace (tree : HashTreeNode) (key : string) (child : TreeValue) :
  sound tree -> key <> "__hash" -> intact child = true ->
  sound (replace_value key child tree).
Proof.
  intros Hs Hne Hc. apply sound_iff in Hs. destruct Hs as [(h & Hh) Hk].
  apply sound_iff. split.
  - exists h. rewrite own_get_replace_other; [assumption|congruence].
  - apply Forall_replace; [assumption|now right].
Qed.

Lemma sound_delete (tree : HashTreeNode) (key : string) :
  sound tree -> key <> "__hash" -> sound (delete key tree).
Proof.
  intros Hs Hne. apply sound_iff in Hs. destruct Hs as [(h & Hh) Hk].
  apply sound_iff. split.
  - exists h. rewrite own_get_delete_other; [assumption|congruence].
  - now apply Forall_delete.
Qed.

(** Storing a digest makes any node with sound children sound. *)
Lemma sound_digest (tree : HashTreeNode) (h : string) :
  Forall (fun kc => fst kc = "__hash" \/ intact (snd kc) = true) tree ->
  sound (assign "__hash" (Text h) tree).
Proof.
  intros Hk. apply sound_iff. split.
  - exists h. unfold assign. simpl. apply own_get_define_same.
  - apply Forall_assign; [assumption|now left].
Qed.

Lemma sound_spread (source tree : HashTreeNode) :
  sound tree ->
  Forall (fun kc => fst kc <> "__hash" /\ intact (snd kc) = true) source ->
  sound (spread source tree).
Proof.
  unfold spread. intros Hs Hsrc. revert tree Hs.
  induction Hsrc as [|[k c] rest [Hk Hc] Hrest IH]; simpl; intros tree Hs;
    [assumption|].
  apply IH. now apply sound_define.
Qed.

Lemma Forall_combine {A B} (P : A * B -> Prop) (l : list A) (l' : list B) :
  (forall a b, In a l -> In b l' -> P (a, b)) -> Forall P (combine l l').
Proof.
  intros H. apply Forall_forall. intros [a b] Hab.
  apply H; [eapply in_combine_l | eapply in_combine_r]; eassumption.
Qed.

Lemma free_of_hash_key_prop (props : list (string * Json)) (key : string) (v : Json) :
  free_of_hash_key (JObj props) = true -> own_get key props = Some v ->
  key <> "__hash" /\ free_of_hash_key v = true.
Proof.
  simpl. rewrite forallb_forall. intros Hf Hget.
  apply own_get_Some_In in Hget. specialize (Hf _ Hget). simpl in Hf.
  apply andb_true_iff in Hf. destruct Hf as [Hk Hv]. split; [|assumption].
  apply negb_true_iff, String.eqb_neq in Hk. exact Hk.
Qed.

Lemma sound_built (data : Json) :
  free_of_hash_key data = true -> sound (built data).
Proof.
  induction data as [data IH] using Json_depth_ind. intros Hf.
  destruct (atomic data) eqn:Ha.
  { rewrite built_atomic by assumption. apply sound_leaf. }
  destruct data as [| b | z | str | items | props]; try discriminate Ha.
  - rewrite built_array. apply sound_spread; [apply sound_leaf|].
    unfold from_entries. apply Forall_spread; [|constructor].
    apply Forall_combine. intros key c Hkey Hc. simpl. split.
    + now apply indices_not_hash in Hkey.
    + apply in_map_iff in Hc. destruct Hc as (v & <- & Hv).
      apply IH; [now apply depth_item|].
      simpl in Hf. rewrite forallb_forall in Hf. now apply Hf.
  - unfold atomic in Ha. simpl in Ha.
    rewrite built_object by assumption. cbv zeta.
    apply sound_spread; [apply sound_leaf|].
    assert (Hkeys : forall key, In key (sort (map fst props)) ->
              fst (key, child_of props key) <> "__hash"
              /\ intact (snd (key, child_of props key)) = true).
    { intros key Hk. apply (Permutation_in _ (sort_perm _)) in Hk.
      destruct (own_get_In key props Hk) as (v & Hv).
      destruct (free_of_hash_key_prop props key v Hf Hv) as [Hne Hfv].
      unfold child_of. rewrite Hv. simpl. split; [assumption|].
      apply IH; [now apply depth_prop with (key := key)|assumption]. }
    revert Hkeys. generalize (sort (map fst props)).
    assert (H0 : Forall (fun kc : string * TreeValue =>
                   fst kc <> "__hash" /\ intact (snd kc) = true) []) by constructor.
    revert H0. generalize (@nil (string * TreeValue)).
    intros acc Hacc keys. revert acc Hacc.
    induction keys as [|key keys IHk]; simpl; intros acc Hacc Hkeys; [assumption|].
    apply IHk; [|intros; apply Hkeys; now right].
    apply Forall_assign; [assumption|]. apply Hkeys. now left.
Qed.

(** ** Invariants of the node a method works on *)

Section Keeps.
Variable I : HashTreeNode -> Prop.

Lemma keeps_ret {A} (a : A) : keeps I (ret a).
Proof. intros s H. exact H. Qed.

Lemma keeps_throw {A} (e : TypeError) : keeps I (@throw A e).
Proof. intros s H. exact H. Qed.

Lemma keeps_unmodelled {A} : keeps I (@unmodelled A).
Proof. intros s H. exact H. Qed.

Lemma keeps_out_of_fuel {A} : keeps I (@out_of_fuel A).
Proof. intros s H. exact H. Qed.

Lemma keeps_emit (kind : Kind) (p : string) : keeps I (emit kind p).
Proof. intros s H. exact H. Qed.

Lemma keeps_calculateHash (value : option string) : keeps I (calculateHash value).
Proof. intros s H. destruct value; exact H. Qed.

Lemma keeps_mutate (f : HashTreeNode -> HashTreeNode) :
  (forall tree, I tree -> I (f tree)) -> keeps I (mutate f).
Proof. intros Hf s H. apply Hf, H. Qed.

(** The continuation may rely on what the first part returns. *)
Lemma keeps_bind_value {A B} (Q : A -> Prop) (m : M A) (k : A -> M B) :
  (forall s a s', m s = (Normal a, s') -> Q a) ->
  keeps I m -> (forall a, Q a -> keeps I (k a)) -> keeps I (bind m k).
Proof.
  intros HQ Hm Hk s H. unfold after, bind.
  specialize (Hm s H). unfold after in Hm. specialize (HQ s).
  destruct (m s) as [[a| | |] s']; simpl in *; try assumption.
  apply (Hk a); [now apply (HQ a s')|assumption].
Qed.

Lemma keeps_bind {A B} (m : M A) (k : A -> M B) :
  keeps I m -> (forall a, keeps I (k a)) -> keeps I (bind m k).
Proof.
  intros Hm Hk. apply keeps_bind_value with (Q := fun _ => True); auto.
Qed.

(** After [read], the continuation may rely on the node it was given. *)
Lemma keeps_read {B} (k : HashTreeNode -> M B) :
  (forall s, I (hashTree s) -> I (hashTree (after (k (hashTree s)) s))) ->
  keeps I (bind read k).
Proof. intros Hk s H. apply Hk, H. Qed.

Lemma keeps_for_each {A} (items : list A) (body : A -> M unit) :
  (forall x, In x items -> keeps I (body x)) -> keeps I (for_each items body).
Proof.
  induction items as [|x rest IH]; intros H; simpl.
  - apply keeps_ret.
  - apply keeps_bind; [apply H; now left|].
    intros _. apply IH. intros; apply H; now right.
Qed.

End Keeps.

Lemma keeps_within {A} (key : string) (m : M A) :
  keeps sound m -> keeps sound (within key m).
Proof.
  intros Hm s Hs. unfold after, within.
  destruct (own_get key (hashTree s)) as [[t|child]|] eqn:E; try exact Hs.
  destruct (sound_child _ _ _ Hs E) as [Hne Hc].
  specialize (Hm (mkFrame child (events s) (hashCalls s)) Hc). unfold after in Hm.
  destruct (m (mkFrame child (events s) (hashCalls s))) as [r s']. simpl in *.
  now apply sound_replace.
Qed.

Lemma free_of_hash_key_get (jsonData : Json) (key : string) (v : Json) :
  free_of_hash_key jsonData = true -> get jsonData key = Value v ->
  free_of_hash_key v = true.
Proof.
  intros Hf Hg. destruct jsonData as [| b | z | str | items | props];
    simpl in Hg; try discriminate.
  - unfold char_at in Hg. destruct (array_index key); [|discriminate].
    destruct (String.get _ str); simpl in Hg; [|discriminate].
    injection Hg as <-. reflexivity.
  - destruct (element key items) as [w|] eqn:E.
    + injection Hg as <-. unfold element in E.
      destruct (array_index key); [|discriminate].
      apply nth_error_In in E. simpl in Hf. rewrite forallb_forall in Hf. auto.
    + destruct (key =? "length"); [injection Hg as <-; reflexivity|].
      unfold inherited in Hg. destruct (key =? "__proto__"); [discriminate|].
      destruct (mem key _); discriminate.
  - destruct (own_get key props) as [w|] eqn:E.
    + injection Hg as <-. now apply (free_of_hash_key_prop props key).
    + unfold inherited in Hg. destruct (key =? "__proto__"); [discriminate|].
      destruct (mem key _); discriminate.
Qed.

Lemma keeps_storeIfChanged (h key currentPath : string) :
  keeps sound (storeIfChanged h key currentPath).
Proof.
  unfold storeIfChanged. apply keeps_read. intros s Hs.
  destruct (own_get key (hashTree s)) as [child|] eqn:E; [|exact Hs].
  destruct (strict_equal (hash_of child) h); [exact Hs|].
  destruct child as [t|props]; [exact Hs|].
  destruct (sound_child _ _ _ Hs E) as [Hne Hc].
  apply sound_replace; [exact Hs|exact Hne|].
  apply sound_digest. apply sound_iff in Hc. apply Hc.
Qed.

Lemma keeps_recomputeHash : keeps sound recomputeHash.
Proof.
  unfold recomputeHash. apply keeps_read. intros s Hs. unfold after, bind. simpl.
  apply sound_digest. apply sound_iff in Hs. apply Hs.
Qed.

Section PassesKeepSound.
Variable self : Json -> string -> M unit.
Hypothesis self_keeps :
  forall data path, free_of_hash_key data = true -> keeps sound (self data path).

Lemma keeps_processPrimitiveValue jsonValue key currentPath :
  keeps sound (processPrimitiveValue jsonValue key currentPath).
Proof.
  apply keeps_bind; [apply keeps_calculateHash|].
  intros h. apply keeps_storeIfChanged.
Qed.

Lemma keeps_processObjectValue jsonValue key currentPath :
  free_of_hash_key jsonValue = true -> key <> "__hash" ->
  keeps sound (processObjectValue self jsonValue key currentPath).
Proof.
  intros Hf Hne. unfold processObjectValue. destruct (has_type jsonValue).
  - apply keeps_bind; [apply keeps_calculateHash|].
    intros h. apply keeps_storeIfChanged.
  - apply keeps_read. intros s Hs.
    assert (Hw : forall a : unit,
               keeps sound (within key (self jsonValue currentPath))).
    { intros _. apply keeps_within. now apply self_keeps. }
    destruct (own_get key (hashTree s)) as [[t|c]|]; revert s Hs;
      (apply keeps_bind; [|exact Hw]);
      try apply keeps_ret;
      apply keeps_mutate; intros tree Ht; now apply sound_assign.
Qed.

Lemma keeps_processKeyValue jsonData key currentPath :
  free_of_hash_key jsonData = true -> key <> "__hash" ->
  keeps sound (processKeyValue self jsonData key currentPath).
Proof.
  intros Hf Hne. unfold processKeyValue.
  destruct (get jsonData key) as [v| | |] eqn:E;
    try apply keeps_processPrimitiveValue; [|apply keeps_unmodelled].
  destruct (is_object v); [|apply keeps_processPrimitiveValue].
  apply keeps_processObjectValue; [|assumption].
  now apply (free_of_hash_key_get jsonData key).
Qed.

Lemma keeps_processExistingKeys jsonData path :
  free_of_hash_key jsonData = true ->
  keeps sound (processExistingKeys self jsonData path).
Proof.
  intros Hf. unfold processExistingKeys. apply keeps_read. intros s Hs.
  generalize (map fst (hashTree s)). intros keys. revert s Hs.
  apply keeps_for_each. intros key _. unfold processExistingKey.
  destruct (key =? "__hash") eqn:E; [apply keeps_ret|].
  apply String.eqb_neq in E.
  destruct (has jsonData key) as [[|]|].
  - now apply keeps_processKeyValue.
  - apply keeps_bind; [apply keeps_emit|]. intros _.
    apply keeps_mutate. intros tree Ht. now apply sound_delete.
  - apply keeps_throw.
Qed.

Lemma keeps_processAddedKeys jsonData path :
  free_of_hash_key jsonData = true ->
  keeps sound (processAddedKeys jsonData path).
Proof.
  intros Hf. unfold processAddedKeys. apply keeps_for_each. intros key _.
  unfold processAddedKey. apply keeps_read. intros s Hs.
  destruct (in_tree key (hashTree s)) eqn:E; [exact Hs|].
  assert (Hne : key <> "__hash").
  { intros ->. apply sound_iff in Hs. destruct Hs as [(h & Hh) _].
    unfold in_tree, own_has in E. now rewrite Hh in E. }
  revert s Hs E. intros s Hs _. revert s Hs.
  apply keeps_bind; [apply keeps_emit|]. intros _.
  apply keeps_bind_value with (Q := sound).
  - intros s a s' H.
    destruct (get jsonData key) as [v| | |] eqn:Eg.
    + assert (Hb : a = built v).
      { destruct (is_object v) eqn:Eo.
        - rewrite (buildHashTree_returns v s) in H. now inversion H.
        - rewrite (returns_leaf v s) in H. inversion H. symmetry.
          apply built_atomic. unfold atomic. now rewrite Eo. }
      subst a. apply sound_built. now apply (free_of_hash_key_get jsonData key).
    + discriminate H.
    + discriminate H.
    + discriminate H.
  - destruct (get jsonData key) as [v| | |];
      [destruct (is_object v)| | |]; intros s Hs;
      try exact Hs.
    unfold after. now rewrite (buildHashTree_returns v s).
  - intros child Hc. apply keeps_mutate. intros tree Ht.
    now apply sound_assign.
Qed.

Lemma keeps_body jsonData path :
  free_of_hash_key jsonData = true ->
  keeps sound (findDifferencesAndUpdate_body self jsonData path).
Proof.
  intros Hf. unfold findDifferencesAndUpdate_body.
  apply keeps_bind; [apply keeps_calculateHash|]. intros newHash.
  apply keeps_read. intros s Hs.
  destruct (strict_equal _ newHash); [exact Hs|].
  revert s Hs.
  apply keeps_bind; [now apply keeps_processExistingKeys|]. intros _.
  apply keeps_bind; [now apply keeps_processAddedKeys|]. intros _.
  apply keeps_recomputeHash.
Qed.

End PassesKeepSound.

Lemma keeps_findDifferencesAndUpdate_at (fuel : nat) :
  forall data path, free_of_hash_key data = true ->
  keeps sound (findDifferencesAndUpdate_at fuel data path).
Proof.
  induction fuel as [|fuel IH]; intros data path Hf; simpl.
  - apply keeps_out_of_fuel.
  - now apply keeps_body.
Qed.

Lemma keeps_plain_read (I : HashTreeNode -> Prop) : keeps I read.
Proof. intros s H. exact H. Qed.

Lemma initialize_returns (data : Json) (s : Frame) :
  initialize data s
  = (Normal (built data),
     mkFrame (built data) (events s) (hashCalls s + build_cost data)).
Proof.
  unfold initialize, bind. rewrite (buildHashTree_returns data s). reflexivity.
Qed.

(** C5, amended.  The digest is the property [__hash] of the node object,
    in the same key space as the children.  For snapshots in which no
    object has a property named [__hash], every node that [buildHashTree]
    and [initialize] produce, and every node [detectChanges] leaves behind
    in a tree that was sound before, holds a digest string in [__hash] and
    a node of the same kind in every other property. *)
Theorem digest_is_kept_without_hash_keys (data : Json) (s : Frame) :
  free_of_hash_key data = true ->
  sound (hashTree s) ->
  completion (buildHashTree data) s = Normal (built data)
  /\ sound (built data)
  /\ hashTree (after (initialize data) s) = built data
  /\ sound (hashTree (after (detectChanges data) s)).
Proof.
  intros Hf Hs. repeat split.
  - unfold completion. now rewrite (buildHashTree_returns data s).
  - now apply sound_built.
  - unfold after. now rewrite initialize_returns.
  - revert s Hs. unfold detectChanges, findDifferencesAndUpdate.
    apply keeps_bind; [now apply keeps_findDifferencesAndUpdate_at|].
    intros _. apply keeps_plain_read.
Qed.

Lemma digest_is_kept_without_hash_keys_witness :
  let data := JObj [("a", JArr [JNum 1; JObj [("type", JStr "t")]]); ("b", JNull)] in
  let s := after (initialize (JObj [("a", JNum 1); ("c", JBool true)])) constructor in
  free_of_hash_key data = true
  /\ sound (hashTree s)
  /\ completion (buildHashTree data) s = Normal (built data)
  /\ sound (built data)
  /\ hashTree (after (initialize data) s) = built data
  /\ sound (hashTree (after (detectChanges data) s)).
Proof.
  intros data s.
  assert (Hf : free_of_hash_key data = true) by reflexivity.
  assert (Hs : sound (hashTree s)) by (vm_compute; reflexivity).
  split; [exact Hf|]. split; [exact Hs|].
  exact (digest_is_kept_without_hash_keys data s Hf Hs).
Defined.

(** ** A snapshot that is no object *)

Lemma children_nonempty (tree : HashTreeNode) :
  children tree <> [] ->
  exists key, In key (map fst tree) /\ key <> "__hash".
Proof.
  induction tree as [|[k c] rest IH]; simpl; [congruence|].
  destruct (k =? "__hash") eqn:E; simpl.
  - intros H. destruct (IH H) as (key & Hin & Hne). eauto.
  - intros _. exists k. split; [now left|]. now apply String.eqb_neq.
Qed.

Lemma has_primitive (jsonData : Json) (key : string) :
  is_object jsonData = false -> has jsonData key = None.
Proof. destruct jsonData; simpl; congruence. Qed.

Lemma processExistingKeys_loop_throws
      (self : Json -> string -> M unit) (jsonData : Json) (path : string)
      (keys : list string) (s : Frame) :
  is_object jsonData = false ->
  (exists key, In key keys /\ key <> "__hash") ->
  for_each keys (processExistingKey self jsonData path) s
  = (Throw InOnPrimitive, s).
Proof.
  intros Hp. induction keys as [|k rest IH]; intros (key & Hin & Hne).
  - destruct Hin.
  - simpl. unfold processExistingKey at 1. destruct (k =? "__hash") eqn:E.
    + unfold bind, ret. apply IH. exists key. split; [|assumption].
      destruct Hin as [->|Hin]; [|assumption].
      apply String.eqb_eq in E. contradiction.
    + cbv zeta. rewrite (has_primitive jsonData k Hp). reflexivity.
Qed.

Lemma primitive_snapshot_frame (s : Frame) (jsonData : Json) :
  children (hashTree s) <> [] ->
  is_object jsonData = false ->
  strict_equal (root_digest s) (sha256_hex (JSON_stringify jsonData)) = false ->
  detectChanges jsonData s = (Throw InOnPrimitive, hashed 1 s).
Proof.
  intros Hc Hp Hd.
  unfold detectChanges, findDifferencesAndUpdate.
  assert (Hdepth : depth jsonData = 0) by (destruct jsonData; simpl in *; congruence).
  rewrite Hdepth. simpl findDifferencesAndUpdate_at.
  unfold findDifferencesAndUpdate_body.
  unfold bind at 1. unfold bind at 1. simpl calculateHash. cbv beta iota.
  unfold bind at 1. unfold read at 1. cbv beta iota.
  change (hashTree (hashed 1 s)) with (hashTree s).
  unfold root_digest in Hd. rewrite Hd.
  unfold bind at 1. unfold processExistingKeys. unfold bind at 1.
  unfold read at 1. cbv beta iota.
  change (hashTree (hashed 1 s)) with (hashTree s).
  rewrite (processExistingKeys_loop_throws _ jsonData "" _ (hashed 1 s) Hp
             (children_nonempty _ Hc)).
  reflexivity.
Qed.

(** C9, amended.  The stored tree has a child key, the snapshot is no
    object (a boolean, a number, a string; [null] behaves the same) and its
    hash is not the root digest: [detectChanges] does not return a tree, it
    ends with the [TypeError] of [key in jsonData], raised at the first
    child key.  The error comes before any write and before any event: the
    stored tree and the event log are as they were before the call; one
    digest has been computed. *)
Theorem primitive_snapshot_throws_before_any_change (s : Frame) (jsonData : Json) :
  children (hashTree s) <> [] ->
  is_object jsonData = false ->
  strict_equal (root_digest s) (sha256_hex (JSON_stringify jsonData)) = false ->
  completion (detectChanges jsonData) s = Throw InOnPrimitive
  /\ hashTree (after (detectChanges jsonData) s) = hashTree s
  /\ emitted_by (detectChanges jsonData) s = []
  /\ hashes_by (detectChanges jsonData) s = 1.
Proof.
  intros Hc Hp Hd. unfold completion, emitted_by, hashes_by, after.
  rewrite (primitive_snapshot_frame s jsonData Hc Hp Hd).
  cbn [fst snd hashed hashTree events hashCalls].
  split; [reflexivity|]. split; [reflexivity|].
  split; [apply skipn_all|lia].
Qed.

Lemma primitive_snapshot_throws_before_any_change_witness :
  let s := after (initialize (JObj [("a", JNum 1)])) constructor in
  children (hashTree s) <> []
  /\ is_object (JNum 5) = false
  /\ strict_equal (root_digest s) (sha256_hex (JSON_stringify (JNum 5))) = false
  /\ completion (detectChanges (JNum 5)) s = Throw InOnPrimitive
  /\ hashTree (after (detectChanges (JNum 5)) s) = hashTree s
  /\ emitted_by (detectChanges (JNum 5)) s = []
  /\ hashes_by (detectChanges (JNum 5)) s = 1.
Proof.
  intros s.
  assert (Hc : children (hashTree s) <> []) by (vm_compute; discriminate).
  assert (Hp : is_object (JNum 5) = false) by reflexivity.
  assert (Hd : strict_equal (root_digest s) (sha256_hex (JSON_stringify (JNum 5)))
               = false) by (vm_compute; reflexivity).
  split; [exact Hc|]. split; [exact Hp|]. split; [exact Hd|].
  exact (primitive_snapshot_throws_before_any_change s (JNum 5) Hc Hp Hd).
Defined.

(** C9, the claim as given.  It leaves open that the failed call has
    written to the stored tree.  At [initialize({a:1, b:{c:"x"}})] followed
    by [detectChanges("x")] the call throws and the stored tree is, property
    by property, the tree [initialize] stored; it is a tree with children,
    so there was something to write to. *)
Example primitive_snapshot_leaves_the_tree_as_it_was :
  let s := after (initialize (JObj [("a", JNum 1);
                                     ("b", JObj [("c", JStr "x")])])) constructor in
  let call := detectChanges (JStr "x") in
  completion call s = Throw InOnPrimitive
  /\ map fst (children (hashTree s)) = ["a"; "b"]
  /\ hashTree (after call s) = hashTree s
  /\ hashTree (after call s)
     = built (JObj [("a", JNum 1); ("b", JObj [("c", JStr "x")])])
  /\ events (after call s) = events s.
Proof. vm_compute. repeat split. Qed.

(** ** Running a method from a given state *)

Lemma bind_normal {A B} (m : M A) (k : A -> M B) (s s' : Frame) (a : A) :
  m s = (Normal a, s') -> bind m k s = k a s'.
Proof. intros H. unfold bind. now rewrite H. Qed.

Lemma recomputeHash_run (s : Frame) :
  recomputeHash s
  = (Normal tt,
     mkFrame (assign "__hash"
                (Text (sha256_hex (combine_entries (children (hashTree s)))))
                (hashTree s))
             (events s) (hashCalls s + 1)).
Proof. reflexivity. Qed.

Lemma body_run (self : Json -> string -> M unit) (jsonData : Json)
      (path : string) (s : Frame) :
  findDifferencesAndUpdate_body self jsonData path s
  = if strict_equal (root_digest s) (sha256_hex (JSON_stringify jsonData))
    then (Normal tt, hashed 1 s)
    else (processExistingKeys self jsonData path ;;
          processAddedKeys jsonData path ;;
          recomputeHash) (hashed 1 s).
Proof.
  unfold findDifferencesAndUpdate_body, root_digest.
  unfold bind at 1. unfold calculateHash at 1. cbv beta iota.
  unfold bind at 1. unfold read at 1. cbv beta iota.
  change (hashTree (hashed 1 s)) with (hashTree s).
  now destruct (strict_equal _ _).
Qed.

Lemma placeholder_has_no_existing_key (self : Json -> string -> M unit)
      (jsonData : Json) (path : string) (s : Frame) :
  hashTree s = placeholder ->
  processExistingKeys self jsonData path s = (Normal tt, s).
Proof.
  intros H. unfold processExistingKeys, bind, read. rewrite H. reflexivity.
Qed.

(** ** A new engine *)

Lemma hex_of_words_nonempty (w : Z) (ws : list Z) : hex_of_words (w :: ws) <> "".
Proof.
  change (hex_of_words (w :: ws))
    with (String (hex_digit (Z.land (Z.shiftr w (4 * Z.of_nat 7)) 15))
                 (hex_nibbles 7 w ++ hex_of_words ws)).
  discriminate.
Qed.

Lemma sha256_hex_nonempty (text : string) : sha256_hex text <> "".
Proof.
  unfold sha256_hex, Sha256.digest_words. cbv zeta. apply hex_of_words_nonempty.
Qed.

Lemma join_path_root (key : string) : join_path "" key = key.
Proof. reflexivity. Qed.

Lemma not_proto (key : string) :
  mem key Object_prototype_names = false -> (key =? "__proto__") = false.
Proof.
  intros H. destruct (key =? "__proto__") eqn:E; [|reflexivity].
  apply String.eqb_eq in E. subst key. discriminate H.
Qed.

Lemma in_tree_define_other (key key' : string) (c : TreeValue) (tree : HashTreeNode) :
  key' <> key -> in_tree key' (define key c tree) = in_tree key' tree.
Proof.
  intros Hne. unfold in_tree, own_has. now rewrite own_get_define_other.
Qed.

Lemma own_get_In_NoDup {V} (key : string) (v : V) (o : list (string * V)) :
  NoDup (map fst o) -> In (key, v) o -> own_get key o = Some v.
Proof.
  induction o as [|[k w] rest IH]; simpl; intros Hnd H; [contradiction|].
  destruct H as [H|H].
  - injection H as -> ->. now rewrite String.eqb_refl.
  - inversion Hnd as [|? ? Hk Hrest]; subst.
    destruct (k =? key) eqn:E; [|now apply IH].
    apply String.eqb_eq in E. subst k. exfalso. apply Hk.
    apply in_map_iff. now exists (key, v).
Qed.

Lemma own_get_spread_other {V} (key : string) (source o : list (string * V)) :
  ~ In key (map fst source) -> own_get key (spread source o) = own_get key o.
Proof.
  unfold spread. revert o.
  induction source as [|[k c] rest IH]; simpl; intros o Hn; [reflexivity|].
  rewrite IH by tauto. apply own_get_define_other. intros ->. tauto.
Qed.

Lemma own_get_spread {V} (key : string) (c : V) (source o : list (string * V)) :
  NoDup (map fst source) -> In (key, c) source ->
  own_get key (spread source o) = Some c.
Proof.
  revert o.
  induction source as [|[k w] rest IH]; simpl; intros o Hnd H; [contradiction|].
  inversion Hnd as [|? ? Hk Hrest]; subst. destruct H as [H|H].
  - injection H as -> ->.
    change (own_get key (spread rest (define key c o)) = Some c).
    rewrite own_get_spread_other by assumption. apply own_get_define_same.
  - change (own_get key (spread rest (define k w o)) = Some c). now apply IH.
Qed.

(** The loop of [processAddedKeys] on keys the node does not have. *)
Lemma processAddedKeys_loop (props rest : list (string * Json)) :
  forall tree emitted n,
    (forall key v, In (key, v) rest -> own_get key props = Some v) ->
    NoDup (map fst rest) ->
    (forall key, In key (map fst rest) -> in_tree key tree = false) ->
    exists n',
      for_each (map fst rest) (processAddedKey (JObj props) "")
               (mkFrame tree emitted n)
      = (Normal tt,
         mkFrame (spread (map (fun '(key, v) => (key, Node (built v))) rest) tree)
                 (emitted ++ map (Difference added) (map fst rest))%list
                 n').
Proof.
  induction rest as [|[k v] rest IH]; intros tree emitted n Hget Hnd Hnew.
  - exists n. simpl. unfold ret. now rewrite app_nil_r.
  - inversion Hnd as [|? ? Hk Hrest]; subst.
    assert (Hin : in_tree k tree = false) by (apply Hnew; now left).
    assert (Hv : own_get k props = Some v) by (apply Hget; now left).
    assert (Hp : (k =? "__proto__") = false).
    { apply not_proto. unfold in_tree in Hin.
      now apply orb_false_iff in Hin. }
    destruct (IH (define k (Node (built v)) tree)
                 (emitted ++ [Difference added k])%list
                 (n + build_cost v)) as (n' & Hloop).
    { intros; apply Hget; now right. }
    { assumption. }
    { intros key Hkey. rewrite in_tree_define_other.
      - apply Hnew. now right.
      - intros ->. contradiction. }
    exists n'. simpl map. simpl for_each.
    unfold bind at 1. unfold processAddedKey at 1. cbv zeta.
    unfold bind at 1. unfold read at 1. cbv beta iota.
    cbn [hashTree events hashCalls]. rewrite Hin.
    unfold bind at 1. unfold emit at 1. cbv beta iota.
    cbn [hashTree events hashCalls].
    simpl get. rewrite Hv.
    assert (Hchild : forall s,
               (if is_object v then buildHashTree v else leaf (Value v)) s
               = (Normal (built v), hashed (build_cost v) s)).
    { intros s. destruct (is_object v) eqn:Eo.
      - apply buildHashTree_returns.
      - rewrite <- (buildHashTree_returns v s).
        destruct v; try reflexivity; discriminate Eo. }
    unfold bind at 1. rewrite Hchild. cbv beta iota.
    unfold mutate, hashed. cbn [hashTree events hashCalls].
    unfold assign. rewrite Hp. cbn [andb].
    rewrite join_path_root.
    rewrite Hloop. rewrite <- app_assoc. reflexivity.
Qed.

(** C10, amended.  On a new engine, [detectChanges] with an object whose
    top-level keys are neither [__hash] nor a name inherited from
    [Object.prototype], and in which no object has a property named
    [__hash], returns the mutated root, emits exactly one [added] event per
    top-level key, in enumeration order, and attaches under each key the
    subtree [buildHashTree] makes of its value; every digest in the tree it
    leaves is a string. *)
Theorem new_engine_reports_each_key_added (props : list (string * Json)) :
  NoDup (map fst props) ->
  forallb (fun key => negb (in_tree key placeholder)) (map fst props) = true ->
  free_of_hash_key (JObj props) = true ->
  let call := detectChanges (JObj props) in
  completion call constructor = Normal (hashTree (after call constructor))
  /\ emitted_by call constructor = map (Difference added) (map fst props)
  /\ (forall key v, In (key, v) props ->
        own_get key (hashTree (after call constructor)) = Some (Node (built v)))
  /\ sound (hashTree (after call constructor)).
Proof.
  intros Hnd Hkeys Hfree call.
  assert (Hsound : sound (hashTree (after call constructor))).
  { unfold call, detectChanges, findDifferencesAndUpdate.
    apply (keeps_bind sound);
      [now apply keeps_findDifferencesAndUpdate_at
      |intros _; apply keeps_plain_read|reflexivity]. }
  rewrite forallb_forall in Hkeys.
  assert (Hnew : forall key, In key (map fst props) ->
                             in_tree key placeholder = false).
  { intros key Hk. apply negb_true_iff. now apply Hkeys. }
  destruct (processAddedKeys_loop props props placeholder [] (0 + 1))
    as (n' & Hloop); [intros; now apply own_get_In_NoDup|assumption|assumption|].
  assert (Hrun : call constructor
                 = (Normal (assign "__hash"
                              (Text (sha256_hex (combine_entries (children
                                 (spread (map (fun '(key, v) => (key, Node (built v)))
                                              props) placeholder)))))
                              (spread (map (fun '(key, v) => (key, Node (built v)))
                                           props) placeholder)),
                    mkFrame
                      (assign "__hash"
                              (Text (sha256_hex (combine_entries (children
                                 (spread (map (fun '(key, v) => (key, Node (built v)))
                                              props) placeholder)))))
                              (spread (map (fun '(key, v) => (key, Node (built v)))
                                           props) placeholder))
                      (map (Difference added) (map fst props))
                      (n' + 1))).
  { unfold call, detectChanges, findDifferencesAndUpdate.
    remember (depth (JObj props)) as d. simpl findDifferencesAndUpdate_at.
    unfold bind at 1. rewrite body_run.
    assert (E : strict_equal (root_digest constructor)
                  (sha256_hex (JSON_stringify (JObj props))) = false).
    { unfold root_digest, strict_equal. simpl own_get.
      apply String.eqb_neq. intros E. symmetry in E.
      now apply sha256_hex_nonempty in E. }
    rewrite E.
    erewrite bind_normal
      by (apply placeholder_has_no_existing_key; reflexivity).
    unfold processAddedKeys. simpl for_in.
    erewrite bind_normal by exact Hloop.
    rewrite recomputeHash_run. reflexivity. }
  split; [|split; [|split; [|exact Hsound]]];
    unfold completion, emitted_by, after; rewrite Hrun; simpl fst; simpl snd;
    [reflexivity|reflexivity|].
  intros key v Hin. simpl hashTree.
  assert (Hne : key <> "__hash").
  { intros ->. specialize (Hnew "__hash").
    assert (Hk : In "__hash" (map fst props)).
    { apply in_map_iff. now exists ("__hash", v). }
    specialize (Hnew Hk). discriminate Hnew. }
  rewrite own_get_assign_other by assumption.
  apply own_get_spread.
  - rewrite map_map.
    erewrite map_ext; [exact Hnd|]. now intros [k w].
  - apply in_map_iff. now exists (key, v).
Qed.

Lemma new_engine_reports_each_key_added_witness :
  let props := [("1", JNum 7); ("b", JObj [("x", JArr [JNull])]); ("a", JStr "s")] in
  let call := detectChanges (JObj props) in
  NoDup (map fst props)
  /\ forallb (fun key => negb (in_tree key placeholder)) (map fst props) = true
  /\ free_of_hash_key (JObj props) = true
  /\ completion call constructor = Normal (hashTree (after call constructor))
  /\ emitted_by call constructor = map (Difference added) (map fst props)
  /\ (forall key v, In (key, v) props ->
        own_get key (hashTree (after call constructor)) = Some (Node (built v)))
  /\ sound (hashTree (after call constructor)).
Proof.
  intros props call.
  assert (Hnd : NoDup (map fst props)).
  { repeat constructor; simpl; intuition discriminate. }
  assert (Hkeys : forallb (fun key => negb (in_tree key placeholder))
                          (map fst props) = true) by reflexivity.
  assert (Hf : free_of_hash_key (JObj props) = true) by reflexivity.
  split; [exact Hnd|]. split; [exact Hkeys|]. split; [exact Hf|].
  exact (new_engine_reports_each_key_added props Hnd Hkeys Hf).
Defined.

(** ** Objects whose names are no array indices *)

Lemma own_get_absent {V} (key : string) (o : list (string * V)) :
  ~ In key (map fst o) -> own_get key o = None.
Proof.
  induction o as [|[k w] rest IH]; simpl; intros H; [reflexivity|].
  destruct (k =? key) eqn:E.
  - apply String.eqb_eq in E. tauto.
  - apply IH. tauto.
Qed.

Lemma define_appends {V} (key : string) (v : V) (o : list (string * V)) :
  array_index key = None -> ~ In key (map fst o) ->
  define key v o = (o ++ [(key, v)])%list.
Proof.
  intros Hi Hn. unfold define, own_has.
  now rewrite (own_get_absent key o Hn), Hi.
Qed.

Lemma plain_name_spec (key : string) :
  plain_name key = true ->
  array_index key = None /\ key <> "__hash" /\ (key =? "__proto__") = false.
Proof.
  unfold plain_name. destruct (array_index key); [discriminate|].
  intros H. apply andb_true_iff in H. destruct H as [H1 H2].
  apply negb_true_iff in H1, H2. apply String.eqb_neq in H1. auto.
Qed.

Lemma spread_appends {V} (source o : list (string * V)) :
  NoDup (map fst source) ->
  (forall key, In key (map fst source) ->
     array_index key = None /\ ~ In key (map fst o)) ->
  spread source o = (o ++ source)%list.
Proof.
  unfold spread. revert o.
  induction source as [|[k v] rest IH]; simpl; intros o Hnd H.
  - now rewrite app_nil_r.
  - inversion Hnd as [|? ? Hk Hrest]; subst.
    destruct (H k (or_introl eq_refl)) as [Hi Hn].
    rewrite define_appends by assumption.
    rewrite IH; [now rewrite <- app_assoc|assumption|].
    intros key Hkey. destruct (H key (or_intror Hkey)) as [Hi' Hn'].
    split; [assumption|]. rewrite map_app, in_app_iff. simpl.
    intros [?|[<-|[]]]; tauto.
Qed.

Lemma reduce_appends (props : list (string * Json)) (keys : list string) :
  forall acc,
    NoDup keys ->
    (forall key, In key keys ->
       plain_name key = true /\ ~ In key (map fst acc)) ->
    fold_left (fun tree key => assign key (child_of props key) tree) keys acc
    = (acc ++ map (fun key => (key, child_of props key)) keys)%list.
Proof.
  induction keys as [|k rest IH]; simpl; intros acc Hnd H.
  - now rewrite app_nil_r.
  - inversion Hnd as [|? ? Hk Hrest]; subst.
    destruct (H k (or_introl eq_refl)) as [Hp Hn].
    destruct (plain_name_spec k Hp) as (Hi & _ & Hproto).
    unfold assign at 2. rewrite Hproto. cbn [andb].
    rewrite define_appends by assumption.
    rewrite IH; [now rewrite <- app_assoc|assumption|].
    intros key Hkey. destruct (H key (or_intror Hkey)) as [Hp' Hn'].
    split; [assumption|]. rewrite map_app, in_app_iff. simpl.
    intros [?|[<-|[]]]; tauto.
Qed.

Lemma built_plain_object (props : list (string * Json)) :
  has_type (JObj props) = false ->
  NoDup (map fst props) ->
  forallb plain_name (map fst props) = true ->
  let kids := map (fun key => (key, child_of props key)) (sort (map fst props)) in
  built (JObj props)
  = ("__hash", Text (sha256_hex (combine_entries kids))) :: kids.
Proof.
  intros Ht Hnd Hplain kids. rewrite forallb_forall in Hplain.
  assert (Hsorted : NoDup (sort (map fst props))).
  { apply (Permutation_NoDup (Permutation_sym (sort_perm _))), Hnd. }
  assert (Hnames : forall key, In key (sort (map fst props)) ->
                               plain_name key = true).
  { intros key Hk. apply Hplain. now apply (Permutation_in _ (sort_perm _)). }
  rewrite built_object by assumption. cbv zeta.
  rewrite reduce_appends; [|assumption|intros key Hk; split; auto].
  simpl app. fold kids.
  rewrite spread_appends; [reflexivity| |].
  - unfold kids. rewrite map_map. simpl. now rewrite map_id.
  - unfold kids. rewrite map_map. simpl. rewrite map_id. intros key Hk.
    destruct (plain_name_spec key (Hnames key Hk)) as (Hi & Hh & _).
    split; [assumption|]. simpl. intros [E|[]]. now symmetry in E.
Qed.

(** C8, amended.  The tree of a plain object whose names are distinct and
    plain (no array index, not [__hash], not [__proto__]) and in which no
    object has a property named [__hash]: the digest first,
    then one child per name in sorted order; the digest is the hash of the
    ["name:digest"] of the children in that order, and every digest in the
    tree is a string. *)
Theorem plain_object_children_in_sorted_order (props : list (string * Json)) :
  has_type (JObj props) = false ->
  NoDup (map fst props) ->
  forallb plain_name (map fst props) = true ->
  free_of_hash_key (JObj props) = true ->
  let kids := map (fun key => (key, child_of props key)) (sort (map fst props)) in
  built (JObj props)
  = ("__hash", Text (sha256_hex (combine_entries kids))) :: kids
  /\ (forall s, completion (buildHashTree (JObj props)) s
                = Normal (built (JObj props)))
  /\ sound (built (JObj props)).
Proof.
  intros Ht Hnd Hplain Hfree kids. split; [|split].
  - now apply built_plain_object.
  - intros s. unfold completion. now rewrite (buildHashTree_returns _ s).
  - now apply sound_built.
Qed.

Lemma plain_object_children_in_sorted_order_witness :
  let props := [("b", JNum 1); ("a", JObj [("x", JNull)]); ("B", JStr "s")] in
  let kids := map (fun key => (key, child_of props key)) (sort (map fst props)) in
  has_type (JObj props) = false
  /\ NoDup (map fst props)
  /\ forallb plain_name (map fst props) = true
  /\ free_of_hash_key (JObj props) = true
  /\ built (JObj props)
     = ("__hash", Text (sha256_hex (combine_entries kids))) :: kids
  /\ (forall s, completion (buildHashTree (JObj props)) s
                = Normal (built (JObj props)))
  /\ sound (built (JObj props)).
Proof.
  intros props kids.
  assert (Ht : has_type (JObj props) = false) by reflexivity.
  assert (Hnd : NoDup (map fst props)).
  { repeat constructor; simpl; intuition discriminate. }
  assert (Hp : forallb plain_name (map fst props) = true) by reflexivity.
  assert (Hf : free_of_hash_key (JObj props) = true) by reflexivity.
  split; [exact Ht|]. split; [exact Hnd|]. split; [exact Hp|]. split; [exact Hf|].
  exact (plain_object_children_in_sorted_order props Ht Hnd Hp Hf).
Defined.

(** ** Array indices as property names *)

Lemma array_index_decimal (z : Z) :
  (0 <= z < 4294967295)%Z -> array_index (decimal z) = Some z.
Proof.
  intros [Hlo Hhi]. destruct z as [|p|p]; [reflexivity| |lia].
  unfold array_index, decimal. cbn [Z.to_int NilEmpty.string_of_int].
  rewrite NilEmpty.usu. cbv zeta.
  assert (E : Z.of_uint (Pos.to_uint p) = Z.pos p).
  { unfold Z.of_uint. now rewrite DecimalPos.Unsigned.of_to. }
  rewrite E. cbn [Z.to_int NilEmpty.string_of_int].
  rewrite String.eqb_refl. apply Z.ltb_lt in Hhi. now rewrite Hhi.
Qed.

Lemma array_index_nat (i : nat) :
  (Z.of_nat i < 4294967295)%Z ->
  array_index (decimal (Z.of_nat i)) = Some (Z.of_nat i).
Proof. intros H. apply array_index_decimal. lia. Qed.

Section IndexProperties.
Context {V : Type}.
Implicit Types (o post : list (string * V)) (key : string) (v : V).

Lemma below_absent i key o :
  below i o -> array_index key = Some i -> own_get key o = None.
Proof.
  intros Hb Hi. induction Hb as [|[k w] rest (j & Hj & Hlt) Hrest IH]; simpl;
    [reflexivity|].
  destruct (k =? key) eqn:E; [|exact IH].
  apply String.eqb_eq in E. subst k. simpl in Hj. rewrite Hi in Hj.
  injection Hj as <-. lia.
Qed.

Lemma below_snoc i key v o :
  below i o -> array_index key = Some i -> below (i + 1) (o ++ [(key, v)]).
Proof.
  intros Hb Hi. unfold below in *. apply Forall_app. split.
  - eapply Forall_impl; [|exact Hb]. intros kv (j & Hj & Hlt).
    exists j. split; [assumption|lia].
  - constructor; [|constructor]. exists i. simpl. split; [assumption|lia].
Qed.

(** A list of names: no key is an array index. *)
Lemma insert_index_between i key v o post :
  below i o ->
  Forall (fun kv => array_index (fst kv) = None) post ->
  insert_index i key v (o ++ post) = (o ++ (key, v) :: post)%list.
Proof.
  intros Hb Hpost.
  induction Hb as [|[k w] rest (j & Hj & Hlt) Hrest IH]; simpl.
  - destruct Hpost as [|[k w] post' Hk Hpost']; [reflexivity|].
    simpl in *. now rewrite Hk.
  - simpl in Hj. rewrite Hj. apply Z.ltb_lt in Hlt. rewrite Hlt.
    now rewrite IH.
Qed.

Lemma define_index_between i key v o post :
  below i o ->
  Forall (fun kv => array_index (fst kv) = None) post ->
  array_index key = Some i ->
  define key v (o ++ post) = (o ++ (key, v) :: post)%list.
Proof.
  intros Hb Hpost Hi. unfold define, own_has.
  rewrite own_get_app, (below_absent i key o Hb Hi).
  assert (Hn : own_get key post = None).
  { apply own_get_absent. intros Hin. apply in_map_iff in Hin.
    destruct Hin as ([k w] & <- & Hin).
    rewrite Forall_forall in Hpost. specialize (Hpost _ Hin). simpl in *.
    congruence. }
  rewrite Hn, Hi. now apply insert_index_between.
Qed.

Lemma spread_index_entries (values : list V) :
  forall start o post,
    below (Z.of_nat start) o ->
    Forall (fun kv => array_index (fst kv) = None) post ->
    (Z.of_nat (start + List.length values) <= 4294967295)%Z ->
    spread (index_entries start values) (o ++ post)
    = (o ++ index_entries start values ++ post)%list.
Proof.
  unfold spread, index_entries.
  induction values as [|v rest IH]; intros start o post Hb Hpost Hlen.
  - reflexivity.
  - simpl List.length in *. cbn [seq map combine fold_left].
    rewrite (define_index_between (Z.of_nat start)); try assumption;
      [|apply array_index_nat; lia].
    change (o ++ (decimal (Z.of_nat start), v) :: post)%list
      with (o ++ [(decimal (Z.of_nat start), v)] ++ post)%list.
    rewrite app_assoc. rewrite IH; try assumption; [| |simpl in Hlen; lia].
    + now rewrite <- app_assoc.
    + replace (Z.of_nat (S start)) with (Z.of_nat start + 1)%Z by lia.
      apply below_snoc; [assumption|]. apply array_index_nat. lia.
Qed.

End IndexProperties.

(** ** The tree of an array *)

Lemma spread_index_entries_onto {V} (values : list V) (post : list (string * V)) :
  Forall (fun kv => array_index (fst kv) = None) post ->
  (Z.of_nat (0 + List.length values) <= 4294967295)%Z ->
  spread (index_entries 0 values) post = (index_entries 0 values ++ post)%list.
Proof.
  intros Hpost Hlen.
  exact (spread_index_entries values 0 [] post (Forall_nil _) Hpost Hlen).
Qed.

Lemma indices_entries {V} (values : list V) :
  combine (indices (List.length values)) values = index_entries 0 values.
Proof. reflexivity. Qed.

Lemma built_array_entries (items : list Json) :
  (Z.of_nat (List.length items) <= 4294967295)%Z ->
  built (JArr items)
  = (index_entries 0 (map (fun v => Node (built v)) items)
     ++ [("__hash",
          Text (sha256_hex
                  (String.concat ""
                     (map (fun v => in_join (own_get "__hash" (built v))) items))))])%list.
Proof.
  intros Hlen. rewrite built_array.
  rewrite <- (length_map (fun v => Node (built v)) items), indices_entries.
  unfold from_entries.
  assert (Hl : (Z.of_nat (0 + List.length (map (fun v => Node (built v)) items))
                <= 4294967295)%Z) by (simpl; rewrite length_map; lia).
  rewrite (spread_index_entries_onto _ [] (Forall_nil _) Hl), app_nil_r.
  apply spread_index_entries_onto; [|exact Hl].
  now repeat constructor.
Qed.

(** X5.  The node of an array in which no object has a property named
    [__hash] has one child per element under the keys ["0"], ["1"], ... in
    index order, then the digest; the digest is the hash of the child
    digests joined in that order, and every digest in the tree is a string.
    JavaScript arrays have at most 2^32 - 1 elements. *)
Theorem array_children_in_index_order (items : list Json) :
  (Z.of_nat (List.length items) <= 4294967295)%Z ->
  free_of_hash_key (JArr items) = true ->
  built (JArr items)
  = (index_entries 0 (map (fun v => Node (built v)) items)
     ++ [("__hash",
          Text (sha256_hex
                  (String.concat ""
                     (map (fun v => in_join (own_get "__hash" (built v))) items))))])%list
  /\ sound (built (JArr items)).
Proof.
  intros Hlen Hfree. split.
  - now apply built_array_entries.
  - now apply sound_built.
Qed.

Lemma array_children_in_index_order_witness :
  let items := [JNum 1; JObj [("a", JNull)]; JArr []] in
  (Z.of_nat (List.length items) <= 4294967295)%Z
  /\ free_of_hash_key (JArr items) = true
  /\ built (JArr items)
     = (index_entries 0 (map (fun v => Node (built v)) items)
        ++ [("__hash",
             Text (sha256_hex
                     (String.concat ""
                        (map (fun v => in_join (own_get "__hash" (built v)))
                             items))))])%list
  /\ sound (built (JArr items)).
Proof.
  intros items.
  assert (H : (Z.of_nat (List.length items) <= 4294967295)%Z) by (simpl; lia).
  assert (Hf : free_of_hash_key (JArr items) = true) by reflexivity.
  split; [exact H|]. split; [exact Hf|].
  exact (array_children_in_index_order items H Hf).
Defined.

(** ** Updating an array of values taken as units *)

Lemma for_each_app {A} (l1 l2 : list A) (body : A -> M unit) (s : Frame) :
  for_each (l1 ++ l2) body s = (for_each l1 body ;; for_each l2 body) s.
Proof.
  revert s. induction l1 as [|x rest IH]; intros s; simpl.
  - reflexivity.
  - unfold bind. destruct (body x s) as [[[]| | |] s']; try reflexivity.
    rewrite IH. reflexivity.
Qed.

Lemma replace_value_same {V} (key : string) (v : V) (o : list (string * V)) :
  own_get key o = Some v -> replace_value key v o = o.
Proof.
  induction o as [|[k w] rest IH]; simpl; [reflexivity|].
  destruct (k =? key) eqn:E.
  - intros [= ->]. reflexivity.
  - intros H. now rewrite IH.
Qed.

Lemma replace_value_middle {V} (key : string) (v w : V) (pre post : list (string * V)) :
  own_get key pre = None ->
  replace_value key v (pre ++ (key, w) :: post) = (pre ++ (key, v) :: post)%list.
Proof.
  induction pre as [|[k x] rest IH]; simpl.
  - now rewrite String.eqb_refl.
  - destruct (k =? key); [discriminate|]. intros H. now rewrite IH.
Qed.

Lemma own_get_middle {V} (key : string) (w : V) (pre post : list (string * V)) :
  own_get key pre = None -> own_get key (pre ++ (key, w) :: post) = Some w.
Proof.
  intros H. rewrite own_get_app, H. simpl. now rewrite String.eqb_refl.
Qed.

Lemma index_entries_cons {V} (start : nat) (v : V) (values : list V) :
  index_entries start (v :: values)
  = (decimal (Z.of_nat start), v) :: index_entries (S start) values.
Proof. reflexivity. Qed.

Lemma app_cons_middle {A} (pre : list A) (x : A) (post : list A) :
  (pre ++ x :: post = (pre ++ [x]) ++ post)%list.
Proof. now rewrite <- app_assoc. Qed.

Lemma atomic_built (v : Json) : atomic v = true -> Node (built v) = leaf_node v.
Proof. intros H. unfold leaf_node, digest. now rewrite built_atomic. Qed.

(** On a value taken as a unit, both branches of [processKeyValue] hash
    the serialized value and compare it with the stored digest. *)
Lemma processKeyValue_atomic (self : Json -> string -> M unit)
      (jsonData : Json) (key currentPath : string) (y : Json) :
  get jsonData key = Value y -> atomic y = true ->
  processKeyValue self jsonData key currentPath
  = (h <- calculateHash (Some (JSON_stringify y)) ;;
     storeIfChanged h key currentPath).
Proof.
  intros Hg Ha. unfold processKeyValue. rewrite Hg.
  unfold atomic in Ha. destruct (is_object y); simpl in Ha.
  - unfold processObjectValue. now rewrite Ha.
  - reflexivity.
Qed.

Lemma storeIfChanged_leaf (x y : Json) (key currentPath : string) (s : Frame) :
  own_get key (hashTree s) = Some (leaf_node x) ->
  storeIfChanged (digest y) key currentPath s
  = (Normal tt,
     mkFrame (replace_value key (leaf_node y) (hashTree s))
             (events s ++ (if digest x =? digest y then []
                           else [Difference modified currentPath]))
             (hashCalls s)).
Proof.
  intros Hg. unfold storeIfChanged, bind at 1, read. rewrite Hg.
  unfold leaf_node at 1. cbn [hash_of own_get String.eqb Ascii.eqb Bool.eqb].
  unfold strict_equal.
  destruct (digest x =? digest y) eqn:E.
  - apply String.eqb_eq in E. unfold ret.
    rewrite replace_value_same, app_nil_r; [now destruct s|].
    unfold leaf_node in *. now rewrite <- E.
  - reflexivity.
Qed.

Lemma get_element (items : list Json) (i : nat) (y : Json) :
  (Z.of_nat i < 4294967295)%Z -> nth_error items i = Some y ->
  get (JArr items) (decimal (Z.of_nat i)) = Value y.
Proof.
  intros Hi Hn. unfold get, element.
  rewrite array_index_nat by assumption. now rewrite Nat2Z.id, Hn.
Qed.

Lemma processExistingKey_element (self : Json -> string -> M unit)
      (items : list Json) (i : nat) (x y : Json) (s : Frame) :
  (Z.of_nat i < 4294967295)%Z ->
  nth_error items i = Some y -> atomic y = true ->
  own_get (decimal (Z.of_nat i)) (hashTree s) = Some (leaf_node x) ->
  processExistingKey self (JArr items) "" (decimal (Z.of_nat i)) s
  = (Normal tt,
     mkFrame (replace_value (decimal (Z.of_nat i)) (leaf_node y) (hashTree s))
             (events s ++ (if digest x =? digest y then []
                           else [Difference modified (decimal (Z.of_nat i))]))
             (hashCalls s + 1)).
Proof.
  intros Hi Hn Ha Hg. unfold processExistingKey.
  destruct (decimal (Z.of_nat i) =? "__hash") eqn:E.
  { apply String.eqb_eq in E. now apply decimal_not_hash in E. }
  cbv zeta. rewrite join_path_root.
  pose proof (get_element items i y Hi Hn) as Hget.
  unfold has. rewrite Hget.
  rewrite (processKeyValue_atomic self _ _ _ y Hget Ha).
  unfold bind, calculateHash.
  exact (storeIfChanged_leaf x y _ _ (hashed 1 s) Hg).
Qed.

Lemma processExistingKeys_elements (self : Json -> string -> M unit)
      (items : list Json) (olds : list Json) :
  forall news start (pre post : HashTreeNode) emitted n,
    List.length olds = List.length news ->
    forallb atomic news = true ->
    (Z.of_nat (start + List.length olds) <= 4294967295)%Z ->
    (forall j y, nth_error news j = Some y -> nth_error items (start + j) = Some y) ->
    below (Z.of_nat start) pre ->
    for_each (map (fun i => decimal (Z.of_nat i)) (seq start (List.length olds)))
             (processExistingKey self (JArr items) "")
             (mkFrame (pre ++ index_entries start (map leaf_node olds) ++ post)%list
                      emitted n)
    = (Normal tt,
       mkFrame (pre ++ index_entries start (map leaf_node news) ++ post)%list
               (emitted ++ map (Difference modified) (changed_from start olds news))%list
               (n + List.length olds)).
Proof.
  induction olds as [|x olds IH];
    intros [|y news] start pre post emitted n Hlen Hat Hbound Hitems Hpre;
    try discriminate Hlen.
  - simpl. unfold ret. now rewrite app_nil_r, Nat.add_0_r.
  - simpl in Hat. apply andb_true_iff in Hat. destruct Hat as [Hy Hat].
    simpl List.length in *. injection Hlen as Hlen.
    assert (Hi : (Z.of_nat start < 4294967295)%Z) by lia.
    assert (Hnone : own_get (decimal (Z.of_nat start)) pre = None).
    { apply (below_absent (Z.of_nat start)); [assumption|].
      now apply array_index_nat. }
    cbn [seq map for_each]. rewrite !index_entries_cons. cbn [app].
    erewrite bind_normal.
    2:{ apply (processExistingKey_element self items start x y).
        - exact Hi.
        - specialize (Hitems 0 y eq_refl). now rewrite Nat.add_0_r in Hitems.
        - exact Hy.
        - cbn [hashTree]. now apply own_get_middle. }
    cbn [hashTree events hashCalls].
    rewrite replace_value_middle by assumption.
    rewrite (app_cons_middle pre).
    rewrite (IH news (S start)); try assumption.
    + f_equal. f_equal.
      * now rewrite <- app_assoc.
      * rewrite <- app_assoc. cbn [changed_from]. rewrite map_app.
        f_equal. now destruct (digest x =? digest y).
      * lia.
    + lia.
    + intros j z Hz. replace (S start + j) with (start + S j) by lia.
      now apply Hitems.
    + replace (Z.of_nat (S start)) with (Z.of_nat start + 1)%Z by lia.
      apply below_snoc; [assumption|]. now apply array_index_nat.
Qed.

Lemma index_entries_keys {V} (values : list V) :
  forall start,
    map fst (index_entries start values)
    = map (fun i => decimal (Z.of_nat i)) (seq start (List.length values)).
Proof.
  induction values as [|v rest IH]; intros start; [reflexivity|].
  rewrite index_entries_cons. simpl. now rewrite IH.
Qed.

Lemma index_entries_no_hash {V} (start : nat) (values : list V) :
  ~ In "__hash" (map fst (index_entries start values)).
Proof.
  rewrite index_entries_keys. intros H. apply in_map_iff in H.
  destruct H as (i & E & _). now apply decimal_not_hash in E.
Qed.

Lemma own_has_In {V} (key : string) (o : list (string * V)) :
  In key (map fst o) -> own_has key o = true.
Proof.
  intros H. unfold own_has. now destruct (own_get_In key o H) as (v & ->).
Qed.

(** [processAddedKeys] leaves a node alone that has all the keys already. *)
Lemma processAddedKeys_present (jsonData : Json) (path : string) (keys : list string)
      (s : Frame) :
  (forall key, In key keys -> in_tree key (hashTree s) = true) ->
  for_each keys (processAddedKey jsonData path) s = (Normal tt, s).
Proof.
  induction keys as [|k rest IH]; intros H; [reflexivity|].
  simpl. unfold bind at 1. unfold processAddedKey at 1. cbv zeta.
  unfold bind at 1, read at 1. rewrite (H k (or_introl eq_refl)).
  unfold ret. apply IH. intros; apply H; now right.
Qed.

Lemma children_digest_last (entries : HashTreeNode) (x : TreeValue) :
  ~ In "__hash" (map fst entries) ->
  children (entries ++ [("__hash", x)])%list = entries.
Proof.
  intros H. unfold children. rewrite filter_app. simpl. rewrite app_nil_r.
  induction entries as [|[k c] rest IH]; simpl in *; [reflexivity|].
  destruct (k =? "__hash") eqn:E.
  - apply String.eqb_eq in E. tauto.
  - simpl. rewrite IH; [reflexivity|tauto].
Qed.

Lemma assign_digest_last (entries : HashTreeNode) (x : TreeValue) (h : string) :
  ~ In "__hash" (map fst entries) ->
  assign "__hash" (Text h) (entries ++ [("__hash", x)])%list
  = (entries ++ [("__hash", Text h)])%list.
Proof.
  intros H. unfold assign. cbn [String.eqb Ascii.eqb Bool.eqb andb].
  unfold define. rewrite own_has_In.
  - apply replace_value_middle. now apply own_get_absent.
  - rewrite map_app, in_app_iff. right. now left.
Qed.

Lemma processExistingKeys_array (self : Json -> string -> M unit)
      (items items' : list Json) (x : TreeValue) (emitted : list DifferenceEvent)
      (n : nat) :
  List.length items = List.length items' ->
  forallb atomic items' = true ->
  (Z.of_nat (List.length items) <= 4294967295)%Z ->
  processExistingKeys self (JArr items') ""
    (mkFrame (index_entries 0 (map leaf_node items) ++ [("__hash", x)])%list
             emitted n)
  = (Normal tt,
     mkFrame (index_entries 0 (map leaf_node items') ++ [("__hash", x)])%list
             (emitted ++ map (Difference modified) (changed_from 0 items items'))%list
             (n + List.length items)).
Proof.
  intros Hlen Hat Hbound.
  pose proof (processExistingKeys_elements self items' items items' 0 []
                [("__hash", x)] emitted n Hlen Hat Hbound
                (fun j y Hy => Hy) (Forall_nil _)) as Hloop.
  cbn [app] in Hloop.
  unfold processExistingKeys, bind at 1, read. cbn [hashTree].
  rewrite map_app, index_entries_keys, length_map. cbn [map fst].
  rewrite for_each_app. unfold bind at 1. rewrite Hloop.
  reflexivity.
Qed.

(** C7, amended.  An array whose elements are primitives or type-tagged objects, updated
    with an array of as many such elements (a reordering, for one): when
    the root test does not stop the call, exactly the indices whose element
    digest changed are reported [modified], in index order, and the node
    then holds the leaves of the new elements.  JavaScript arrays have at
    most 2^32 - 1 elements. *)
Theorem reordered_units_report_changed_indices (items items' : list Json) :
  Permutation items items' ->
  forallb atomic items = true ->
  (Z.of_nat (List.length items) <= 4294967295)%Z ->
  strict_equal (root_digest (after (initialize (JArr items)) constructor))
               (digest (JArr items')) = false ->
  let s := after (initialize (JArr items)) constructor in
  let call := detectChanges (JArr items') in
  completion call s = Normal (hashTree (after call s))
  /\ emitted_by call s = map (Difference modified) (changed_from 0 items items')
  /\ children (hashTree (after call s)) = index_entries 0 (map leaf_node items').
Proof.
  intros Hperm Hat Hlen Hroot s call.
  assert (Hat' : forallb atomic items' = true).
  { rewrite forallb_forall in *. intros y Hy. apply Hat.
    now apply (Permutation_in _ (Permutation_sym Hperm)). }
  assert (Hlen' : List.length items = List.length items')
    by now apply Permutation_length.
  assert (Hleaves : forall l, forallb atomic l = true ->
             map (fun v => Node (built v)) l = map leaf_node l).
  { intros l Hl. rewrite forallb_forall in Hl. apply map_ext_in.
    intros v Hv. apply atomic_built. now apply Hl. }
  assert (Hs : exists h0 n0,
             s = mkFrame (index_entries 0 (map leaf_node items)
                          ++ [("__hash", Text h0)])%list [] n0).
  { unfold s, after. rewrite initialize_returns.
    rewrite built_array_entries by assumption.
    rewrite (Hleaves items Hat). eexists; eexists; reflexivity. }
  destruct Hs as (h0 & n0 & Hs).
  set (entries' := index_entries 0 (map leaf_node items')).
  assert (Hrun : call s
                 = (Normal (entries' ++ [("__hash",
                       Text (sha256_hex (combine_entries entries')))])%list,
                    mkFrame (entries' ++ [("__hash",
                       Text (sha256_hex (combine_entries entries')))])%list
                      (map (Difference modified) (changed_from 0 items items'))
                      (n0 + 1 + List.length items + 1))).
  { unfold call, detectChanges, findDifferencesAndUpdate.
    remember (depth (JArr items')) as d. simpl findDifferencesAndUpdate_at.
    unfold bind at 1. rewrite body_run. fold (digest (JArr items')).
    change (after (initialize (JArr items)) constructor) with s in Hroot.
    rewrite Hroot. rewrite Hs.
    erewrite bind_normal.
    2:{ apply (processExistingKeys_array _ items items'); assumption. }
    unfold processAddedKeys. erewrite bind_normal.
    2:{ apply processAddedKeys_present.
        intros key Hkey. cbn [hashTree]. unfold in_tree.
        rewrite own_has_In; [reflexivity|].
        rewrite map_app, in_app_iff. left.
        rewrite index_entries_keys, length_map. simpl in Hkey.
        exact Hkey. }
    rewrite recomputeHash_run. cbn [hashTree events hashCalls].
    fold entries'.
    rewrite children_digest_last by apply index_entries_no_hash.
    rewrite assign_digest_last by apply index_entries_no_hash.
    reflexivity. }
  unfold completion, emitted_by, after. rewrite Hrun. cbn [fst snd hashTree events].
  split; [reflexivity|]. split.
  - rewrite Hs. reflexivity.
  - apply children_digest_last, index_entries_no_hash.
Qed.

Lemma reordered_units_report_changed_indices_witness :
  let items := [JNum 1; JStr "b"; JObj [("type", JStr "t"); ("x", JNum 0)]; JNull] in
  let items' := [JStr "b"; JNum 1; JNull; JObj [("type", JStr "t"); ("x", JNum 0)]] in
  let s := after (initialize (JArr items)) constructor in
  let call := detectChanges (JArr items') in
  Permutation items items'
  /\ forallb atomic items = true
  /\ (Z.of_nat (List.length items) <= 4294967295)%Z
  /\ strict_equal (root_digest s) (digest (JArr items')) = false
  /\ completion call s = Normal (hashTree (after call s))
  /\ emitted_by call s = map (Difference modified) (changed_from 0 items items')
  /\ children (hashTree (after call s)) = index_entries 0 (map leaf_node items').
Proof.
  intros items items' s call.
  assert (Hp : Permutation items items').
  { unfold items, items'. eapply perm_trans; [apply perm_swap|].
    do 2 apply perm_skip. apply perm_swap. }
  assert (Ha : forallb atomic items = true) by reflexivity.
  assert (Hl : (Z.of_nat (List.length items) <= 4294967295)%Z) by (simpl; lia).
  assert (Hr : strict_equal (root_digest s) (digest (JArr items')) = false)
    by (vm_compute; reflexivity).
  split; [exact Hp|]. split; [exact Ha|]. split; [exact Hl|]. split; [exact Hr|].
  exact (reordered_units_report_changed_indices items items' Hp Ha Hl Hr).
Defined.

(** ** The two public operations *)

(** X1.  For a snapshot in which no object has a property named
    [__hash], [initialize] returns normally whatever tree was stored: the
    stored tree becomes the tree of the snapshot, which is also the value
    returned, and no event is emitted.  Every node of that tree holds a
    digest string, so the builder never had a node to convert to text. *)
Theorem initialize_replaces_the_tree (data : Json) (s : Frame) :
  free_of_hash_key data = true ->
  completion (initialize data) s = Normal (built data)
  /\ hashTree (after (initialize data) s) = built data
  /\ events (after (initialize data) s) = events s
  /\ hashCalls (after (initialize data) s) = hashCalls s + build_cost data
  /\ sound (built data).
Proof.
  intros Hf. unfold completion, after. rewrite initialize_returns.
  cbn [fst snd hashTree events hashCalls].
  repeat split. now apply sound_built.
Qed.

Lemma initialize_replaces_the_tree_witness :
  let data := JObj [("a", JArr [JNum 1; JObj [("toString", JNull)]]);
                    ("type", JNum 0)] in
  let s := after (initialize (JObj [("z", JBool true)])) constructor in
  free_of_hash_key data = true
  /\ completion (initialize data) s = Normal (built data)
  /\ hashTree (after (initialize data) s) = built data
  /\ events (after (initialize data) s) = events s
  /\ hashCalls (after (initialize data) s) = hashCalls s + build_cost data
  /\ sound (built data).
Proof.
  intros data s.
  assert (Hf : free_of_hash_key data = true) by reflexivity.
  split; [exact Hf|]. exact (initialize_replaces_the_tree data s Hf).
Defined.

Lemma detectChanges_run (jsonData : Json) (s : Frame) :
  detectChanges jsonData s
  = if strict_equal (root_digest s) (digest jsonData)
    then (Normal (hashTree s), hashed 1 s)
    else ((processExistingKeys (findDifferencesAndUpdate_at (depth jsonData))
                               jsonData "" ;;
           processAddedKeys jsonData "" ;;
           recomputeHash) ;; read) (hashed 1 s).
Proof.
  unfold detectChanges, findDifferencesAndUpdate.
  remember (depth jsonData) as d. simpl findDifferencesAndUpdate_at.
  unfold bind at 1. rewrite body_run. fold (digest jsonData).
  destruct (strict_equal (root_digest s) (digest jsonData)); reflexivity.
Qed.

(** X2.  The one test that prunes: when the hash of the serialized
    snapshot is the digest stored at the root, [detectChanges] returns the
    stored tree as it is, emits nothing, and has computed one digest. *)
Theorem equal_digest_returns_at_once (jsonData : Json) (s : Frame) :
  strict_equal (root_digest s) (digest jsonData) = true ->
  completion (detectChanges jsonData) s = Normal (hashTree s)
  /\ after (detectChanges jsonData) s = hashed 1 s
  /\ emitted_by (detectChanges jsonData) s = []
  /\ hashes_by (detectChanges jsonData) s = 1.
Proof.
  intros H. unfold completion, emitted_by, hashes_by, after.
  rewrite detectChanges_run, H. cbn [fst snd hashed events hashCalls].
  repeat split.
  - apply skipn_all.
  - lia.
Qed.

Lemma root_digest_of_unit (v : Json) (s : Frame) :
  atomic v = true ->
  root_digest (after (initialize v) s) = Some (Text (digest v)).
Proof.
  intros Ha. unfold after. rewrite initialize_returns.
  unfold root_digest. cbn [snd hashTree]. now rewrite built_atomic.
Qed.

Lemma equal_digest_returns_at_once_witness :
  let s := after (initialize (JStr "v")) constructor in
  strict_equal (root_digest s) (digest (JStr "v")) = true
  /\ completion (detectChanges (JStr "v")) s = Normal (hashTree s)
  /\ after (detectChanges (JStr "v")) s = hashed 1 s
  /\ emitted_by (detectChanges (JStr "v")) s = []
  /\ hashes_by (detectChanges (JStr "v")) s = 1.
Proof.
  intros s.
  assert (H : strict_equal (root_digest s) (digest (JStr "v")) = true).
  { unfold s. rewrite root_digest_of_unit by reflexivity.
    apply String.eqb_refl. }
  split; [exact H|]. exact (equal_digest_returns_at_once (JStr "v") s H).
Defined.

(** X3.  A snapshot that is a primitive, [null] or a type-tagged object is
    stored as one leaf, so repeating it right after [initialize] is a
    no-op: the same tree is returned, nothing is emitted, one digest is
    computed. *)
Theorem repeated_unit_snapshot_is_a_no_op (v : Json) (s0 : Frame) :
  atomic v = true ->
  let s := after (initialize v) s0 in
  completion (detectChanges v) s = Normal (built v)
  /\ hashTree (after (detectChanges v) s) = built v
  /\ emitted_by (detectChanges v) s = []
  /\ hashes_by (detectChanges v) s = 1.
Proof.
  intros Ha s.
  assert (H : strict_equal (root_digest s) (digest v) = true).
  { unfold s. rewrite root_digest_of_unit by assumption. apply String.eqb_refl. }
  assert (Ht : hashTree s = built v).
  { unfold s, after. now rewrite initialize_returns. }
  unfold completion, emitted_by, hashes_by, after.
  rewrite detectChanges_run, H. cbn [fst snd hashed hashTree events hashCalls].
  rewrite Ht. repeat split.
  - apply skipn_all.
  - lia.
Qed.

Lemma repeated_unit_snapshot_is_a_no_op_witness :
  let v := JObj [("type", JStr "Secret"); ("hex", JStr "00ff")] in
  let s := after (initialize v) constructor in
  atomic v = true
  /\ completion (detectChanges v) s = Normal (built v)
  /\ hashTree (after (detectChanges v) s) = built v
  /\ emitted_by (detectChanges v) s = []
  /\ hashes_by (detectChanges v) s = 1.
Proof.
  intros v s.
  assert (Ha : atomic v = true) by reflexivity.
  split; [exact Ha|]. exact (repeated_unit_snapshot_is_a_no_op v constructor Ha).
Defined.

(** ** The recursion ends *)

Lemma finishes_ret {A} (a : A) : finishes (ret a).
Proof. intros s. discriminate. Qed.

Lemma finishes_throw {A} (e : TypeError) : finishes (@throw A e).
Proof. intros s. discriminate. Qed.

Lemma finishes_unmodelled {A} : finishes (@unmodelled A).
Proof. intros s. discriminate. Qed.

Lemma finishes_read : finishes read.
Proof. intros s. discriminate. Qed.

Lemma finishes_emit (kind : Kind) (p : string) : finishes (emit kind p).
Proof. intros s. discriminate. Qed.

Lemma finishes_mutate (f : HashTreeNode -> HashTreeNode) : finishes (mutate f).
Proof. intros s. discriminate. Qed.

Lemma finishes_calculateHash (value : option string) :
  finishes (calculateHash value).
Proof. intros s. destruct value; discriminate. Qed.

Lemma finishes_bind {A B} (m : M A) (k : A -> M B) :
  finishes m -> (forall a, finishes (k a)) -> finishes (bind m k).
Proof.
  intros Hm Hk s. unfold completion, bind. specialize (Hm s).
  unfold completion in Hm.
  destruct (m s) as [[a| | |] s']; simpl in *; try discriminate.
  - apply Hk.
  - congruence.
Qed.

Lemma finishes_for_each {A} (items : list A) (body : A -> M unit) :
  (forall x, finishes (body x)) -> finishes (for_each items body).
Proof.
  intros H. induction items as [|x rest IH]; simpl.
  - apply finishes_ret.
  - apply finishes_bind; [apply H|]. intros _. exact IH.
Qed.

Lemma finishes_within {A} (key : string) (m : M A) :
  finishes m -> finishes (within key m).
Proof.
  intros Hm s. unfold completion, within.
  destruct (own_get key (hashTree s)) as [[t|child]|]; try discriminate.
  specialize (Hm (mkFrame child (events s) (hashCalls s))).
  unfold completion in Hm.
  now destruct (m (mkFrame child (events s) (hashCalls s))).
Qed.

Lemma finishes_returns {A} (m : M A) (a : A) (n : nat) :
  returns m a n -> finishes m.
Proof. intros H s. unfold completion. rewrite H. discriminate. Qed.

Lemma finishes_leaf (x : Lookup) : finishes (leaf x).
Proof.
  unfold leaf. apply finishes_bind; [apply finishes_calculateHash|].
  intros h. apply finishes_ret.
Qed.

Lemma finishes_storeIfChanged (h key currentPath : string) :
  finishes (storeIfChanged h key currentPath).
Proof.
  unfold storeIfChanged. apply finishes_bind; [apply finishes_read|].
  intros tree. destruct (own_get key tree) as [child|];
    [|apply finishes_unmodelled].
  destruct (strict_equal _ _); [apply finishes_ret|].
  apply finishes_bind; [apply finishes_emit|]. intros _.
  destruct child; [apply finishes_throw | apply finishes_mutate].
Qed.

(** A value reached through a key lies deeper in the snapshot. *)
Lemma depth_get (jsonData : Json) (key : string) (v : Json) :
  get jsonData key = Value v -> is_object v = true -> depth v < depth jsonData.
Proof.
  intros Hg Ho. destruct jsonData as [| b | z | str | items | props];
    simpl in Hg; try discriminate.
  - unfold char_at in Hg. destruct (array_index key); [|discriminate].
    destruct (String.get _ str); simpl in Hg; [|discriminate].
    injection Hg as <-. discriminate Ho.
  - destruct (element key items) as [w|] eqn:E.
    + injection Hg as <-. unfold element in E.
      destruct (array_index key); [|discriminate].
      apply nth_error_In in E. now apply depth_item.
    + destruct (key =? "length"); [injection Hg as <-; discriminate Ho|].
      unfold inherited in Hg. destruct (key =? "__proto__"); [discriminate|].
      destruct (mem key _); discriminate.
  - destruct (own_get key props) as [w|] eqn:E.
    + injection Hg as <-. now apply depth_prop with (key := key).
    + unfold inherited in Hg. destruct (key =? "__proto__"); [discriminate|].
      destruct (mem key _); discriminate.
Qed.

Section PassesFinish.
Variable self : Json -> string -> M unit.
Variable bound : nat.
Hypothesis self_finishes :
  forall data path, depth data < bound -> finishes (self data path).

Lemma finishes_processKeyValue jsonData key currentPath :
  depth jsonData <= bound ->
  finishes (processKeyValue self jsonData key currentPath).
Proof.
  intros Hd. unfold processKeyValue, processPrimitiveValue.
  destruct (get jsonData key) as [v| | |] eqn:E;
    try (apply finishes_bind; [apply finishes_calculateHash|];
         intros h; apply finishes_storeIfChanged);
    [|apply finishes_unmodelled].
  destruct (is_object v) eqn:Eo.
  - unfold processObjectValue. destruct (has_type v).
    + apply finishes_bind; [apply finishes_calculateHash|].
      intros h. apply finishes_storeIfChanged.
    + apply finishes_bind; [apply finishes_read|]. intros tree.
      apply finishes_bind.
      * destruct (own_get key tree) as [[t|c]|];
          try apply finishes_mutate; apply finishes_ret.
      * intros _. apply finishes_within. apply self_finishes.
        pose proof (depth_get jsonData key v E Eo). lia.
  - apply finishes_bind; [apply finishes_calculateHash|].
    intros h. apply finishes_storeIfChanged.
Qed.

Lemma finishes_body jsonData path :
  depth jsonData <= bound ->
  finishes (findDifferencesAndUpdate_body self jsonData path).
Proof.
  intros Hd. unfold findDifferencesAndUpdate_body.
  apply finishes_bind; [apply finishes_calculateHash|]. intros newHash.
  apply finishes_bind; [apply finishes_read|]. intros tree.
  destruct (strict_equal _ _); [apply finishes_ret|].
  apply finishes_bind.
  { unfold processExistingKeys. apply finishes_bind; [apply finishes_read|].
    intros t. apply finishes_for_each. intros key. unfold processExistingKey.
    destruct (key =? "__hash"); [apply finishes_ret|]. cbv zeta.
    destruct (has jsonData key) as [[|]|].
    - now apply finishes_processKeyValue.
    - apply finishes_bind; [apply finishes_emit|]. intros _.
      apply finishes_mutate.
    - apply finishes_throw. }
  intros _. apply finishes_bind.
  { unfold processAddedKeys. apply finishes_for_each. intros key.
    unfold processAddedKey. cbv zeta.
    apply finishes_bind; [apply finishes_read|]. intros t.
    destruct (in_tree key t); [apply finishes_ret|].
    apply finishes_bind; [apply finishes_emit|]. intros _.
    apply finishes_bind; [|intros child; apply finishes_mutate].
    destruct (get jsonData key) as [v| | |];
      try apply finishes_leaf; [|apply finishes_unmodelled].
    destruct (is_object v); [|apply finishes_leaf].
    eapply finishes_returns, buildHashTree_returns. }
  intros _. unfold recomputeHash.
  apply finishes_bind; [apply finishes_read|]. intros t.
  apply finishes_bind; [apply finishes_calculateHash|]. intros h.
  apply finishes_mutate.
Qed.

End PassesFinish.

Lemma finishes_findDifferencesAndUpdate_at (fuel : nat) :
  forall data path, depth data < fuel ->
  finishes (findDifferencesAndUpdate_at fuel data path).
Proof.
  induction fuel as [|fuel IH]; intros data path Hd; [lia|].
  simpl. apply (finishes_body _ fuel IH). lia.
Qed.


(** ** Updating a flat object *)

Lemma ordinary_name_spec (key : string) :
  ordinary_name key = true ->
  array_index key = None /\ key <> "__hash" /\ (key =? "__proto__") = false
  /\ mem key Object_prototype_names = false.
Proof.
  unfold ordinary_name. intros H. apply andb_true_iff in H.
  destruct H as [Hp Hm]. apply negb_true_iff in Hm.
  destruct (plain_name_spec key Hp) as (Hi & Hh & Hproto). auto.
Qed.

Lemma has_absent (props : list (string * Json)) (key : string) :
  ordinary_name key = true -> own_get key props = None ->
  has (JObj props) key = Some false.
Proof.
  intros Ho Hn. destruct (ordinary_name_spec key Ho) as (_ & _ & Hp & Hm).
  unfold has, get, inherited. now rewrite Hn, Hp, Hm.
Qed.

Lemma has_present (props : list (string * Json)) (key : string) (y : Json) :
  own_get key props = Some y ->
  has (JObj props) key = Some true /\ get (JObj props) key = Value y.
Proof. intros H. unfold has, get. now rewrite H. Qed.

Lemma delete_absent {V} (key : string) (o : list (string * V)) :
  ~ In key (map fst o) -> delete key o = o.
Proof.
  intros H. unfold delete.
  induction o as [|[k w] rest IH]; simpl in *; [reflexivity|].
  destruct (k =? key) eqn:E.
  - apply String.eqb_eq in E. tauto.
  - simpl. rewrite IH; [reflexivity|tauto].
Qed.

Lemma delete_middle {V} (key : string) (w : V) (pre post : list (string * V)) :
  ~ In key (map fst pre) -> ~ In key (map fst post) ->
  delete key (pre ++ (key, w) :: post) = (pre ++ post)%list.
Proof.
  intros Hpre Hpost. unfold delete. rewrite filter_app. simpl.
  rewrite String.eqb_refl. simpl.
  fold (delete key pre). fold (delete key post).
  now rewrite !delete_absent.
Qed.

Lemma own_get_leaves (key : string) (props : list (string * Json)) :
  own_get key (leaves props) = option_map leaf_node (own_get key props).
Proof.
  unfold leaves. induction props as [|[k v] rest IH]; simpl; [reflexivity|].
  destruct (k =? key); [reflexivity|exact IH].
Qed.

Lemma leaves_keys (props : list (string * Json)) :
  map fst (leaves props) = map fst props.
Proof.
  unfold leaves. rewrite map_map. apply map_ext. now intros [k v].
Qed.

Lemma leaves_app (p q : list (string * Json)) :
  leaves (p ++ q) = (leaves p ++ leaves q)%list.
Proof. unfold leaves. apply map_app. Qed.

Lemma own_get_cons_other {V} (key k : string) (w : V) (o : list (string * V)) :
  k <> key -> own_get key ((k, w) :: o) = own_get key o.
Proof. intros H. simpl. apply String.eqb_neq in H. now rewrite H. Qed.

Lemma replace_value_cons_other {V} (key k : string) (v w : V)
      (o : list (string * V)) :
  k <> key -> replace_value key v ((k, w) :: o) = (k, w) :: replace_value key v o.
Proof. intros H. simpl. apply String.eqb_neq in H. now rewrite H. Qed.

(** The first pass, key by key: [pre] holds the children already visited,
    [cur] those still to visit. *)
Lemma processExistingKeys_flat (self : Json -> string -> M unit)
      (new : list (string * Json)) (hv : TreeValue)
      (cur : list (string * Json)) :
  forall pre emitted n,
    let hd := ("__hash", hv) in
    forallb atomic (map snd new) = true ->
    forallb ordinary_name (map fst cur) = true ->
    NoDup (map fst pre ++ map fst cur) ->
    exists n',
      for_each (map fst cur) (processExistingKey self (JObj new) "")
               (mkFrame (hd :: leaves pre ++ leaves cur)%list emitted n)
      = (Normal tt,
         mkFrame (hd :: leaves pre ++ leaves (kept new cur))%list
                 (emitted ++ existing_events new cur)%list n').
Proof.
  induction cur as [|[k x] cur IH]; intros pre emitted n hd Hat Hord Hnd;
    subst hd.
  - exists n. simpl. unfold ret. now rewrite !app_nil_r.
  - simpl in Hord. apply andb_true_iff in Hord. destruct Hord as [Hk Hord].
    destruct (ordinary_name_spec k Hk) as (_ & Hne & _ & _).
    assert (Hpre : ~ In k (map fst pre)).
    { intros Hin. apply NoDup_remove_2 in Hnd. apply Hnd.
      apply in_or_app. now left. }
    assert (Hcur : ~ In k (map fst cur)).
    { intros Hin. apply NoDup_remove_2 in Hnd. apply Hnd.
      apply in_or_app. now right. }
    assert (Hget : own_get k (("__hash", hv) :: leaves pre ++ leaves ((k, x) :: cur))%list
                   = Some (leaf_node x)).
    { rewrite own_get_cons_other by congruence.
      apply own_get_middle. apply own_get_absent. now rewrite leaves_keys. }
    assert (Hskip : (k =? "__hash") = false) by now apply String.eqb_neq.
    cbn [map fst for_each].
    destruct (own_get k new) as [y|] eqn:Ey.
    + (* the key is still there *)
      destruct (has_present new k y Ey) as [Hhas Hval].
      assert (Hy : atomic y = true).
      { rewrite forallb_forall in Hat. apply Hat. apply in_map_iff.
        exists (k, y). split; [reflexivity|]. now apply own_get_Some_In. }
      destruct (IH (pre ++ [(k, y)])%list
                   (emitted ++ (if digest x =? digest y then []
                                else [Difference modified k]))%list
                   (n + 1) Hat Hord) as (n' & Hloop).
      { rewrite map_app. simpl. rewrite <- app_assoc. exact Hnd. }
      exists n'. erewrite bind_normal.
      2:{ unfold processExistingKey. rewrite Hskip. cbv zeta.
          rewrite join_path_root, Hhas.
          rewrite (processKeyValue_atomic self _ _ _ y Hval Hy).
          unfold bind, calculateHash.
          apply (storeIfChanged_leaf x y). exact Hget. }
      cbn [hashTree events hashCalls hashed].
      replace (replace_value k (leaf_node y)
                 (("__hash", hv) :: leaves pre ++ leaves ((k, x) :: cur))%list)
        with (("__hash", hv) :: leaves (pre ++ [(k, y)]) ++ leaves cur)%list.
      * rewrite Hloop. unfold kept, existing_events. cbn [flat_map].
        rewrite Ey. rewrite leaves_app, <- !app_assoc. reflexivity.
      * rewrite replace_value_cons_other by congruence.
        change (leaves ((k, x) :: cur)) with ((k, leaf_node x) :: leaves cur).
        rewrite replace_value_middle
          by (apply own_get_absent; now rewrite leaves_keys).
        rewrite leaves_app, <- app_assoc. reflexivity.
    + (* the key is gone *)
      destruct (IH pre (emitted ++ [Difference removed k])%list n Hat Hord)
        as (n' & Hloop).
      { apply NoDup_remove_1 in Hnd. exact Hnd. }
      exists n'. erewrite bind_normal.
      2:{ unfold processExistingKey. rewrite Hskip. cbv zeta.
          rewrite join_path_root, (has_absent new k Hk Ey). reflexivity. }
      cbn [hashTree events hashCalls].
      replace (delete k (("__hash", hv) :: leaves pre ++ leaves ((k, x) :: cur))%list)
        with (("__hash", hv) :: leaves pre ++ leaves cur)%list.
      * rewrite Hloop. unfold kept, existing_events. cbn [flat_map].
        rewrite Ey. rewrite <- !app_assoc. reflexivity.
      * change (delete k (("__hash", hv) :: leaves pre ++ leaves ((k, x) :: cur))%list)
          with (delete k ([("__hash", hv)] ++ leaves pre
                          ++ (k, leaf_node x) :: leaves cur)%list).
        rewrite app_assoc, delete_middle; [reflexivity| |].
        -- rewrite map_app, leaves_keys. simpl. intros [E|Hin]; auto.
        -- now rewrite leaves_keys.
Qed.

Lemma own_has_iff {V} (key : string) (o : list (string * V)) :
  own_has key o = true <-> In key (map fst o).
Proof.
  split; [|apply own_has_In].
  intros H. unfold own_has in H. destruct (own_get key o) as [v|] eqn:E;
    [|discriminate].
  apply in_map_iff. exists (key, v). split; [reflexivity|].
  now apply own_get_Some_In.
Qed.

Lemma own_has_app_other {V} (key k : string) (w : V) (o : list (string * V)) :
  k <> key -> own_has key (o ++ [(k, w)]) = own_has key o.
Proof.
  intros H. unfold own_has. rewrite own_get_app.
  destruct (own_get key o); [reflexivity|].
  now rewrite own_get_cons_other.
Qed.

(** The second pass on a flat object: [p] tells which names the node had
    when the pass began. *)
Lemma processAddedKeys_flat (new : list (string * Json)) (p : string -> bool)
      (rest : list (string * Json)) :
  forall tree emitted n,
    (forall key y, In (key, y) rest -> own_get key new = Some y) ->
    NoDup (map fst rest) ->
    forallb ordinary_name (map fst rest) = true ->
    forallb atomic (map snd rest) = true ->
    (forall key, In key (map fst rest) -> own_has key tree = p key) ->
    exists n',
      for_each (map fst rest) (processAddedKey (JObj new) "")
               (mkFrame tree emitted n)
      = (Normal tt,
         mkFrame (tree ++ leaves (filter (fun '(key, _) => negb (p key)) rest))%list
                 (emitted ++ map (fun kv => Difference added (fst kv))
                                 (filter (fun '(key, _) => negb (p key)) rest))%list
                 n').
Proof.
  induction rest as [|[k y] rest IH];
    intros tree emitted n Hnew Hnd Hord Hat Hp.
  - exists n. simpl. unfold ret. now rewrite !app_nil_r.
  - simpl in Hord, Hat. apply andb_true_iff in Hord, Hat.
    destruct Hord as [Hk Hord]. destruct Hat as [Hy Hat].
    destruct (ordinary_name_spec k Hk) as (Hi & Hne & Hproto & Hmem).
    inversion Hnd as [|? ? Hnk Hnd']; subst.
    assert (Hin : in_tree k tree = p k).
    { unfold in_tree. rewrite Hmem, orb_false_r. apply Hp. now left. }
    cbn [map fst for_each filter].
    destruct (p k) eqn:Epk; cbn [negb].
    + destruct (IH tree emitted n) as (n' & Hloop); try assumption.
      { intros; apply Hnew; now right. }
      { intros; apply Hp; now right. }
      exists n'. erewrite bind_normal; [exact Hloop|].
      unfold processAddedKey. cbv zeta. unfold bind, read.
      cbn [hashTree]. now rewrite Hin.
    + assert (Hown : ~ In k (map fst tree)).
      { intros H. apply own_has_iff in H.
        rewrite (Hp k (or_introl eq_refl)) in H. congruence. }
      destruct (IH (tree ++ [(k, leaf_node y)])%list
                   (emitted ++ [Difference added k])%list
                   (n + build_cost y)) as (n' & Hloop); try assumption.
      { intros; apply Hnew; now right. }
      { intros key Hkey. rewrite own_has_app_other.
        - apply Hp. now right.
        - intros ->. contradiction. }
      exists n'. erewrite bind_normal.
      2:{ unfold processAddedKey. cbv zeta.
          unfold bind at 1. unfold read at 1. cbn [hashTree]. rewrite Hin.
          unfold bind at 1. unfold emit at 1. cbn [hashTree events hashCalls].
          rewrite join_path_root.
          destruct (has_present new k y (Hnew k y (or_introl eq_refl)))
            as [_ Hval].
          rewrite Hval.
          assert (Hchild : forall s,
                     (if is_object y then buildHashTree y else leaf (Value y)) s
                     = (Normal (built y), hashed (build_cost y) s)).
          { intros s. destruct (is_object y) eqn:Eo.
            - apply buildHashTree_returns.
            - rewrite <- (buildHashTree_returns y s).
              destruct y; try reflexivity; discriminate Eo. }
          unfold bind at 1. rewrite Hchild.
          unfold mutate, hashed. cbn [hashTree events hashCalls].
          unfold assign. rewrite Hproto. cbn [andb].
          rewrite define_appends by assumption.
          rewrite (atomic_built y Hy). reflexivity. }
      rewrite Hloop. cbn [leaves map]. fold (leaves (filter (fun '(key, _) => negb (p key)) rest)).
      rewrite <- !app_assoc. reflexivity.
Qed.

Lemma kept_keys (new cur : list (string * Json)) (key : string) :
  In key (map fst (kept new cur))
  <-> In key (map fst cur) /\ own_get key new <> None.
Proof.
  unfold kept. induction cur as [|[k x] cur IH]; simpl; [tauto|].
  destruct (own_get k new) as [y|] eqn:E; simpl; rewrite IH.
  - split.
    + intros [<-|[H1 H2]]; [split; [now left|congruence]|tauto].
    + intros [[<-|H1] H2]; [now left|tauto].
  - split.
    + tauto.
    + intros [[<-|H1] H2]; [congruence|tauto].
Qed.

Lemma by_sorted_name_keys (props : list (string * Json)) :
  map fst (by_sorted_name props) = sort (map fst props).
Proof.
  unfold by_sorted_name. rewrite map_map. simpl. apply map_id.
Qed.

Lemma flat_tree (old : list (string * Json)) :
  flat old -> has_type (JObj old) = false ->
  built (JObj old)
  = ("__hash", Text (sha256_hex (combine_entries (leaves (by_sorted_name old)))))
    :: leaves (by_sorted_name old).
Proof.
  intros (Hnd & Hord & Hat) Ht.
  assert (Hplain : forallb plain_name (map fst old) = true).
  { rewrite forallb_forall in *. intros k Hk. specialize (Hord k Hk).
    unfold ordinary_name in Hord. now apply andb_true_iff in Hord. }
  pose proof (built_plain_object old Ht Hnd Hplain) as E.
  cbv zeta in E.
  assert (Hl : map (fun key => (key, child_of old key)) (sort (map fst old))
               = leaves (by_sorted_name old)).
  { unfold leaves, by_sorted_name. rewrite map_map. apply map_ext_in.
    intros k Hk. apply (Permutation_in _ (sort_perm _)) in Hk.
    destruct (own_get_In k old Hk) as (v & Hv).
    unfold child_of. rewrite Hv. f_equal. apply atomic_built.
    rewrite forallb_forall in Hat. apply Hat. apply in_map_iff.
    exists (k, v). split; [reflexivity|]. now apply own_get_Some_In. }
  now rewrite Hl in E.
Qed.

Lemma children_digest_first (x : TreeValue) (entries : HashTreeNode) :
  ~ In "__hash" (map fst entries) ->
  children (("__hash", x) :: entries) = entries.
Proof.
  intros H. unfold children. cbn [filter String.eqb Ascii.eqb Bool.eqb negb].
  induction entries as [|[k c] rest IH]; simpl in *; [reflexivity|].
  destruct (k =? "__hash") eqn:E.
  - apply String.eqb_eq in E. tauto.
  - simpl. rewrite IH; [reflexivity|tauto].
Qed.

Lemma assign_digest_first (x : TreeValue) (h : string) (entries : HashTreeNode) :
  assign "__hash" (Text h) (("__hash", x) :: entries)
  = ("__hash", Text h) :: entries.
Proof. reflexivity. Qed.

Lemma ordinary_keys_no_hash (props : list (string * Json)) :
  forallb ordinary_name (map fst props) = true ->
  ~ In "__hash" (map fst props).
Proof.
  intros H Hin. rewrite forallb_forall in H. specialize (H _ Hin).
  discriminate H.
Qed.

(** X9.  A flat object (distinct ordinary names, values that are
    primitives, [null] or type-tagged objects) updated with another flat
    object: when the root test does not stop the call, the first pass
    reports, in the sorted order of the old names, [removed] for each name
    the new object lacks and [modified] for each name whose digest
    changed; the second pass reports [added] for each new name in the
    order of the new object; nothing else is emitted, and the node then
    holds the leaves of the new values. *)
Theorem flat_update_reports_each_difference (old new : list (string * Json)) :
  flat old -> flat new ->
  has_type (JObj old) = false ->
  strict_equal (root_digest (after (initialize (JObj old)) constructor))
               (digest (JObj new)) = false ->
  let s := after (initialize (JObj old)) constructor in
  let call := detectChanges (JObj new) in
  completion call s = Normal (hashTree (after call s))
  /\ emitted_by call s
     = (existing_events new (by_sorted_name old)
        ++ map (fun kv => Difference added (fst kv)) (fresh old new))%list
  /\ children (hashTree (after call s))
     = leaves (kept new (by_sorted_name old) ++ fresh old new).
Proof.
  intros Hold Hnew Ht Hroot s call.
  pose proof Hold as (Hnd & Hord & Hat).
  pose proof Hnew as (Hnd' & Hord' & Hat').
  set (cur := by_sorted_name old).
  assert (Hs : exists h0 n0, s = mkFrame (("__hash", Text h0) :: leaves cur) [] n0).
  { unfold s, after. rewrite initialize_returns, flat_tree by assumption.
    eexists; eexists; reflexivity. }
  destruct Hs as (h0 & n0 & Hs).
  assert (Hcur_keys : map fst cur = sort (map fst old))
    by apply by_sorted_name_keys.
  assert (Hcur_ord : forallb ordinary_name (map fst cur) = true).
  { rewrite Hcur_keys. rewrite forallb_forall in *. intros k Hk.
    apply Hord. now apply (Permutation_in _ (sort_perm _)). }
  assert (Hcur_nd : NoDup (map fst (@nil (string * Json)) ++ map fst cur)).
  { simpl. rewrite Hcur_keys.
    apply (Permutation_NoDup (Permutation_sym (sort_perm _))), Hnd. }
  destruct (processExistingKeys_flat
              (findDifferencesAndUpdate_at (depth (JObj new)))
              new (Text h0) cur [] [] (n0 + 1) Hat' Hcur_ord Hcur_nd)
    as (n1 & Hfirst).
  cbn [leaves map app] in Hfirst. fold (leaves cur) in Hfirst.
  fold (leaves (kept new cur)) in Hfirst.
  destruct (processAddedKeys_flat new (fun key => own_has key old) new
              (("__hash", Text h0) :: leaves (kept new cur))
              (existing_events new cur) n1)
    as (n2 & Hsecond); try assumption.
  { intros key y Hin. now apply own_get_In_NoDup. }
  { intros key Hkey.
    assert (Hne : "__hash" <> key).
    { intros <-. now apply (ordinary_keys_no_hash new). }
    unfold own_has at 1. rewrite own_get_cons_other by assumption.
    fold (own_has key (leaves (kept new cur))).
    apply eq_true_iff_eq. rewrite !own_has_iff, leaves_keys, kept_keys.
    rewrite Hcur_keys. split.
    - intros [H _]. now apply (Permutation_in _ (sort_perm _)).
    - intros H. split.
      + now apply (Permutation_in _ (Permutation_sym (sort_perm _))).
      + destruct (own_get_In key new Hkey) as (y & ->). discriminate. }
  fold (fresh old new) in Hsecond.
  assert (Hrun : exists h1 n3,
             call s
             = (Normal (("__hash", Text h1)
                        :: leaves (kept new cur ++ fresh old new)),
                mkFrame (("__hash", Text h1)
                         :: leaves (kept new cur ++ fresh old new))
                        (existing_events new cur
                         ++ map (fun kv => Difference added (fst kv))
                                (fresh old new))%list
                        n3)).
  { unfold call. rewrite detectChanges_run.
    change (after (initialize (JObj old)) constructor) with s in Hroot.
    rewrite Hroot, Hs.
    eexists; eexists.
    erewrite bind_normal.
    2:{ erewrite bind_normal.
        2:{ unfold processExistingKeys, bind at 1, read. cbn [hashTree hashed].
            cbn [map fst for_each].
            unfold bind at 1. unfold processExistingKey at 1.
            cbn [String.eqb Ascii.eqb Bool.eqb]. unfold ret at 1.
            rewrite leaves_keys. exact Hfirst. }
        erewrite bind_normal.
        2:{ unfold processAddedKeys. cbn [for_in]. exact Hsecond. }
        rewrite recomputeHash_run. cbn [hashTree events hashCalls app].
        rewrite assign_digest_first. reflexivity. }
    unfold read. cbn [hashTree]. rewrite leaves_app. reflexivity. }
  destruct Hrun as (h1 & n3 & Hrun).
  unfold completion, emitted_by, after. rewrite Hrun.
  cbn [fst snd hashTree events].
  split; [reflexivity|]. split.
  - rewrite Hs. reflexivity.
  - apply children_digest_first. rewrite leaves_keys, map_app, in_app_iff.
    intros [H|H].
    + apply kept_keys in H. destruct H as [H _]. rewrite Hcur_keys in H.
      apply (Permutation_in _ (sort_perm _)) in H.
      now apply (ordinary_keys_no_hash old).
    + apply in_map_iff in H. destruct H as ([k y] & E & Hin). simpl in E.
      subst k. unfold fresh in Hin. apply filter_In in Hin.
      destruct Hin as [Hin _]. apply (ordinary_keys_no_hash new Hord').
      apply in_map_iff. now exists ("__hash", y).
Qed.

Lemma flat_update_reports_each_difference_witness :
  let old := [("b", JNum 2); ("a", JNum 1); ("c", JStr "x")] in
  let new := [("d", JNull); ("a", JNum 1); ("c", JStr "y")] in
  let s := after (initialize (JObj old)) constructor in
  let call := detectChanges (JObj new) in
  flat old /\ flat new
  /\ has_type (JObj old) = false
  /\ strict_equal (root_digest s) (digest (JObj new)) = false
  /\ completion call s = Normal (hashTree (after call s))
  /\ emitted_by call s
     = (existing_events new (by_sorted_name old)
        ++ map (fun kv => Difference added (fst kv)) (fresh old new))%list
  /\ children (hashTree (after call s))
     = leaves (kept new (by_sorted_name old) ++ fresh old new).
Proof.
  intros old new s call.
  assert (Ho : flat old).
  { repeat split; try reflexivity.
    repeat constructor; simpl; intuition discriminate. }
  assert (Hn : flat new).
  { repeat split; try reflexivity.
    repeat constructor; simpl; intuition discriminate. }
  assert (Ht : has_type (JObj old) = false) by reflexivity.
  assert (Hr : strict_equal (root_digest s) (digest (JObj new)) = false)
    by (vm_compute; reflexivity).
  split; [exact Ho|]. split; [exact Hn|]. split; [exact Ht|]. split; [exact Hr|].
  exact (flat_update_reports_each_difference old new Ho Hn Ht Hr).
Defined.

Example flat_update_events :
  let old := [("b", JNum 2); ("a", JNum 1); ("c", JStr "x")] in
  let new := [("d", JNull); ("a", JNum 1); ("c", JStr "y")] in
  (existing_events new (by_sorted_name old)
   ++ map (fun kv => Difference added (fst kv)) (fresh old new))%list
  = [Difference removed "b"; Difference modified "c"; Difference added "d"].
Proof. vm_compute. reflexivity. Qed.

(** ** The digest string *)

Lemma length_append (a b : string) :
  String.length (a ++ b) = String.length a + String.length b.
Proof. induction a as [|c a IH]; simpl; [reflexivity|now rewrite IH]. Qed.

Lemma length_hex_nibbles (n : nat) (x : Z) : String.length (hex_nibbles n x) = n.
Proof.
  induction n as [|n IH]; [reflexivity|].
  change (hex_nibbles (S n) x)
    with (String (hex_digit (Z.land (Z.shiftr x (4 * Z.of_nat n)) 15))
                 (hex_nibbles n x)).
  cbn [String.length]. now rewrite IH.
Qed.

Lemma length_hex_of_words (ws : list Z) :
  String.length (hex_of_words ws) = 8 * List.length ws.
Proof.
  induction ws as [|w ws IH]; [reflexivity|].
  change (hex_of_words (w :: ws)) with (hex_nibbles 8 w ++ hex_of_words ws).
  rewrite length_append, length_hex_nibbles, IH. simpl List.length. lia.
Qed.

(** X10.  [calculateHash] returns a string of 64 characters whatever it is
    given, so no digest equals the empty [__hash] of the placeholder the
    constructor stores: on a new engine the root test never stops
    [detectChanges]. *)
Theorem digest_has_64_characters (text : string) (jsonData : Json) :
  String.length (sha256_hex text) = 64
  /\ strict_equal (root_digest constructor) (digest jsonData) = false.
Proof.
  split.
  - unfold sha256_hex, Sha256.digest_words. cbv zeta.
    now rewrite length_hex_of_words.
  - unfold root_digest, strict_equal. cbn [constructor hashTree placeholder own_get
      String.eqb Ascii.eqb Bool.eqb].
    pose proof (sha256_hex_nonempty (JSON_stringify jsonData)) as H.
    unfold digest. now destruct (sha256_hex (JSON_stringify jsonData)).
Qed.

(** ** A stored key that the snapshot only inherits *)

Lemma first_child_throws (self : Json -> string -> M unit) (jsonData : Json)
      (path : string) (e : TypeError) (s : Frame) (tree : HashTreeNode)
      (k : string) (c : TreeValue) (rest : HashTreeNode) :
  children tree = (k, c) :: rest ->
  processExistingKey self jsonData path k s = (Throw e, s) ->
  for_each (map fst tree) (processExistingKey self jsonData path) s = (Throw e, s).
Proof.
  intros Hc Hk. induction tree as [|[k' c'] tree IH]; [discriminate Hc|].
  unfold children in Hc. cbn [filter] in Hc. cbn [map fst for_each].
  destruct (k' =? "__hash") eqn:E; cbn [negb] in Hc.
  - unfold bind. unfold processExistingKey at 1. rewrite E. unfold ret.
    apply IH. exact Hc.
  - injection Hc as -> _ _. unfold bind. now rewrite Hk.
Qed.

Lemma first_child_not_hash (tree : HashTreeNode) (k : string) (c : TreeValue)
      (rest : HashTreeNode) :
  children tree = (k, c) :: rest -> (k =? "__hash") = false.
Proof.
  intros H. assert (Hin : In (k, c) (children tree)) by (rewrite H; now left).
  unfold children in Hin. apply filter_In in Hin. destruct Hin as [_ Hk].
  now apply negb_true_iff in Hk.
Qed.

(** X11.  When the first child key of the stored node is a name the
    snapshot does not own but inherits as a method ([constructor],
    [toString], ... on any object; [map], [push], ... on an array),
    [key in jsonData] holds, the value read is a function,
    [JSON.stringify] of it is [undefined], and [calculateHash] throws:
    [detectChanges] ends with a [TypeError] instead of reporting the key
    removed; nothing is emitted and the tree is untouched. *)
Theorem inherited_method_name_throws (s : Frame) (jsonData : Json)
        (k : string) (c : TreeValue) (rest : HashTreeNode) :
  children (hashTree s) = (k, c) :: rest ->
  get jsonData k = Method ->
  strict_equal (root_digest s) (digest jsonData) = false ->
  completion (detectChanges jsonData) s = Throw HashOfUndefined
  /\ emitted_by (detectChanges jsonData) s = []
  /\ hashTree (after (detectChanges jsonData) s) = hashTree s.
Proof.
  intros Hc Hg Hroot.
  assert (Hrun : detectChanges jsonData s = (Throw HashOfUndefined, hashed 1 s)).
  { rewrite detectChanges_run, Hroot.
    unfold bind at 1. unfold bind at 1. unfold processExistingKeys at 1.
    unfold bind at 1. unfold read at 1. cbn [hashTree hashed].
    rewrite (first_child_throws _ jsonData "" HashOfUndefined _ _ k c rest Hc);
      [reflexivity|].
    unfold processExistingKey. rewrite (first_child_not_hash _ k c rest Hc).
    cbv zeta.
    assert (Hhas : has jsonData k = Some true).
    { destruct jsonData as [| b | z | str | items | props];
        try (unfold has; now rewrite Hg); simpl in Hg; try discriminate.
      destruct (char_at k str); discriminate. }
    rewrite Hhas. unfold processKeyValue. rewrite Hg. reflexivity. }
  unfold completion, emitted_by, after. rewrite Hrun.
  cbn [fst snd hashed events hashTree]. repeat split. apply skipn_all.
Qed.

Lemma inherited_method_name_throws_witness :
  let s := after (initialize (JObj [("constructor", JNum 1)])) constructor in
  let c := Node [("__hash", Text (digest (JNum 1)))] in
  children (hashTree s) = [("constructor", c)]
  /\ get (JObj []) "constructor" = Method
  /\ strict_equal (root_digest s) (digest (JObj [])) = false
  /\ completion (detectChanges (JObj [])) s = Throw HashOfUndefined
  /\ emitted_by (detectChanges (JObj [])) s = []
  /\ hashTree (after (detectChanges (JObj [])) s) = hashTree s.
Proof.
  intros s c.
  assert (Hc : children (hashTree s) = [("constructor", c)])
    by (vm_compute; reflexivity).
  assert (Hg : get (JObj []) "constructor" = Method) by reflexivity.
  assert (Hr : strict_equal (root_digest s) (digest (JObj [])) = false)
    by (vm_compute; reflexivity).
  split; [exact Hc|]. split; [exact Hg|]. split; [exact Hr|].
  exact (inherited_method_name_throws s (JObj []) "constructor" c [] Hc Hg Hr).
Defined.

(** ** Snapshots with safe names never make the engine throw *)

Lemma tidy_Node (props : HashTreeNode) :
  tidy (Node props) =
  match own_get "__hash" props with Some (Text _) => true | _ => false end
  && forallb (fun '(key, child) =>
                (key =? "__hash") || (safe_name key && tidy child)) props.
Proof. reflexivity. Qed.

Lemma tidy_iff (tree : HashTreeNode) :
  tidy (Node tree) = true <->
  (exists h, own_get "__hash" tree = Some (Text h)) /\ Forall tidy_entry tree.
Proof.
  rewrite tidy_Node, andb_true_iff, forallb_forall, Forall_forall.
  unfold tidy_entry.
  split; intros [Hd Hk]; split.
  - destruct (own_get "__hash" tree) as [[h|]|]; try discriminate. eauto.
  - intros [k c] Hx. specialize (Hk _ Hx). simpl in *.
    apply orb_true_iff in Hk. destruct Hk as [Hk|Hk]; [left|right].
    + now apply String.eqb_eq.
    + now apply andb_true_iff.
  - destruct Hd as (h & ->). reflexivity.
  - intros [k c] Hx. specialize (Hk _ Hx). simpl in *.
    apply orb_true_iff. destruct Hk as [->|Hk]; [left|right].
    + apply String.eqb_refl.
    + now apply andb_true_iff.
Qed.

Lemma mem_app (key : string) (names names' : list string) :
  mem key (names ++ names')%list = mem key names || mem key names'.
Proof. apply existsb_app. Qed.

Lemma safe_name_spec (key : string) :
  safe_name key = true ->
  key <> "__hash" /\ (key =? "__proto__") = false
  /\ mem key Object_prototype_names = false
  /\ mem key (Array_prototype_names ++ Object_prototype_names)%list = false.
Proof.
  unfold safe_name. intros H. apply andb_true_iff in H. destruct H as [Hh Hm].
  apply negb_true_iff in Hh, Hm. apply String.eqb_neq in Hh.
  assert (Ho : mem key Object_prototype_names = false).
  { rewrite mem_app in Hm. now apply orb_false_iff in Hm. }
  repeat split; try assumption. now apply not_proto.
Qed.

Lemma safe_name_decimal (z : Z) : safe_name (decimal z) = true.
Proof.
  unfold decimal. destruct (Z.to_int z) as [u|u]; [|reflexivity].
  destruct u; reflexivity.
Qed.

Lemma tidy_leaf (h : string) : tidy (Node [("__hash", Text h)]) = true.
Proof. reflexivity. Qed.

Lemma tidy_child (tree : HashTreeNode) (key : string) (child : TreeValue) :
  tidy (Node tree) = true -> key <> "__hash" -> own_get key tree = Some child ->
  safe_name key = true
  /\ exists props, child = Node props /\ tidy (Node props) = true.
Proof.
  intros Hs Hne Hget. apply tidy_iff in Hs. destruct Hs as [_ Hk].
  apply (own_get_Forall _ key child tree Hk) in Hget.
  destruct Hget as [?|[Hsafe Hc]]; [contradiction|]. simpl in *.
  split; [assumption|]. destruct child as [t|props]; [discriminate|eauto].
Qed.

Lemma tidy_keys (tree : HashTreeNode) (key : string) :
  tidy (Node tree) = true -> In key (map fst tree) -> key <> "__hash" ->
  safe_name key = true.
Proof.
  intros Hs Hin Hne. apply tidy_iff in Hs. destruct Hs as [_ Hk].
  apply in_map_iff in Hin. destruct Hin as ([k c] & <- & Hin).
  rewrite Forall_forall in Hk. destruct (Hk _ Hin) as [?|[? _]];
    [contradiction|assumption].
Qed.

Lemma tidy_define (tree : HashTreeNode) (key : string) (child : TreeValue) :
  tidy (Node tree) = true -> safe_name key = true -> tidy child = true ->
  tidy (Node (define key child tree)) = true.
Proof.
  intros Hs Hsafe Hc. apply tidy_iff in Hs. destruct Hs as [(h & Hh) Hk].
  destruct (safe_name_spec key Hsafe) as (Hne & _).
  apply tidy_iff. split.
  - exists h. rewrite own_get_define_other; [assumption|congruence].
  - apply Forall_define; [assumption|now right].
Qed.

Lemma tidy_assign (tree : HashTreeNode) (key : string) (child : TreeValue) :
  tidy (Node tree) = true -> safe_name key = true -> tidy child = true ->
  tidy (Node (assign key child tree)) = true.
Proof.
  intros Hs Hsafe Hc. unfold assign.
  destruct ((key =? "__proto__") && negb (own_has key tree)); [assumption|].
  now apply tidy_define.
Qed.

Lemma tidy_replace (tree : HashTreeNode) (key : string) (child : TreeValue) :
  tidy (Node tree) = true -> safe_name key = true -> tidy child = true ->
  tidy (Node (replace_value key child tree)) = true.
Proof.
  intros Hs Hsafe Hc. apply tidy_iff in Hs. destruct Hs as [(h & Hh) Hk].
  destruct (safe_name_spec key Hsafe) as (Hne & _).
  apply tidy_iff. split.
  - exists h. rewrite own_get_replace_other; [assumption|congruence].
  - apply Forall_replace; [assumption|now right].
Qed.

Lemma tidy_delete (tree : HashTreeNode) (key : string) :
  tidy (Node tree) = true -> key <> "__hash" ->
  tidy (Node (delete key tree)) = true.
Proof.
  intros Hs Hne. apply tidy_iff in Hs. destruct Hs as [(h & Hh) Hk].
  apply tidy_iff. split.
  - exists h. rewrite own_get_delete_other; [assumption|congruence].
  - now apply Forall_delete.
Qed.

(** Storing a digest makes any node with tidy children tidy. *)
Lemma tidy_digest (tree : HashTreeNode) (h : string) :
  Forall tidy_entry tree ->
  tidy (Node (assign "__hash" (Text h) tree)) = true.
Proof.
  intros Hk. apply tidy_iff. split.
  - exists h. unfold assign. simpl. apply own_get_define_same.
  - apply Forall_assign; [assumption|now left].
Qed.

Lemma tidy_spread (source tree : HashTreeNode) :
  tidy (Node tree) = true ->
  Forall (fun kc => safe_name (fst kc) = true /\ tidy (snd kc) = true) source ->
  tidy (Node (spread source tree)) = true.
Proof.
  unfold spread. intros Hs Hsrc. revert tree Hs.
  induction Hsrc as [|[k c] rest [Hk Hc] Hrest IH]; simpl; intros tree Hs;
    [assumption|].
  apply IH. now apply tidy_define.
Qed.

Lemma tidy_json_prop (props : list (string * Json)) (key : string) (v : Json) :
  tidy_json (JObj props) = true -> own_get key props = Some v ->
  safe_name key = true /\ tidy_json v = true.
Proof.
  simpl. rewrite forallb_forall. intros Hf Hget.
  apply own_get_Some_In in Hget. specialize (Hf _ Hget). simpl in Hf.
  now apply andb_true_iff in Hf.
Qed.

Lemma tidy_json_item (items : list Json) (v : Json) :
  tidy_json (JArr items) = true -> In v items -> tidy_json v = true.
Proof.
  simpl. intros Hf Hin. apply andb_true_iff in Hf. destruct Hf as [_ Hf].
  rewrite forallb_forall in Hf. now apply Hf.
Qed.

Lemma tidy_built (data : Json) :
  tidy_json data = true -> tidy (Node (built data)) = true.
Proof.
  induction data as [data IH] using Json_depth_ind. intros Hf.
  destruct (atomic data) eqn:Ha.
  { rewrite built_atomic by assumption. apply tidy_leaf. }
  destruct data as [| b | z | str | items | props]; try discriminate Ha.
  - rewrite built_array. apply tidy_spread; [apply tidy_leaf|].
    unfold from_entries. apply Forall_spread; [|constructor].
    apply Forall_combine. intros key c Hkey Hc. simpl. split.
    + unfold indices in Hkey. apply in_map_iff in Hkey.
      destruct Hkey as (i & <- & _). apply safe_name_decimal.
    + apply in_map_iff in Hc. destruct Hc as (v & <- & Hv).
      apply IH; [now apply depth_item|]. now apply (tidy_json_item items).
  - unfold atomic in Ha. simpl in Ha.
    rewrite built_object by assumption. cbv zeta.
    apply tidy_spread; [apply tidy_leaf|].
    assert (Hkeys : forall key, In key (sort (map fst props)) ->
              safe_name (fst (key, child_of props key)) = true
              /\ tidy (snd (key, child_of props key)) = true).
    { intros key Hk. apply (Permutation_in _ (sort_perm _)) in Hk.
      destruct (own_get_In key props Hk) as (v & Hv).
      destruct (tidy_json_prop props key v Hf Hv) as [Hne Hfv].
      unfold child_of. rewrite Hv. simpl. split; [assumption|].
      apply IH; [now apply depth_prop with (key := key)|assumption]. }
    revert Hkeys. generalize (sort (map fst props)).
    assert (H0 : Forall (fun kc : string * TreeValue =>
                   safe_name (fst kc) = true /\ tidy (snd kc) = true) [])
      by constructor.
    revert H0. generalize (@nil (string * TreeValue)).
    intros acc Hacc keys. revert acc Hacc.
    induction keys as [|key keys IHk]; simpl; intros acc Hacc Hkeys; [assumption|].
    apply IHk; [|intros; apply Hkeys; now right].
    apply Forall_assign; [assumption|]. apply Hkeys. now left.
Qed.

(** What a safe name reads from an object or an array: an own value or
    [undefined], never something inherited. *)
Lemma get_safe (jsonData : Json) (key : string) :
  is_object jsonData = true -> safe_name key = true ->
  (exists v, get jsonData key = Value v) \/ get jsonData key = Undefined.
Proof.
  intros Ho Hsafe. destruct (safe_name_spec key Hsafe) as (_ & Hp & Hm & Hma).
  destruct jsonData as [| b | z | str | items | props]; try discriminate Ho;
    cbn [get].
  - destruct (element key items) as [w|]; [left; eauto|].
    destruct (key =? "length"); [left; eauto|].
    right. unfold inherited. now rewrite Hp, Hma.
  - destruct (own_get key props) as [w|]; [left; eauto|].
    right. unfold inherited. now rewrite Hp, Hm.
Qed.

Lemma tidy_json_get (jsonData : Json) (key : string) (v : Json) :
  tidy_json jsonData = true -> get jsonData key = Value v -> tidy_json v = true.
Proof.
  intros Hf Hg. destruct jsonData as [| b | z | str | items | props];
    simpl in Hg; try discriminate.
  - unfold char_at in Hg. destruct (array_index key); [|discriminate].
    destruct (String.get _ str); simpl in Hg; [|discriminate].
    injection Hg as <-. reflexivity.
  - destruct (element key items) as [w|] eqn:E.
    + injection Hg as <-. unfold element in E.
      destruct (array_index key); [|discriminate].
      apply nth_error_In in E. now apply (tidy_json_item items).
    + destruct (key =? "length"); [injection Hg as <-; reflexivity|].
      unfold inherited in Hg. destruct (key =? "__proto__"); [discriminate|].
      destruct (mem key _); discriminate.
  - destruct (own_get key props) as [w|] eqn:E.
    + injection Hg as <-. now apply (tidy_json_prop props key).
    + unfold inherited in Hg. destruct (key =? "__proto__"); [discriminate|].
      destruct (mem key _); discriminate.
Qed.

(** Every key [for ... in] visits has a safe name and a value. *)
Lemma for_in_get (jsonData : Json) (key : string) :
  is_object jsonData = true -> tidy_json jsonData = true ->
  In key (for_in jsonData) ->
  safe_name key = true /\ exists v, get jsonData key = Value v.
Proof.
  intros Ho Hf Hin.
  destruct jsonData as [| b | z | str | items | props]; try discriminate Ho.
  - simpl in Hin. unfold indices in Hin. apply in_map_iff in Hin.
    destruct Hin as (i & <- & Hi). apply in_seq in Hi.
    split; [apply safe_name_decimal|].
    simpl in Hf. apply andb_true_iff in Hf. destruct Hf as [Hlen _].
    apply Z.leb_le in Hlen.
    destruct (nth_error items i) as [y|] eqn:E.
    + exists y. apply get_element; [lia|assumption].
    + apply nth_error_None in E. lia.
  - simpl in Hin. destruct (own_get_In key props Hin) as (v & Hv).
    split; [now apply (tidy_json_prop props key v)|].
    exists v. simpl. now rewrite Hv.
Qed.

Lemma succeeds_ret {A} (a : A) : succeeds (ret a).
Proof. intros s H. now exists a, s. Qed.

Lemma succeeds_emit (kind : Kind) (p : string) : succeeds (emit kind p).
Proof. intros s H. eexists _, _. split; [reflexivity|exact H]. Qed.

Lemma succeeds_digest (text : string) : succeeds (calculateHash (Some text)).
Proof. intros s H. eexists _, _. split; [reflexivity|exact H]. Qed.

Lemma succeeds_mutate (f : HashTreeNode -> HashTreeNode) :
  (forall tree, tidy (Node tree) = true -> tidy (Node (f tree)) = true) ->
  succeeds (mutate f).
Proof. intros Hf s H. eexists _, _. split; [reflexivity|]. apply Hf, H. Qed.

Lemma succeeds_bind {A B} (m : M A) (k : A -> M B) :
  succeeds m -> (forall a, succeeds (k a)) -> succeeds (bind m k).
Proof.
  intros Hm Hk s H. destruct (Hm s H) as (a & s1 & E1 & H1).
  destruct (Hk a s1 H1) as (b & s2 & E2 & H2).
  exists b, s2. split; [|assumption]. now rewrite (bind_normal _ _ _ _ _ E1).
Qed.

(** After [read], the continuation may rely on the node it was given. *)
Lemma succeeds_read {B} (k : HashTreeNode -> M B) :
  (forall s, tidy (Node (hashTree s)) = true ->
     exists b s', k (hashTree s) s = (Normal b, s')
                  /\ tidy (Node (hashTree s')) = true) ->
  succeeds (bind read k).
Proof. intros Hk s H. exact (Hk s H). Qed.

Lemma succeeds_for_each {A} (items : list A) (body : A -> M unit) :
  (forall x, In x items -> succeeds (body x)) -> succeeds (for_each items body).
Proof.
  induction items as [|x rest IH]; intros H; simpl.
  - apply succeeds_ret.
  - apply succeeds_bind; [apply H; now left|].
    intros _. apply IH. intros; apply H; now right.
Qed.

Lemma own_has_replace {V} (key key' : string) (v : V) (o : list (string * V)) :
  own_has key' (replace_value key v o) = own_has key' o.
Proof.
  unfold own_has. destruct (String.eqb_spec key' key) as [->|Hne].
  - rewrite own_get_replace_same. now destruct (own_get key o).
  - now rewrite own_get_replace_other.
Qed.

Lemma succeeds_within {A} (key : string) (m : M A) (s : Frame) :
  succeeds m -> tidy (Node (hashTree s)) = true -> key <> "__hash" ->
  own_has key (hashTree s) = true ->
  exists a s', within key m s = (Normal a, s')
               /\ tidy (Node (hashTree s')) = true
               /\ forall k, own_has k (hashTree s') = own_has k (hashTree s).
Proof.
  intros Hm Hs Hne Hown. unfold own_has in Hown. unfold within.
  destruct (own_get key (hashTree s)) as [child|] eqn:E; [|discriminate].
  destruct (tidy_child _ _ _ Hs Hne E) as (Hsafe & props & -> & Hc).
  destruct (Hm (mkFrame props (events s) (hashCalls s)) Hc)
    as (a & s1 & E1 & H1).
  rewrite E1. eexists _, _. split; [reflexivity|]. simpl. split.
  - now apply tidy_replace.
  - intros k. apply own_has_replace.
Qed.

Lemma storeIfChanged_tidy (h key currentPath : string) (s : Frame) :
  tidy (Node (hashTree s)) = true -> key <> "__hash" ->
  own_has key (hashTree s) = true ->
  exists s', storeIfChanged h key currentPath s = (Normal tt, s')
             /\ tidy (Node (hashTree s')) = true
             /\ forall k, own_has k (hashTree s') = own_has k (hashTree s).
Proof.
  intros Hs Hne Hown. unfold own_has in Hown.
  unfold storeIfChanged, bind, read.
  destruct (own_get key (hashTree s)) as [child|] eqn:E; [|discriminate].
  destruct (tidy_child _ _ _ Hs Hne E) as (Hsafe & props & -> & Hc).
  destruct (strict_equal _ h).
  - exists s. auto.
  - simpl. eexists. split; [reflexivity|]. simpl. split.
    + apply tidy_replace; [assumption|assumption|].
      apply tidy_digest. apply tidy_iff in Hc. apply Hc.
    + intros k. apply own_has_replace.
Qed.

Section PassesSucceed.
Variable self : Json -> string -> M unit.
Variable bound : nat.
Hypothesis self_succeeds :
  forall data path, depth data < bound -> is_object data = true ->
    tidy_json data = true -> succeeds (self data path).

Lemma processExistingKey_tidy jsonData path key (s : Frame) :
  depth jsonData <= bound -> is_object jsonData = true ->
  tidy_json jsonData = true ->
  tidy (Node (hashTree s)) = true ->
  (key <> "__hash" -> safe_name key = true) ->
  (key <> "__hash" -> has jsonData key = Some true ->
   own_has key (hashTree s) = true) ->
  exists s', processExistingKey self jsonData path key s = (Normal tt, s')
             /\ tidy (Node (hashTree s')) = true
             /\ forall k, has jsonData k = Some true ->
                  own_has k (hashTree s) = true ->
                  own_has k (hashTree s') = true.
Proof.
  intros Hd Ho Hf Hs Hsafe Hown. unfold processExistingKey.
  destruct (key =? "__hash") eqn:E; [exists s; auto|].
  apply String.eqb_neq in E. specialize (Hsafe E). specialize (Hown E).
  cbv zeta. generalize (join_path path key). intros currentPath.
  destruct (has jsonData key) as [[|]|] eqn:Eh.
  - specialize (Hown eq_refl).
    assert (Hstore : forall h,
      exists s', (newPrimitiveHash <- calculateHash (Some h) ;;
                  storeIfChanged newPrimitiveHash key currentPath) s
                 = (Normal tt, s')
                 /\ tidy (Node (hashTree s')) = true
                 /\ forall k, has jsonData k = Some true ->
                      own_has k (hashTree s) = true ->
                      own_has k (hashTree s') = true).
    { intros h.
      destruct (storeIfChanged_tidy (sha256_hex h) key currentPath (hashed 1 s)
                  Hs E Hown) as (s' & E' & Hs' & Hk').
      exists s'. split; [exact E'|]. split; [exact Hs'|].
      intros k _ Hk. now rewrite Hk'. }
    unfold processKeyValue.
    destruct (get_safe jsonData key Ho Hsafe) as [(v & Hg)|Hg].
    2:{ unfold has in Eh. rewrite Hg in Eh.
        destruct jsonData; discriminate. }
    rewrite Hg. destruct (is_object v) eqn:Eo; [|apply Hstore].
    unfold processObjectValue. destruct (has_type v); [apply Hstore|].
    unfold bind at 1. unfold read at 1. cbv beta iota.
    pose proof Hown as Hown'. unfold own_has in Hown'.
    destruct (own_get key (hashTree s)) as [child|] eqn:Ec; [|discriminate].
    destruct (tidy_child _ _ _ Hs E Ec) as (_ & props & -> & _).
    unfold bind at 1. unfold ret at 1. cbv beta iota.
    assert (Hself : succeeds (self v currentPath)).
    { apply self_succeeds.
      - pose proof (depth_get jsonData key v Hg Eo). lia.
      - exact Eo.
      - now apply (tidy_json_get jsonData key). }
    destruct (succeeds_within key _ s Hself Hs E Hown)
      as ([] & s' & E' & Hs' & Hk').
    exists s'. split; [exact E'|]. split; [exact Hs'|].
    intros k _ Hk. now rewrite Hk'.
  - eexists. split; [reflexivity|]. simpl. split.
    + now apply tidy_delete.
    + intros k Hk Hk'. unfold own_has.
      rewrite own_get_delete_other; [exact Hk'|].
      intros ->. congruence.
  - destruct jsonData; discriminate.
Qed.

Lemma processExistingKeys_loop_tidy jsonData path (keys : list string) :
  depth jsonData <= bound -> is_object jsonData = true ->
  tidy_json jsonData = true ->
  forall s, tidy (Node (hashTree s)) = true ->
  (forall key, In key keys -> key <> "__hash" ->
     safe_name key = true
     /\ (has jsonData key = Some true -> own_has key (hashTree s) = true)) ->
  exists s', for_each keys (processExistingKey self jsonData path) s
             = (Normal tt, s')
             /\ tidy (Node (hashTree s')) = true.
Proof.
  intros Hd Ho Hf. induction keys as [|key keys IH]; intros s Hs Hkeys.
  - exists s. auto.
  - destruct (processExistingKey_tidy jsonData path key s Hd Ho Hf Hs)
      as (s1 & E1 & H1 & Hk1).
    + intros Hne. apply Hkeys; [now left|assumption].
    + intros Hne. apply Hkeys; [now left|assumption].
    + destruct (IH s1 H1) as (s2 & E2 & H2).
      * intros k Hin Hne. destruct (Hkeys k (or_intror Hin) Hne) as [Hsafe Hown].
        split; [assumption|]. intros Hh. apply Hk1; auto.
      * exists s2. split; [|assumption].
        simpl. now rewrite (bind_normal _ _ _ _ _ E1).
Qed.

Lemma processExistingKeys_succeeds jsonData path :
  depth jsonData <= bound -> is_object jsonData = true ->
  tidy_json jsonData = true ->
  succeeds (processExistingKeys self jsonData path).
Proof.
  intros Hd Ho Hf s Hs. unfold processExistingKeys, bind at 1, read at 1.
  cbv beta iota.
  destruct (processExistingKeys_loop_tidy jsonData path (map fst (hashTree s))
              Hd Ho Hf s Hs) as (s' & E' & Hs').
  - intros key Hin Hne. split; [now apply (tidy_keys (hashTree s))|].
    intros _. now apply own_has_iff.
  - now exists tt, s'.
Qed.

End PassesSucceed.

Lemma processAddedKeys_succeeds jsonData path :
  is_object jsonData = true -> tidy_json jsonData = true ->
  succeeds (processAddedKeys jsonData path).
Proof.
  intros Ho Hf. unfold processAddedKeys. apply succeeds_for_each.
  intros key Hin. destruct (for_in_get jsonData key Ho Hf Hin) as (Hsafe & v & Hg).
  unfold processAddedKey. cbv zeta. apply succeeds_read. intros s Hs.
  destruct (in_tree key (hashTree s)); [now exists tt, s|].
  revert s Hs. apply succeeds_bind; [apply succeeds_emit|]. intros _.
  rewrite Hg. intros s Hs.
  assert (Hb : exists n,
             (if is_object v then buildHashTree v else leaf (Value v)) s
             = (Normal (built v), hashed n s)).
  { destruct (is_object v) eqn:Eo.
    - eexists. apply buildHashTree_returns.
    - exists 1. rewrite (returns_leaf v s). f_equal. f_equal. symmetry.
      apply built_atomic. unfold atomic. now rewrite Eo. }
  destruct Hb as (n & Hb).
  rewrite (bind_normal _ _ _ _ _ Hb).
  eexists _, _. split; [reflexivity|]. simpl.
  apply tidy_assign; [assumption|assumption|].
  apply tidy_built. now apply (tidy_json_get jsonData key).
Qed.

Lemma recomputeHash_succeeds : succeeds recomputeHash.
Proof.
  intros s Hs. rewrite recomputeHash_run. eexists _, _.
  split; [reflexivity|]. simpl. apply tidy_digest.
  apply tidy_iff in Hs. apply Hs.
Qed.

Lemma findDifferencesAndUpdate_at_succeeds (fuel : nat) :
  forall data path, depth data < fuel -> is_object data = true ->
    tidy_json data = true ->
    succeeds (findDifferencesAndUpdate_at fuel data path).
Proof.
  induction fuel as [|fuel IH]; intros data path Hd Ho Hf; [lia|].
  simpl. intros s Hs. rewrite body_run.
  destruct (strict_equal _ _); [now exists tt, (hashed 1 s)|].
  revert Hs. change (hashTree s) with (hashTree (hashed 1 s)).
  generalize (hashed 1 s). clear s.
  change (succeeds (processExistingKeys (findDifferencesAndUpdate_at fuel) data path ;;
                    processAddedKeys data path ;; recomputeHash)).
  apply succeeds_bind.
  { apply (processExistingKeys_succeeds _ fuel IH); [lia|assumption|assumption]. }
  intros _. apply succeeds_bind; [now apply processAddedKeys_succeeds|].
  intros _. apply recomputeHash_succeeds.
Qed.

(** X12.  Names that are safe -- neither [__hash] nor a name an object or
    an array inherits from its prototype -- keep the engine out of every
    [TypeError]: when the stored tree is tidy (each node has a digest string
    and child nodes under safe names) and the snapshot is an object or an
    array whose property names are all safe, [detectChanges] returns the
    stored tree, and that tree is tidy again.  The tree of a new engine is
    tidy, and so is the tree [initialize] builds from such a snapshot. *)
Theorem safe_names_never_throw (jsonData : Json) (s : Frame) :
  is_object jsonData = true -> tidy_json jsonData = true ->
  tidy (Node (hashTree s)) = true ->
  completion (detectChanges jsonData) s
  = Normal (hashTree (after (detectChanges jsonData) s))
  /\ tidy (Node (hashTree (after (detectChanges jsonData) s))) = true
  /\ tidy (Node (hashTree (after (initialize jsonData) s))) = true
  /\ tidy (Node (hashTree constructor)) = true.
Proof.
  intros Ho Hf Hs.
  destruct (findDifferencesAndUpdate_at_succeeds (S (depth jsonData)) jsonData ""
              (Nat.lt_succ_diag_r _) Ho Hf s Hs) as ([] & s' & E' & Hs').
  unfold completion, after, detectChanges, findDifferencesAndUpdate.
  rewrite (bind_normal _ _ _ _ _ E'). unfold read. simpl.
  split; [reflexivity|]. split; [exact Hs'|]. split; [|reflexivity].
  rewrite initialize_returns. simpl. now apply tidy_built.
Qed.

Lemma safe_names_never_throw_witness :
  let jsonData := JObj [("a", JArr [JNum 1; JStr "x"]); ("b", JNull)] in
  let s := after (initialize (JObj [("a", JObj [("c", JBool true)]);
                                     ("d", JNum 2)])) constructor in
  completion (detectChanges jsonData) s
  = Normal (hashTree (after (detectChanges jsonData) s))
  /\ tidy (Node (hashTree (after (detectChanges jsonData) s))) = true
  /\ tidy (Node (hashTree (after (initialize jsonData) s))) = true
  /\ tidy (Node (hashTree constructor)) = true.
Proof.
  intros jsonData s.
  exact (safe_names_never_throw jsonData s eq_refl eq_refl
           ltac:(vm_compute; reflexivity)).
Defined.

(** ** Events lie below the path of the call *)

Lemma prefix_append (a b : string) : String.prefix a (a ++ b) = true.
Proof.
  induction a as [|c a IH]; simpl; [now destruct b|].
  now destruct (ascii_dec c c).
Qed.

Lemma prefix_append_l (a b q : string) :
  String.prefix (a ++ b) q = true -> String.prefix a q = true.
Proof.
  revert q. induction a as [|c a IH]; intros q; [now destruct q|].
  destruct q as [|d q]; simpl; [discriminate|].
  destruct (ascii_dec c d); [apply IH|discriminate].
Qed.

Lemma append_assoc (a b c : string) : (a ++ b) ++ c = a ++ b ++ c.
Proof. induction a as [|x a IH]; simpl; [reflexivity|now rewrite IH]. Qed.

Lemma append_nonempty (a b : string) : a <> "" -> a ++ b <> "".
Proof. destruct a; [congruence|discriminate]. Qed.

Lemma join_path_below (p key : string) :
  p <> "" -> join_path p key = (p ++ ".") ++ key.
Proof.
  intros H. unfold join_path. apply String.eqb_neq in H. rewrite H.
  now rewrite append_assoc.
Qed.

Lemma under_join_path (p key : string) (kind : Kind) :
  under p (Difference kind (join_path p key)).
Proof.
  destruct (String.eqb_spec p "") as [->|Hne]; [now left|right].
  rewrite join_path_below by assumption. apply prefix_append.
Qed.

Lemma under_nested (p key : string) (e : DifferenceEvent) :
  under (join_path p key) e -> join_path p key <> "" -> under p e.
Proof.
  intros [H|H] Hne; [contradiction|].
  destruct (String.eqb_spec p "") as [->|Hp]; [now left|right].
  rewrite join_path_below in H by assumption.
  rewrite append_assoc in H. now apply prefix_append_l in H.
Qed.

Lemma skipn_exact {A} (l l' : list A) : skipn (List.length l) (l ++ l') = l'.
Proof. induction l as [|x l IH]; [reflexivity|exact IH]. Qed.

Section Appends.
Variable P : DifferenceEvent -> Prop.

Lemma appends_silent {A} (m : M A) :
  (forall s, events (after m s) = events s) -> appends P m.
Proof.
  intros H s. exists []. now rewrite app_nil_r.
Qed.

Lemma appends_emit (kind : Kind) (p : string) :
  P (Difference kind p) -> appends P (emit kind p).
Proof. intros H s. exists [Difference kind p]. split; [reflexivity|auto]. Qed.

Lemma appends_calculateHash (value : option string) :
  appends P (calculateHash value).
Proof. apply appends_silent. intros s. now destruct value. Qed.

Lemma appends_bind {A B} (m : M A) (k : A -> M B) :
  appends P m -> (forall a, appends P (k a)) -> appends P (bind m k).
Proof.
  intros Hm Hk s. destruct (Hm s) as (n1 & E1 & F1).
  unfold after, bind in *. destruct (m s) as [[a| | |] s1]; simpl in *;
    try (exists n1; now split).
  destruct (Hk a s1) as (n2 & E2 & F2). exists (n1 ++ n2)%list.
  split; [|now apply Forall_app].
  unfold after in E2. now rewrite E2, E1, app_assoc.
Qed.

Lemma appends_for_each {A} (items : list A) (body : A -> M unit) :
  (forall x, appends P (body x)) -> appends P (for_each items body).
Proof.
  intros H. induction items as [|x rest IH]; simpl.
  - now apply appends_silent.
  - apply appends_bind; [apply H|]. intros _. exact IH.
Qed.

Lemma appends_within {A} (key : string) (m : M A) :
  appends P m -> appends P (within key m).
Proof.
  intros Hm s. unfold after, within.
  destruct (own_get key (hashTree s)) as [[t|child]|];
    try (exists []; now rewrite app_nil_r).
  destruct (Hm (mkFrame child (events s) (hashCalls s))) as (new & E & F).
  unfold after in E.
  destruct (m (mkFrame child (events s) (hashCalls s))) as [r s'].
  exists new. now split.
Qed.

Lemma appends_returns {A} (m : M A) (a : A) (n : nat) :
  returns m a n -> appends P m.
Proof. intros H. apply appends_silent. intros s. unfold after. now rewrite H. Qed.

Lemma appends_leaf (x : Lookup) : appends P (leaf x).
Proof.
  unfold leaf. apply appends_bind; [apply appends_calculateHash|].
  intros h. now apply appends_silent.
Qed.

Lemma appends_storeIfChanged (h key currentPath : string) :
  P (Difference modified currentPath) ->
  appends P (storeIfChanged h key currentPath).
Proof.
  intros HP. unfold storeIfChanged. apply appends_bind; [now apply appends_silent|].
  intros tree. destruct (own_get key tree) as [child|];
    [|now apply appends_silent].
  destruct (strict_equal _ _); [now apply appends_silent|].
  apply appends_bind; [now apply appends_emit|]. intros _.
  destruct child; now apply appends_silent.
Qed.

End Appends.

Lemma appends_weaken {A} (P Q : DifferenceEvent -> Prop) (m : M A) :
  (forall e, P e -> Q e) -> appends P m -> appends Q m.
Proof.
  intros H Hm s. destruct (Hm s) as (new & E & F). exists new.
  split; [assumption|]. revert F. apply Forall_impl. exact H.
Qed.

Section PassesAppend.
Variable self : Json -> string -> M unit.
Hypothesis self_appends :
  forall data p, p <> "" -> appends (under p) (self data p).
Hypothesis self_grows :
  forall data, appends (fun _ => True) (self data "").

Lemma appends_nested (p key : string) (data : Json) :
  appends (under p) (self data (join_path p key)).
Proof.
  destruct (String.eqb_spec (join_path p key) "") as [E|Hne].
  - assert (Hp : p = "").
    { destruct (String.eqb_spec p "") as [->|Hp]; [reflexivity|].
      rewrite join_path_below in E by assumption.
      exfalso. revert E. apply append_nonempty. now apply append_nonempty. }
    rewrite E. apply appends_weaken with (P := fun _ => True);
      [intros e _; now left|apply self_grows].
  - apply appends_weaken with (P := under (join_path p key));
      [|now apply self_appends].
    intros e He. now apply (under_nested p key).
Qed.

Lemma appends_processKeyValue jsonData p key :
  appends (under p) (processKeyValue self jsonData key (join_path p key)).
Proof.
  assert (Hstore : forall text,
            appends (under p)
              (newPrimitiveHash <- calculateHash text ;;
               storeIfChanged newPrimitiveHash key (join_path p key))).
  { intros text. apply appends_bind; [apply appends_calculateHash|].
    intros h. apply appends_storeIfChanged. apply under_join_path. }
  unfold processKeyValue, processPrimitiveValue.
  destruct (get jsonData key) as [v| | |]; try apply Hstore;
    [|now apply appends_silent].
  destruct (is_object v); [|apply Hstore].
  unfold processObjectValue. destruct (has_type v); [apply Hstore|].
  apply appends_bind; [now apply appends_silent|]. intros tree.
  apply appends_bind.
  - destruct (own_get key tree) as [[t|c]|]; now apply appends_silent.
  - intros _. apply appends_within. apply appends_nested.
Qed.

Lemma appends_body jsonData p :
  appends (under p) (findDifferencesAndUpdate_body self jsonData p).
Proof.
  unfold findDifferencesAndUpdate_body.
  apply appends_bind; [apply appends_calculateHash|]. intros newHash.
  apply appends_bind; [now apply appends_silent|]. intros tree.
  destruct (strict_equal _ _); [now apply appends_silent|].
  apply appends_bind.
  { unfold processExistingKeys. apply appends_bind; [now apply appends_silent|].
    intros t. apply appends_for_each. intros key. unfold processExistingKey.
    destruct (key =? "__hash"); [now apply appends_silent|]. cbv zeta.
    destruct (has jsonData key) as [[|]|].
    - apply appends_processKeyValue.
    - apply appends_bind; [apply appends_emit, under_join_path|]. intros _.
      now apply appends_silent.
    - now apply appends_silent. }
  intros _. apply appends_bind.
  { unfold processAddedKeys. apply appends_for_each. intros key.
    unfold processAddedKey. cbv zeta.
    apply appends_bind; [now apply appends_silent|]. intros t.
    destruct (in_tree key t); [now apply appends_silent|].
    apply appends_bind; [apply appends_emit, under_join_path|]. intros _.
    apply appends_bind; [|intros child; now apply appends_silent].
    destruct (get jsonData key) as [v| | |];
      try apply appends_leaf; [|now apply appends_silent].
    destruct (is_object v); [|apply appends_leaf].
    eapply appends_returns, buildHashTree_returns. }
  intros _. unfold recomputeHash.
  apply appends_bind; [now apply appends_silent|]. intros t.
  apply appends_bind; [apply appends_calculateHash|]. intros h.
  now apply appends_silent.
Qed.

End PassesAppend.

Lemma appends_findDifferencesAndUpdate_at (fuel : nat) :
  forall data p, appends (under p) (findDifferencesAndUpdate_at fuel data p).
Proof.
  induction fuel as [|fuel IH]; intros data p; simpl.
  - now apply appends_silent.
  - apply appends_body.
    + intros d q _. apply IH.
    + intros d. apply appends_weaken with (P := under ""); [auto|apply IH].
Qed.

(** X13.  A call of [findDifferencesAndUpdate] only appends to the event
    log, and, when its path is not empty, every event it emits -- its own
    and those of the calls nested in it -- carries a path that begins with
    that path and a dot: the engine never reports outside the subtree it
    was called for.  [detectChanges] likewise only appends to the log. *)
Theorem events_stay_below_the_path (jsonData : Json) (p : string) (s : Frame) :
  let call := findDifferencesAndUpdate jsonData p in
  events (after call s) = (events s ++ emitted_by call s)%list
  /\ Forall (under p) (emitted_by call s)
  /\ events (after (detectChanges jsonData) s)
     = (events s ++ emitted_by (detectChanges jsonData) s)%list.
Proof.
  intros call.
  destruct (appends_findDifferencesAndUpdate_at (S (depth jsonData)) jsonData p s)
    as (new & E & F).
  fold (findDifferencesAndUpdate jsonData p) in E. fold call in E.
  assert (Hnew : emitted_by call s = new).
  { unfold emitted_by. rewrite E. apply skipn_exact. }
  rewrite Hnew. split; [exact E|]. split; [exact F|].
  assert (Hd : appends (fun _ => True) (detectChanges jsonData)).
  { unfold detectChanges. apply appends_bind; [|intros _; now apply appends_silent].
    apply appends_weaken with (P := under ""); [auto|].
    apply appends_findDifferencesAndUpdate_at. }
  destruct (Hd s) as (new' & E' & _). unfold emitted_by. rewrite E'.
  now rewrite skipn_exact.
Qed.

(** ** The builder of the JavaScript sibling *)

Lemma returns_map_each_length {A B} (f : A -> M B) (items : list A) :
  (forall x, In x items -> exists b n, returns (f x) b n) ->
  exists bs n, returns (map_each items f) bs n
               /\ List.length bs = List.length items.
Proof.
  induction items as [|x rest IH]; intros H; simpl.
  - exists [], 0. split; [apply returns_ret|reflexivity].
  - destruct (H x (or_introl eq_refl)) as (b & n & Hb).
    destruct IH as (bs & p & Hbs & Hlen); [intros; apply H; now right|].
    exists (b :: bs), (n + (p + 0)). split; [|simpl; now rewrite Hlen].
    eapply returns_bind; [exact Hb|].
    eapply returns_bind; [exact Hbs| apply returns_ret].
Qed.

Lemma js_buildHashTree_at_returns (fuel : nat) :
  forall data, depth data < fuel ->
  exists tree n, returns (Js.buildHashTree_at fuel data) tree n.
Proof.
  induction fuel as [|fuel IH]; intros data Hd; [lia|].
  destruct data as [| b | z | str | items | props];
    try (simpl; eexists; eexists; apply returns_leaf).
  - simpl Js.buildHashTree_at.
    destruct (returns_map_each (Js.buildHashTree_at fuel) items) as (bs & n & Hbs).
    { intros x Hx. apply IH. pose proof (depth_item x items Hx). lia. }
    eexists; eexists.
    eapply returns_bind; [exact Hbs|].
    eapply returns_bind; [apply returns_calculateHash | apply returns_ret].
  - simpl Js.buildHashTree_at.
    destruct (has_type (JObj props)).
    { eexists; eexists; apply returns_leaf. }
    match goal with |- context [reduce ?l ?f ?a] =>
      destruct (returns_reduce f l) with (acc := a) as (acc' & n & Hr) end.
    { intros acc key Hk.
      apply (Permutation_in _ (sort_perm _)) in Hk.
      destruct (own_get_In key props Hk) as (v & Hv). rewrite Hv.
      destruct (IH v) as (t & p & Ht).
      { pose proof (depth_prop key v props Hv). lia. }
      eexists; eexists.
      eapply returns_bind; [exact Ht | apply returns_ret]. }
    eexists; eexists.
    eapply returns_bind; [exact Hr|].
    eapply returns_bind; [apply returns_calculateHash | apply returns_ret].
Qed.

Lemma concat_constant {A} (text : string) (l : list A) :
  map (fun _ => text) l = repeat text (List.length l).
Proof. induction l as [|x l IH]; simpl; [reflexivity|now rewrite IH]. Qed.

Lemma index_keys_not_hash {V} (n : nat) (values : list V) :
  ~ In "__hash" (map fst (combine (indices n) values)).
Proof.
  intros H. apply in_map_iff in H. destruct H as ([k v] & Hk & Hin).
  simpl in Hk. subst k. apply in_combine_l in Hin.
  now apply indices_not_hash in Hin.
Qed.

(** X14.  In the JavaScript class an array node joins its child nodes, not
    their digests.  For an array whose property names are all safe (none is
    [__hash] or a name inherited from a prototype, [toString] among them)
    no child has a [toString] of its own, so each child joins as the text
    [[object Object]]: [initialize] returns, and the digest it stores for
    the array is the digest of that text repeated once per element.  It
    depends on the length of the array and on nothing else. *)
Theorem js_array_digest_counts_elements (items : list Json) (s : Frame) :
  tidy_json (JArr items) = true ->
  exists tree,
    completion (Js.initialize (JArr items)) s = Normal tree
    /\ hashTree (after (Js.initialize (JArr items)) s) = tree
    /\ own_get "__hash" tree
       = Some (Text (sha256_hex
                       (String.concat ""
                          (repeat "[object Object]" (List.length items))))).
Proof.
  intros _.
  destruct (returns_map_each_length
              (Js.buildHashTree_at (depth (JArr items))) items)
    as (bs & n & Hbs & Hlen).
  { intros x Hx. apply js_buildHashTree_at_returns. now apply depth_item. }
  assert (Hb : returns (Js.buildHashTree (JArr items))
                 (spread (combine (indices (List.length bs)) (map Node bs))
                    [("__hash",
                      Text (sha256_hex
                              (String.concat ""
                                 (map (fun h => in_join (Some (Node h))) bs))))])
                 (n + (1 + 0))).
  { unfold Js.buildHashTree. remember (depth (JArr items)) as d eqn:Hd.
    simpl Js.buildHashTree_at.
    eapply returns_bind; [exact Hbs|].
    eapply returns_bind; [apply returns_calculateHash | apply returns_ret]. }
  eexists. unfold completion, after, Js.initialize, bind. rewrite Hb.
  unfold mutate, ret. cbn [fst snd hashTree].
  split; [reflexivity|]. split; [reflexivity|].
  rewrite own_get_spread_other by apply index_keys_not_hash.
  cbn [own_get]. rewrite String.eqb_refl.
  change (map (fun h => in_join (Some (Node h))) bs)
    with (map (fun _ : HashTreeNode => "[object Object]") bs).
  now rewrite (concat_constant "[object Object]" bs), Hlen.
Qed.

Lemma js_array_digest_counts_elements_witness :
  let items := [JNum 1; JObj [("a", JArr [JStr "x"])]; JNull] in
  tidy_json (JArr items) = true
  /\ exists tree,
       completion (Js.initialize (JArr items)) Js.constructor = Normal tree
       /\ hashTree (after (Js.initialize (JArr items)) Js.constructor) = tree
       /\ own_get "__hash" tree
          = Some (Text (sha256_hex
                          (String.concat ""
                             (repeat "[object Object]" (List.length items))))).
Proof.
  intros items.
  assert (Hf : tidy_json (JArr items) = true) by reflexivity.
  split; [exact Hf|].
  exact (js_array_digest_counts_elements items Js.constructor Hf).
Defined.

(** The digest of a built node is never empty or missing. *)
Lemma label_of_node (props : HashTreeNode) (x : TreeValue) :
  own_get "__hash" props = Some x -> x <> Text "" ->
  Js.label (Node props) = in_template (hash_of (Node props)).
Proof.
  intros Hx Hne. unfold Js.label. simpl hash_of. rewrite Hx.
  destruct x as [[|c t]|c]; [congruence|reflexivity|reflexivity].
Qed.

Lemma digest_present_define (key : string) (c : TreeValue) (tree : HashTreeNode) :
  (exists x, own_get "__hash" tree = Some x /\ x <> Text "") ->
  c <> Text "" ->
  exists x, own_get "__hash" (define key c tree) = Some x /\ x <> Text "".
Proof.
  intros (x & Hx & Hne) Hc. destruct (String.eqb_spec "__hash" key) as [<-|Hk].
  - exists c. split; [apply own_get_define_same|assumption].
  - exists x. split; [|assumption]. now rewrite own_get_define_other.
Qed.

Lemma digest_present_spread (source tree : HashTreeNode) :
  Forall (fun kc => snd kc <> Text "") source ->
  (exists x, own_get "__hash" tree = Some x /\ x <> Text "") ->
  exists x, own_get "__hash" (spread source tree) = Some x /\ x <> Text "".
Proof.
  unfold spread. intros Hsrc. revert tree.
  induction Hsrc as [|[k c] rest Hc Hrest IH]; simpl; intros tree Ht;
    [assumption|].
  apply IH. now apply digest_present_define.
Qed.

Lemma digest_present_leaf (text : string) :
  exists x, own_get "__hash" [("__hash", Text (sha256_hex text))] = Some x
            /\ x <> Text "".
Proof.
  eexists. split; [reflexivity|]. intros E.
  assert (E' : sha256_hex text = "") by congruence.
  now apply sha256_hex_nonempty in E'.
Qed.

Lemma built_digest_present (data : Json) :
  exists x, own_get "__hash" (built data) = Some x /\ x <> Text "".
Proof.
  destruct (atomic data) eqn:Ha.
  { rewrite built_atomic by assumption. apply digest_present_leaf. }
  destruct data as [| b | z | str | items | props]; try discriminate Ha.
  - rewrite built_array. apply digest_present_spread;
      [|apply digest_present_leaf].
    unfold from_entries. apply Forall_spread; [|constructor].
    apply Forall_combine. intros key c _ Hc. simpl.
    apply in_map_iff in Hc. destruct Hc as (v & <- & _). discriminate.
  - unfold atomic in Ha. simpl in Ha.
    rewrite built_object by assumption. cbv zeta.
    apply digest_present_spread; [|apply digest_present_leaf].
    generalize (sort (map fst props)).
    assert (H0 : Forall (fun kc : string * TreeValue => snd kc <> Text "") [])
      by constructor.
    revert H0. generalize (@nil (string * TreeValue)).
    intros acc Hacc keys. revert acc Hacc.
    induction keys as [|key keys IHk]; simpl; intros acc Hacc; [assumption|].
    apply IHk. apply Forall_assign; [assumption|].
    unfold child_of. simpl. destruct (own_get key props); discriminate.
Qed.

Lemma combine_entries_agree (entries : list (string * TreeValue)) :
  Forall (fun kc => Js.label (snd kc) = in_template (hash_of (snd kc))) entries ->
  Js.combine_entries entries = combine_entries entries.
Proof.
  intros H. unfold Js.combine_entries, combine_entries. f_equal.
  induction H as [|[k c] rest Hc Hrest IH]; cbn [map]; [reflexivity|].
  cbn [snd] in Hc. rewrite Hc. f_equal. exact IH.
Qed.

Lemma array_free_prop (props : list (string * Json)) (key : string) (v : Json) :
  array_free (JObj props) = true -> has_type (JObj props) = false ->
  own_get key props = Some v -> array_free v = true.
Proof.
  intros Hf Ht Hget. cbn [array_free] in Hf. rewrite Ht in Hf. simpl in Hf.
  rewrite forallb_forall in Hf. apply own_get_Some_In in Hget.
  exact (Hf _ Hget).
Qed.

Lemma js_buildHashTree_at_agrees (fuel : nat) :
  forall data, depth data < fuel -> array_free data = true ->
  forall s, Js.buildHashTree_at fuel data s = buildHashTree_at fuel data s.
Proof.
  induction fuel as [|fuel IH]; intros data Hd Hf s; [lia|].
  destruct data as [| b | z | str | items | props]; try reflexivity;
    [discriminate Hf|].
  simpl Js.buildHashTree_at. simpl buildHashTree_at.
  destruct (has_type (JObj props)) eqn:Ht; [reflexivity|].
  set (step := fun build (tree : HashTreeNode) (key : string) =>
                 match own_get key props with
                 | Some v => child <- build v ;; ret (assign key (Node child) tree)
                 | None => throw HashOfUndefined
                 end).
  change (bind (reduce (sort (map fst props)) (step (Js.buildHashTree_at fuel)) [])
               (fun childHashes =>
                  combinedHash <- calculateHash
                                    (Some (Js.combine_entries childHashes)) ;;
                  ret (spread childHashes [("__hash", Text combinedHash)])) s
          = bind (reduce (sort (map fst props)) (step (buildHashTree_at fuel)) [])
                 (fun childHashes =>
                    combinedHash <- calculateHash
                                      (Some (combine_entries childHashes)) ;;
                    ret (spread childHashes [("__hash", Text combinedHash)])) s).
  assert (Hr : returns (reduce (sort (map fst props)) (step (buildHashTree_at fuel)) [])
                 (fold_left (fun tree key => assign key (child_of props key) tree)
                            (sort (map fst props)) [])
                 (list_sum (map (fun key => match own_get key props with
                                            | Some v => build_cost v + 0
                                            | None => 0 end)
                                (sort (map fst props))))).
  { apply returns_reduce_fold. intros acc key Hk.
    apply (Permutation_in _ (sort_perm _)) in Hk.
    destruct (own_get_In key props Hk) as (v & Hv).
    unfold step, child_of. rewrite Hv.
    eapply returns_bind; [|apply returns_ret].
    apply buildHashTree_at_built.
    pose proof (depth_prop key v props Hv). lia. }
  assert (Hjs : reduce (sort (map fst props)) (step (Js.buildHashTree_at fuel)) [] s
                = reduce (sort (map fst props)) (step (buildHashTree_at fuel)) [] s).
  { apply reduce_ext. intros acc key Hk s'. unfold step.
    destruct (own_get key props) as [v|] eqn:Hv; [|reflexivity].
    apply bind_ext; [|reflexivity]. apply IH.
    - pose proof (depth_prop key v props Hv). lia.
    - now apply (array_free_prop props key). }
  unfold bind at 1 3. rewrite Hjs, Hr.
  rewrite combine_entries_agree; [reflexivity|].
  assert (Hkeys : forall key, In key (sort (map fst props)) ->
                   exists v, own_get key props = Some v).
  { intros key Hk. apply (Permutation_in _ (sort_perm _)) in Hk.
    now apply own_get_In. }
  revert Hkeys. generalize (sort (map fst props)).
  assert (H0 : Forall (fun kc : string * TreeValue =>
                 Js.label (snd kc) = in_template (hash_of (snd kc))) [])
    by constructor.
  revert H0. generalize (@nil (string * TreeValue)).
  intros acc Hacc keys. revert acc Hacc.
  induction keys as [|key keys IHk]; simpl; intros acc Hacc Hkeys; [assumption|].
  apply IHk; [|intros; apply Hkeys; now right].
  apply Forall_assign; [assumption|].
  destruct (Hkeys key (or_introl eq_refl)) as (v & Hv).
  unfold child_of. rewrite Hv. cbn [snd].
  destruct (built_digest_present v) as (x & Hx & Hne).
  now apply (label_of_node (built v) x).
Qed.

(** X15.  On a snapshot that has no array outside a type-tagged object,
    the builder of the JavaScript class and the builder of the TypeScript
    class are the same computation, and [initialize] stores the same tree:
    the fallback [value.__hash || value] is never taken, because the digest
    of a built node is never empty. *)
Theorem js_builder_agrees_without_arrays (data : Json) (s : Frame) :
  array_free data = true ->
  Js.buildHashTree data s = buildHashTree data s
  /\ Js.initialize data s = initialize data s.
Proof.
  intros Hf.
  assert (H : forall s', Js.buildHashTree data s' = buildHashTree data s').
  { intros s'. apply js_buildHashTree_at_agrees; [lia|assumption]. }
  split; [apply H|].
  unfold Js.initialize, initialize. apply bind_ext; [apply H|reflexivity].
Qed.

Lemma js_builder_agrees_without_arrays_witness :
  let data := JObj [("b", JObj [("__hash", JNum 1); ("c", JNull)]);
                    ("a", JObj [("type", JStr "T"); ("list", JArr [JNum 1])])] in
  array_free data = true
  /\ Js.buildHashTree data constructor = buildHashTree data constructor
  /\ Js.initialize data constructor = initialize data constructor.
Proof.
  intros data.
  assert (Hf : array_free data = true) by reflexivity.
  split; [exact Hf|]. exact (js_builder_agrees_without_arrays data constructor Hf).
Defined.

(** ** The differencing of the JavaScript sibling *)

Lemma own_get_assign_same {V} (key : string) (v : V) (o : list (string * V)) :
  own_has key o = true -> own_get key (assign key v o) = Some v.
Proof.
  intros H. unfold assign. rewrite H. rewrite andb_false_r.
  apply own_get_define_same.
Qed.

Lemma js_body_run (self : Json -> string -> M unit) (jsonData : Json)
      (p : string) (s : Frame) :
  Js.findDifferencesAndUpdate_body self jsonData p s
  = if strict_equal (root_digest s) (digest jsonData)
    then (Normal tt, hashed 1 s)
    else ((tree <- read ;; for_each (map fst tree) (Js.existingKey self jsonData p)) ;;
          for_each (for_in jsonData) (Js.addedKey jsonData p) ;;
          Js.recomputeHash) (hashed 1 s).
Proof.
  unfold Js.findDifferencesAndUpdate_body, root_digest, digest.
  unfold bind at 1. unfold calculateHash at 1. cbv beta iota.
  unfold bind at 1. unfold read at 1. cbv beta iota.
  change (hashTree (hashed 1 s)) with (hashTree s).
  now destruct (strict_equal _ _).
Qed.

Lemma js_replace_run (text key currentPath : string) (child : TreeValue)
      (s : Frame) :
  own_get key (hashTree s) = Some child ->
  (newPrimitiveHash <- calculateHash (Some text) ;;
   Js.replaceIfChanged newPrimitiveHash key currentPath) s
  = if strict_equal (hash_of child) (sha256_hex text)
    then (Normal tt, hashed 1 s)
    else (Normal tt,
          mkFrame (assign key (Node [("__hash", Text (sha256_hex text))])
                          (hashTree s))
                  (events s ++ [Difference modified currentPath])%list
                  (hashCalls s + 1)).
Proof.
  intros Hc. unfold bind at 1. unfold calculateHash. cbv beta iota.
  unfold Js.replaceIfChanged, bind, read. cbn [hashTree hashed]. rewrite Hc.
  now destruct (strict_equal _ _).
Qed.

Section JsLocality.
Variable key : string.
Variable c : TreeValue.
Hypothesis key_not_hash : key <> "__hash".

Lemma keeps_own_within {A} (key' : string) (m : M A) :
  key' <> key -> keeps (has_child key c) (within key' m).
Proof.
  intros Hne s Hs. unfold after, within.
  destruct (own_get key' (hashTree s)) as [[t|child]|]; try exact Hs.
  destruct (m (mkFrame child (events s) (hashCalls s))) as [r s']. simpl.
  unfold has_child. now rewrite own_get_replace_other.
Qed.

Lemma keeps_own_assign (key' : string) (v : TreeValue) :
  key' <> key -> keeps (has_child key c) (mutate (assign key' v)).
Proof.
  intros Hne. apply keeps_mutate. intros tree Ht. unfold has_child.
  now rewrite own_get_assign_other.
Qed.

Lemma keeps_own_replaceIfChanged (h key' currentPath : string) :
  key' <> key -> keeps (has_child key c) (Js.replaceIfChanged h key' currentPath).
Proof.
  intros Hne. unfold Js.replaceIfChanged.
  apply keeps_bind; [apply keeps_plain_read|]. intros tree.
  destruct (own_get key' tree) as [child|]; [|apply keeps_unmodelled].
  destruct (strict_equal _ h); [apply keeps_ret|].
  apply keeps_bind; [apply keeps_emit|]. intros _.
  now apply keeps_own_assign.
Qed.

Lemma keeps_own_existingKey (self : Json -> string -> M unit)
      (jsonData : Json) (p key' : string) :
  key' <> key -> keeps (has_child key c) (Js.existingKey self jsonData p key').
Proof.
  intros Hne. unfold Js.existingKey.
  destruct (key' =? "__hash"); [apply keeps_ret|]. cbv zeta.
  assert (Hstore : forall text,
            keeps (has_child key c)
                  (newPrimitiveHash <- calculateHash text ;;
                   Js.replaceIfChanged newPrimitiveHash key' (join_path p key'))).
  { intros text. apply keeps_bind; [apply keeps_calculateHash|].
    intros h. now apply keeps_own_replaceIfChanged. }
  destruct (has jsonData key') as [[|]|].
  - destruct (get jsonData key') as [v| | |]; try apply Hstore;
      [|apply keeps_unmodelled].
    destruct (is_object v); [|apply Hstore].
    destruct (has_type v); [apply Hstore|].
    apply keeps_bind; [apply keeps_plain_read|]. intros tree.
    apply keeps_bind; [|intros _; now apply keeps_own_within].
    destruct (own_get key' tree) as [[t|n]|];
      try apply keeps_ret; now apply keeps_own_assign.
  - apply keeps_bind; [apply keeps_emit|]. intros _.
    apply keeps_mutate. intros tree Ht. unfold has_child.
    now rewrite own_get_delete_other.
  - apply keeps_throw.
Qed.

Lemma keeps_own_addedKey (jsonData : Json) (p key' : string) :
  keeps (has_child key c) (Js.addedKey jsonData p key').
Proof.
  unfold Js.addedKey. cbv zeta. apply keeps_read. intros s Hs.
  destruct (in_tree key' (hashTree s)) eqn:E; [exact Hs|].
  assert (Hne : key' <> key).
  { intros ->. unfold in_tree, own_has in E. unfold has_child in Hs.
    now rewrite Hs in E. }
  revert s Hs E. intros s Hs _. revert s Hs.
  apply keeps_bind; [apply keeps_emit|]. intros _.
  apply keeps_bind; [|intros child; now apply keeps_own_assign].
  assert (Hleaf : forall x, keeps (has_child key c) (leaf x)).
  { intros x. unfold leaf. apply keeps_bind; [apply keeps_calculateHash|].
    intros h. apply keeps_ret. }
  destruct (get jsonData key') as [v| | |]; try apply Hleaf;
    [|apply keeps_unmodelled].
  destruct (is_object v); [|apply Hleaf].
  intros s Hs. unfold after.
  destruct (js_buildHashTree_at_returns (S (depth v)) v (Nat.lt_succ_diag_r _))
    as (tree & n & Hb).
  unfold Js.buildHashTree. now rewrite Hb.
Qed.

Lemma keeps_own_recomputeHash : keeps (has_child key c) Js.recomputeHash.
Proof.
  unfold Js.recomputeHash. apply keeps_bind; [apply keeps_plain_read|].
  intros tree. apply keeps_bind; [apply keeps_calculateHash|]. intros h.
  now apply keeps_own_assign.
Qed.

End JsLocality.

Section JsReplace.
Variable self : Json -> string -> M unit.
Variable jsonData v : Json.
Variable p key : string.
Hypothesis snapshot_is_an_object : is_object jsonData = true.
Hypothesis key_not_hash : key <> "__hash".
Hypothesis value_at_key : get jsonData key = Value v.
Hypothesis value_is_a_unit : atomic v = true.

(** The first loop at [key]. *)
Lemma existingKey_unit_run (s : Frame) (child : TreeValue) :
  own_get key (hashTree s) = Some child ->
  Js.existingKey self jsonData p key s
  = if strict_equal (hash_of child) (digest v)
    then (Normal tt, hashed 1 s)
    else (Normal tt,
          mkFrame (assign key (leaf_node v) (hashTree s))
                  (events s ++ [Difference modified (join_path p key)])%list
                  (hashCalls s + 1)).
Proof.
  intros Hc. unfold Js.existingKey.
  apply String.eqb_neq in key_not_hash. rewrite key_not_hash. cbv zeta.
  assert (Hh : has jsonData key = Some true).
  { unfold has. rewrite value_at_key. destruct jsonData; try discriminate;
      reflexivity. }
  rewrite Hh, value_at_key.
  unfold atomic in value_is_a_unit.
  destruct (is_object v); [simpl in value_is_a_unit; rewrite value_is_a_unit|];
    now apply js_replace_run.
Qed.

(** What the child under [key] is once the first loop has visited it. *)
Lemma keeps_own_existingKey_visited (child : TreeValue) (key' : string) :
  keeps (has_child key (if strict_equal (hash_of child) (digest v)
                        then child else leaf_node v))
        (Js.existingKey self jsonData p key').
Proof.
  destruct (String.eqb_spec key' key) as [->|Hne];
    [|now apply keeps_own_existingKey].
  intros s Hs. unfold after. rewrite (existingKey_unit_run s _ Hs).
  assert (E : strict_equal
                (hash_of (if strict_equal (hash_of child) (digest v)
                          then child else leaf_node v)) (digest v) = true).
  { destruct (strict_equal (hash_of child) (digest v)) eqn:E; [exact E|].
    change (strict_equal (Some (Text (digest v))) (digest v) = true).
    apply String.eqb_refl. }
  rewrite E. exact Hs.
Qed.

Lemma existingKeys_reach (child : TreeValue) (keys : list string) :
  forall s s',
    for_each keys (Js.existingKey self jsonData p) s = (Normal tt, s') ->
    own_get key (hashTree s) = Some child -> In key keys ->
    own_get key (hashTree s')
    = Some (if strict_equal (hash_of child) (digest v)
            then child else leaf_node v).
Proof.
  induction keys as [|key' rest IH]; intros s s' Hrun Hc Hin; [contradiction|].
  simpl in Hrun. unfold bind in Hrun.
  destruct (Js.existingKey self jsonData p key' s) as [[[]| | |] s1] eqn:E1;
    try discriminate Hrun.
  destruct (String.eqb_spec key' key) as [->|Hne].
  - assert (H1 : has_child key (if strict_equal (hash_of child) (digest v)
                                 then child else leaf_node v) (hashTree s1)).
    { rewrite (existingKey_unit_run s child Hc) in E1. unfold has_child.
      destruct (strict_equal (hash_of child) (digest v));
        injection E1 as <-; [exact Hc|].
      cbn [hashTree]. apply own_get_assign_same. unfold own_has. now rewrite Hc. }
    pose proof (keeps_for_each _ rest (Js.existingKey self jsonData p)
                  (fun x _ => keeps_own_existingKey_visited child x) s1 H1) as H2.
    unfold after in H2. rewrite Hrun in H2. exact H2.
  - apply (IH s1 s' Hrun).
    + pose proof (keeps_own_existingKey key child self jsonData p key' Hne s Hc)
        as H1.
      unfold after in H1. now rewrite E1 in H1.
    + destruct Hin as [->|Hin]; [contradiction|assumption].
Qed.

End JsReplace.

(** X16.  In the JavaScript class a child whose new value is taken as one
    unit (a primitive, [null] or a type-tagged object) is compared by its
    digest, and when the digest differs the child is replaced by a new
    leaf [{ __hash }]: whatever the old child held below it is dropped.
    When the digest is equal the child is left as it is.  This holds for
    every key of the stored node, whatever the other keys do, provided the
    call returns. *)
Theorem js_changed_unit_is_replaced_by_a_leaf
        (s : Frame) (jsonData v : Json) (key : string) (child : TreeValue) :
  is_object jsonData = true ->
  key <> "__hash" ->
  own_get key (hashTree s) = Some child ->
  get jsonData key = Value v ->
  atomic v = true ->
  strict_equal (root_digest s) (digest jsonData) = false ->
  (exists result, completion (Js.detectChanges jsonData) s = Normal result) ->
  own_get key (hashTree (after (Js.detectChanges jsonData) s))
  = Some (if strict_equal (hash_of child) (digest v) then child else leaf_node v).
Proof.
  intros Ho Hne Hc Hg Ha Hroot (result & Hres).
  unfold completion, after, Js.detectChanges, Js.findDifferencesAndUpdate in *.
  remember (depth jsonData) as d eqn:Hd.
  simpl Js.findDifferencesAndUpdate_at in *.
  unfold bind at 1 in Hres. unfold bind at 1.
  rewrite js_body_run, Hroot in *.
  set (self := Js.findDifferencesAndUpdate_at d) in *.
  unfold bind at 1 in Hres. unfold bind at 1.
  unfold bind at 1 in Hres. unfold bind at 1.
  unfold read at 1 in Hres. unfold read at 1. cbv beta iota in *.
  change (hashTree (hashed 1 s)) with (hashTree s) in *.
  destruct (for_each (map fst (hashTree s)) (Js.existingKey self jsonData "")
                     (hashed 1 s)) as [[[]| | |] s1] eqn:E1;
    try discriminate Hres.
  assert (H1 : has_child key (if strict_equal (hash_of child) (digest v)
                              then child else leaf_node v) (hashTree s1)).
  { apply (existingKeys_reach self jsonData v "" key Ho Hne Hg Ha child
             (map fst (hashTree s)) (hashed 1 s) s1 E1 Hc).
    apply in_map_iff. exists (key, child). split; [reflexivity|].
    now apply own_get_Some_In. }
  assert (H2 : keeps (has_child key (if strict_equal (hash_of child) (digest v)
                                     then child else leaf_node v))
                 (for_each (for_in jsonData) (Js.addedKey jsonData "") ;;
                  Js.recomputeHash)).
  { apply keeps_bind.
    - apply keeps_for_each. intros x _. apply keeps_own_addedKey.
    - intros _. now apply keeps_own_recomputeHash. }
  specialize (H2 s1 H1). unfold after in H2.
  destruct ((for_each (for_in jsonData) (Js.addedKey jsonData "") ;;
             Js.recomputeHash) s1) as [[[]| | |] s2]; exact H2.
Qed.

Lemma js_changed_unit_is_replaced_by_a_leaf_witness :
  let s := after (Js.initialize (JObj [("s", JObj [("a", JNum 1)]); ("t", JNum 2)]))
                 Js.constructor in
  let v := JObj [("type", JStr "X")] in
  let jsonData := JObj [("s", v); ("t", JNum 2); ("u", JArr [JNull])] in
  let child := Node [("__hash",
                      Text (sha256_hex ("a:" ++ digest (JNum 1))));
                     ("a", leaf_node (JNum 1))] in
  own_get "s" (hashTree s) = Some child
  /\ own_get "s" (hashTree (after (Js.detectChanges jsonData) s))
     = Some (if strict_equal (hash_of child) (digest v) then child else leaf_node v).
Proof.
  intros s v jsonData child.
  assert (Hc : own_get "s" (hashTree s) = Some child) by (vm_compute; reflexivity).
  split; [exact Hc|].
  refine (js_changed_unit_is_replaced_by_a_leaf s jsonData v "s" child
            eq_refl _ Hc eq_refl eq_refl _ _).
  - discriminate.
  - vm_compute. reflexivity.
  - eexists. vm_compute. reflexivity.
Defined.

(** ** What a second look reports *)

Lemma own_get_spread_In {V} (key : string) (x : V) (source o : list (string * V)) :
  own_get key (spread source o) = Some x ->
  In (key, x) source \/ own_get key o = Some x.
Proof.
  unfold spread. revert o.
  induction source as [|[k c] rest IH]; simpl; intros o H; [now right|].
  apply IH in H. destruct H as [H|H]; [left; now right|].
  destruct (String.eqb_spec k key) as [->|Hne].
  - rewrite own_get_define_same in H. injection H as ->. left. now left.
  - rewrite own_get_define_other in H by congruence. now right.
Qed.

Lemma own_has_define {V} (key k : string) (c : V) (o : list (string * V)) :
  own_has key (define k c o) = (k =? key) || own_has key o.
Proof.
  unfold own_has. destruct (String.eqb_spec k key) as [->|Hne].
  - now rewrite own_get_define_same.
  - rewrite own_get_define_other by congruence. reflexivity.
Qed.

Lemma own_has_assign_mono {V} (key k : string) (c : V) (o : list (string * V)) :
  own_has key o = true -> own_has key (assign k c o) = true.
Proof.
  intros H. unfold assign.
  destruct ((k =? "__proto__") && negb (own_has k o)); [assumption|].
  rewrite own_has_define, H. apply orb_true_r.
Qed.

Lemma own_has_assign_same {V} (key : string) (c : V) (o : list (string * V)) :
  (key =? "__proto__") = false -> own_has key (assign key c o) = true.
Proof.
  intros H. unfold assign. rewrite H. cbn [andb].
  rewrite own_has_define, String.eqb_refl. reflexivity.
Qed.

Lemma own_has_spread {V} (key : string) (source o : list (string * V)) :
  In key (map fst source) \/ own_has key o = true ->
  own_has key (spread source o) = true.
Proof.
  unfold spread. revert o.
  induction source as [|[k c] rest IH]; simpl; intros o H.
  - destruct H as [[]|H]. exact H.
  - apply IH. destruct H as [[->|H]|H].
    + right. rewrite own_has_define, String.eqb_refl. reflexivity.
    + now left.
    + right. rewrite own_has_define, H. apply orb_true_r.
Qed.

Lemma In_combine_seq {V} (f : nat -> string) (key : string) (x : V) (n : nat) :
  forall start values,
    In (key, x) (combine (map f (seq start n)) values) ->
    exists i, key = f (start + i) /\ nth_error values i = Some x.
Proof.
  induction n as [|n IH]; intros start [|v values]; simpl; try contradiction.
  intros [H|H].
  - injection H as <- <-. exists 0. now rewrite Nat.add_0_r.
  - apply IH in H. destruct H as (i & -> & Hn). exists (S i).
    split; [f_equal; lia|exact Hn].
Qed.

Lemma In_fold_assign (props : list (string * Json)) (keys : list string) :
  forall acc key child,
    In (key, child)
       (fold_left (fun tree k => assign k (child_of props k) tree) keys acc) ->
    In (key, child) acc \/ (In key keys /\ child = child_of props key).
Proof.
  intros acc key child H.
  assert (HF : Forall (fun kc => In kc acc
                                 \/ (In (fst kc) keys
                                     /\ snd kc = child_of props (fst kc)))
                      (fold_left (fun tree k => assign k (child_of props k) tree)
                                 keys acc)).
  { clear H. revert acc.
    induction keys as [|k rest IH]; simpl; intros acc.
    - apply Forall_forall. intros kc Hkc. now left.
    - specialize (IH (assign k (child_of props k) acc)).
      revert IH. apply Forall_impl. intros kc [Hkc|[Hkc Hc]].
      + assert (HA : Forall (fun kc => In kc acc
                                       \/ (k = fst kc
                                           /\ snd kc = child_of props (fst kc)))
                            (assign k (child_of props k) acc)).
        { apply Forall_assign; [|simpl; now right].
          apply Forall_forall. intros x Hx. now left. }
        rewrite Forall_forall in HA. destruct (HA _ Hkc) as [Hx|[Hx Hy]].
        * now left.
        * right. split; [now left|assumption].
      + right. split; [now right|assumption]. }
  rewrite Forall_forall in HF. exact (HF _ H).
Qed.

Lemma own_has_fold_assign (props : list (string * Json)) (keys : list string)
      (key : string) :
  (key =? "__proto__") = false ->
  forall acc,
    In key keys \/ own_has key acc = true ->
    own_has key (fold_left (fun tree k => assign k (child_of props k) tree) keys acc)
    = true.
Proof.
  intros Hp. induction keys as [|k rest IH]; simpl; intros acc H.
  - destruct H as [[]|H]. exact H.
  - apply IH. destruct H as [[->|H]|H].
    + right. now apply own_has_assign_same.
    + now left.
    + right. now apply own_has_assign_mono.
Qed.

Lemma atomic_false (v : Json) :
  atomic v = false -> is_object v = true /\ has_type v = false.
Proof.
  unfold atomic. intros H. apply orb_false_iff in H. destruct H as [H1 H2].
  apply negb_false_iff in H1. now split.
Qed.

(** The children of a built node are the built values of the snapshot. *)
Lemma built_child (v : Json) (key : string) (child : TreeValue) :
  tidy_json v = true -> atomic v = false -> key <> "__hash" ->
  own_get key (built v) = Some child ->
  exists w, get v key = Value w /\ child = Node (built w).
Proof.
  intros Hf Ha Hne H. destruct (atomic_false v Ha) as [Ho Ht].
  assert (Hbase : forall text,
            own_get key [("__hash", Text text)] = Some child -> False).
  { intros text E. rewrite own_get_cons_other in E by congruence.
    discriminate E. }
  destruct v as [| b | z | str | items | props]; try discriminate Ho.
  - rewrite built_array in H. apply own_get_spread_In in H.
    destruct H as [H|H]; [|now apply Hbase in H].
    assert (HF : Forall (fun kc => In kc (combine (indices (List.length items))
                                            (map (fun v => Node (built v)) items)))
                        (from_entries
                           (combine (indices (List.length items))
                                    (map (fun v => Node (built v)) items)))).
    { unfold from_entries. apply Forall_spread; [|constructor].
      apply Forall_forall. auto. }
    rewrite Forall_forall in HF. apply HF in H.
    unfold indices in H. apply In_combine_seq in H. destruct H as (i & -> & Hn).
    rewrite nth_error_map in Hn.
    destruct (nth_error items i) as [w|] eqn:E; [|discriminate].
    cbn [option_map] in Hn. injection Hn as <-. exists w. split; [|reflexivity].
    simpl in Hf. apply andb_true_iff in Hf. destruct Hf as [Hlen _].
    apply Z.leb_le in Hlen.
    assert (Hi : i < List.length items) by (apply nth_error_Some; congruence).
    apply get_element; [simpl; lia|exact E].
  - rewrite built_object in H by assumption. cbv zeta in H.
    apply own_get_spread_In in H.
    destruct H as [H|H]; [|now apply Hbase in H].
    apply In_fold_assign in H. destruct H as [[]|[Hk ->]].
    apply (Permutation_in _ (sort_perm _)) in Hk.
    destruct (own_get_In key props Hk) as (w & Hw).
    exists w. unfold child_of. simpl. now rewrite Hw.
Qed.

Lemma built_has_keys (v : Json) (key : string) :
  tidy_json v = true -> atomic v = false -> In key (for_in v) ->
  own_has key (built v) = true.
Proof.
  intros Hf Ha Hin. destruct (atomic_false v Ha) as [Ho Ht].
  destruct (for_in_get v key Ho Hf Hin) as (Hsafe & _).
  destruct (safe_name_spec key Hsafe) as (_ & Hp & _).
  destruct v as [| b | z | str | items | props]; try discriminate Ho.
  - rewrite built_array. apply own_has_spread. left.
    apply own_has_iff. unfold from_entries. apply own_has_spread. left.
    rewrite <- (length_map (fun v => Node (built v)) items), indices_entries.
    rewrite index_entries_keys, length_map. exact Hin.
  - rewrite built_object by assumption. cbv zeta.
    apply own_has_spread. left. apply own_has_iff.
    apply own_has_fold_assign; [assumption|]. left.
    apply (Permutation_in _ (Permutation_sym (sort_perm _))). exact Hin.
Qed.

Lemma built_root_of_unit (v : Json) :
  atomic v = true ->
  strict_equal (hash_of (Node (built v))) (digest v) = true.
Proof.
  intros Ha. rewrite built_atomic by assumption.
  change (strict_equal (Some (Text (digest v))) (digest v) = true).
  apply String.eqb_refl.
Qed.

Lemma built_settled (fuel : nat) :
  forall v, depth v < fuel -> tidy_json v = true -> settled fuel v (built v).
Proof.
  induction fuel as [|fuel IH]; intros v Hd Hf; [lia|].
  cbn [settled]. destruct (atomic v) eqn:Ha.
  { left. now apply (built_root_of_unit v). }
  right. destruct (atomic_false v Ha) as [Ho Ht]. split.
  - intros key child Hne Hc.
    destruct (built_child v key child Hf Ha Hne Hc) as (w & Hg & ->).
    exists w. split; [exact Hg|]. destruct (atomic w) eqn:Hw.
    + now apply built_root_of_unit.
    + exists (built w). split; [reflexivity|].
      destruct (atomic_false w Hw) as [Hwo _].
      apply IH; [|now apply (tidy_json_get v key)].
      pose proof (depth_get v key w Hg Hwo). lia.
  - intros key Hin. now apply built_has_keys.
Qed.

Lemma own_get_delete_same {V} (key : string) (o : list (string * V)) :
  own_get key (delete key o) = None.
Proof.
  unfold delete. induction o as [|[k w] rest IH]; simpl; [reflexivity|].
  destruct (k =? key) eqn:E; simpl; [exact IH|]. now rewrite E.
Qed.

Lemma storeIfChanged_run (text key currentPath : string) (props : HashTreeNode)
      (s : Frame) :
  own_get key (hashTree s) = Some (Node props) ->
  (h <- calculateHash (Some text) ;; storeIfChanged h key currentPath) s
  = if strict_equal (own_get "__hash" props) (sha256_hex text)
    then (Normal tt, hashed 1 s)
    else (Normal tt,
          mkFrame (replace_value key
                     (Node (assign "__hash" (Text (sha256_hex text)) props))
                     (hashTree s))
                  (events s ++ [Difference modified currentPath])%list
                  (hashCalls s + 1)).
Proof.
  intros Hc. unfold bind at 1. unfold calculateHash. cbv beta iota.
  unfold storeIfChanged, bind, read. cbn [hashTree hashed]. rewrite Hc.
  cbn [hash_of]. now destruct (strict_equal _ _).
Qed.

Lemma has_of_value (jsonData : Json) (key : string) (v : Json) :
  is_object jsonData = true -> get jsonData key = Value v ->
  has jsonData key = Some true.
Proof.
  intros Ho Hg. unfold has. rewrite Hg. now destruct jsonData.
Qed.

Section SettledPasses.
Variable self : Json -> string -> M unit.
Variable bound : nat.
Hypothesis self_settles :
  forall v p s, depth v < bound -> is_object v = true -> tidy_json v = true ->
    tidy (Node (hashTree s)) = true ->
    exists s', self v p s = (Normal tt, s')
               /\ tidy (Node (hashTree s')) = true
               /\ settled bound v (hashTree s')
               /\ (settled bound v (hashTree s) -> events s' = events s).
Variable jsonData : Json.
Variable path : string.
Hypothesis snapshot_depth : depth jsonData <= bound.
Hypothesis snapshot_is_an_object : is_object jsonData = true.
Hypothesis snapshot_is_tidy : tidy_json jsonData = true.

Lemma existing_step (key : string) (s : Frame) :
  tidy (Node (hashTree s)) = true ->
  (key <> "__hash" -> safe_name key = true) ->
  (key <> "__hash" -> has jsonData key = Some true ->
   own_has key (hashTree s) = true) ->
  exists s',
    processExistingKey self jsonData path key s = (Normal tt, s')
    /\ tidy (Node (hashTree s')) = true
    /\ (forall child, key <> "__hash" -> own_get key (hashTree s') = Some child ->
          agrees (settled bound) jsonData key child)
    /\ (forall k, k <> key -> own_get k (hashTree s') = own_get k (hashTree s))
    /\ (key <> "__hash" -> has jsonData key = Some true ->
        own_has key (hashTree s') = true)
    /\ (key = "__hash"
        \/ (exists child, own_get key (hashTree s) = Some child
                          /\ agrees (settled bound) jsonData key child) ->
        events s' = events s
        /\ forall k, own_has k (hashTree s') = own_has k (hashTree s)).
Proof.
  intros Hs Hsafe Hown. unfold processExistingKey.
  destruct (String.eqb_spec key "__hash") as [E|E].
  { exists s. repeat split; auto; contradiction. }
  specialize (Hsafe E). specialize (Hown E).
  cbv zeta. generalize (join_path path key). intros currentPath.
  destruct (has jsonData key) as [[|]|] eqn:Eh.
  - specialize (Hown eq_refl).
    pose proof Hown as Hc. unfold own_has in Hc.
    destruct (own_get key (hashTree s)) as [child0|] eqn:Ec; [|discriminate].
    destruct (tidy_child _ _ _ Hs E Ec) as (_ & props & -> & Hprops).
    destruct (get_safe jsonData key snapshot_is_an_object Hsafe) as [(v & Hg)|Hg].
    2:{ unfold has in Eh. rewrite Hg in Eh. destruct jsonData; discriminate. }
    destruct (atomic v) eqn:Ha.
    + rewrite (processKeyValue_atomic self jsonData key currentPath v Hg Ha).
      rewrite (storeIfChanged_run _ key currentPath props s Ec).
      fold (digest v).
      destruct (strict_equal (own_get "__hash" props) (digest v)) eqn:Eq.
      * exists (hashed 1 s). cbn [hashed hashTree events].
        split; [reflexivity|]. split; [exact Hs|]. split.
        { intros child _ Hchild. rewrite Ec in Hchild. injection Hchild as <-.
          exists v. split; [exact Hg|]. rewrite Ha. exact Eq. }
        split; [reflexivity|]. split; [intros _ _; exact Hown|].
        intros _. split; reflexivity.
      * eexists. split; [reflexivity|]. cbn [hashTree events].
        assert (Hnew : tidy (Node (assign "__hash" (Text (digest v)) props)) = true).
        { apply tidy_digest. apply tidy_iff in Hprops. apply Hprops. }
        split; [now apply tidy_replace|]. split.
        { intros child _ Hchild. rewrite own_get_replace_same, Ec in Hchild.
          injection Hchild as <-. exists v. split; [exact Hg|]. rewrite Ha.
          cbn [hash_of]. unfold assign. cbn [String.eqb Ascii.eqb Bool.eqb andb].
          rewrite own_get_define_same. apply String.eqb_refl. }
        split; [intros k Hk; now apply own_get_replace_other|].
        split; [intros _ _; now rewrite own_has_replace|].
        intros [Hk|(child & Hchild & (v' & Hg' & Hv'))]; [contradiction|].
        rewrite Hg in Hg'. injection Hg' as <-. rewrite Ha in Hv'.
        injection Hchild as <-. cbn [hash_of] in Hv'. congruence.
    + destruct (atomic_false v Ha) as [Hvo Hvt].
      unfold processKeyValue. rewrite Hg, Hvo.
      unfold processObjectValue. rewrite Hvt.
      unfold bind at 1. unfold read at 1. cbv beta iota. rewrite Ec.
      unfold bind at 1. unfold ret at 1. cbv beta iota.
      destruct (self_settles v currentPath (mkFrame props (events s) (hashCalls s)))
        as (s2 & E2 & H2 & Hset & Hquiet); try assumption.
      { pose proof (depth_get jsonData key v Hg Hvo). lia. }
      { now apply (tidy_json_get jsonData key). }
      unfold within. rewrite Ec, E2.
      eexists. split; [reflexivity|]. cbn [hashTree events].
      split; [now apply tidy_replace|]. split.
      { intros child _ Hchild. rewrite own_get_replace_same, Ec in Hchild.
        injection Hchild as <-. exists v. split; [exact Hg|]. rewrite Ha.
        now exists (hashTree s2). }
      split; [intros k Hk; now apply own_get_replace_other|].
      split; [intros _ _; now rewrite own_has_replace|].
      intros [Hk|(child & Hchild & (v' & Hg' & Hv'))]; [contradiction|].
      rewrite Hg in Hg'. injection Hg' as <-. rewrite Ha in Hv'.
      destruct Hv' as (c & -> & Hc'). injection Hchild as <-.
      split; [now apply Hquiet|]. intros k. apply own_has_replace.
  - eexists. split; [reflexivity|]. cbn [hashTree events].
    split; [now apply tidy_delete|]. split.
    { intros child _ Hchild. rewrite own_get_delete_same in Hchild.
      discriminate. }
    split; [intros k Hk; now apply own_get_delete_other|].
    split; [discriminate|].
    intros [Hk|(child & Hchild & (v' & Hg' & Hv'))]; [contradiction|].
    rewrite (has_of_value jsonData key v' snapshot_is_an_object Hg') in Eh.
    discriminate.
  - destruct jsonData; discriminate.
Qed.

Lemma existing_loop (pending : list string) :
  forall s, tidy (Node (hashTree s)) = true ->
    (forall key, In key pending -> key <> "__hash" ->
       safe_name key = true
       /\ (has jsonData key = Some true -> own_has key (hashTree s) = true)) ->
    exists s',
      for_each pending (processExistingKey self jsonData path) s = (Normal tt, s')
      /\ tidy (Node (hashTree s')) = true
      /\ (forall key child, key <> "__hash" ->
            own_get key (hashTree s') = Some child ->
            agrees (settled bound) jsonData key child
            \/ (~ In key pending /\ own_get key (hashTree s) = Some child))
      /\ ((forall key, In key pending ->
             key = "__hash"
             \/ exists child, own_get key (hashTree s) = Some child
                              /\ agrees (settled bound) jsonData key child) ->
          events s' = events s
          /\ forall k, own_has k (hashTree s') = own_has k (hashTree s)).
Proof.
  induction pending as [|k rest IH]; intros s Hs Hkeys.
  { exists s. repeat split; auto. }
  destruct (existing_step k s Hs) as (s1 & E1 & H1 & Hk1 & Hother & Hkeep & Hq1).
  { intros Hne. apply Hkeys; [now left|assumption]. }
  { intros Hne. apply Hkeys; [now left|assumption]. }
  destruct (IH s1 H1) as (s2 & E2 & H2 & Hall & Hq2).
  { intros key Hin Hne. destruct (Hkeys key (or_intror Hin) Hne) as [Hsafe Hown].
    split; [assumption|]. intros Hh.
    destruct (String.eqb_spec key k) as [->|Hk]; [now apply Hkeep|].
    unfold own_has. rewrite Hother by assumption. now apply Hown. }
  exists s2. split; [simpl; now rewrite (bind_normal _ _ _ _ _ E1)|].
  split; [exact H2|]. split.
  - intros key child Hne Hc. destruct (Hall key child Hne Hc) as [Ha|[Hn Hc1]];
      [now left|].
    destruct (String.eqb_spec key k) as [->|Hk].
    + left. now apply Hk1.
    + right. split; [|now rewrite <- Hother].
      intros [Hx|Hx]; [congruence|contradiction].
  - intros Hquiet.
    destruct (Hq1 (Hquiet k (or_introl eq_refl))) as [Hev1 Hhas1].
    destruct Hq2 as [Hev2 Hhas2].
    { intros key Hin. destruct (Hquiet key (or_intror Hin)) as [->|(child & Hc & Ha)];
        [now left|].
      destruct (String.eqb_spec key "__hash") as [->|Hne]; [now left|]. right.
      destruct (String.eqb_spec key k) as [->|Hk].
      - assert (Hown : own_has k (hashTree s1) = true).
        { rewrite Hhas1. unfold own_has. now rewrite Hc. }
        unfold own_has in Hown.
        destruct (own_get k (hashTree s1)) as [child1|] eqn:Ec1; [|discriminate].
        exists child1. split; [reflexivity|]. now apply Hk1.
      - exists child. split; [|exact Ha]. now rewrite Hother. }
    split; [congruence|]. intros x. now rewrite Hhas2.
Qed.

Lemma added_step (key : string) (s : Frame) :
  tidy (Node (hashTree s)) = true -> In key (for_in jsonData) ->
  exists s',
    processAddedKey jsonData path key s = (Normal tt, s')
    /\ tidy (Node (hashTree s')) = true
    /\ own_has key (hashTree s') = true
    /\ (forall k child, own_get k (hashTree s') = Some child ->
          own_get k (hashTree s) = Some child
          \/ agrees (settled bound) jsonData k child)
    /\ (forall k, own_has k (hashTree s) = true -> own_has k (hashTree s') = true)
    /\ (own_has key (hashTree s) = true -> s' = s).
Proof.
  intros Hs Hin.
  destruct (for_in_get jsonData key snapshot_is_an_object snapshot_is_tidy Hin)
    as (Hsafe & v & Hg).
  destruct (safe_name_spec key Hsafe) as (Hne & Hp & Hm & _).
  unfold processAddedKey. cbv zeta. unfold bind at 1. unfold read at 1.
  cbv beta iota. unfold in_tree. rewrite Hm, orb_false_r.
  destruct (own_has key (hashTree s)) eqn:Eown.
  { exists s. repeat split; auto. }
  unfold bind at 1. unfold emit at 1. cbv beta iota. rewrite Hg.
  assert (Hb : exists n, forall s0,
             (if is_object v then buildHashTree v else leaf (Value v)) s0
             = (Normal (built v), hashed n s0)).
  { destruct (is_object v) eqn:Eo.
    - eexists. intros s0. apply buildHashTree_returns.
    - exists 1. intros s0. rewrite (returns_leaf v s0). f_equal. f_equal.
      symmetry. apply built_atomic. unfold atomic. now rewrite Eo. }
  destruct Hb as (n & Hb). rewrite (bind_normal _ _ _ _ _ (Hb _)).
  eexists. split; [reflexivity|]. cbn [hashTree hashed events].
  split.
  { apply tidy_assign; [assumption|assumption|].
    apply tidy_built. now apply (tidy_json_get jsonData key). }
  split; [now apply own_has_assign_same|]. split.
  { intros k child Hc. destruct (String.eqb_spec k key) as [->|Hk].
    - right. unfold assign in Hc. rewrite Hp in Hc. cbn [andb] in Hc.
      rewrite own_get_define_same in Hc. injection Hc as <-.
      exists v. split; [exact Hg|]. destruct (atomic v) eqn:Ha.
      + now apply built_root_of_unit.
      + exists (built v). split; [reflexivity|].
        destruct (atomic_false v Ha) as [Hvo _].
        apply built_settled; [|now apply (tidy_json_get jsonData key)].
        pose proof (depth_get jsonData key v Hg Hvo). lia.
    - left. now rewrite own_get_assign_other in Hc. }
  split; [intros k Hk; now apply own_has_assign_mono|discriminate].
Qed.

Lemma added_loop (pending : list string) :
  forall s, tidy (Node (hashTree s)) = true ->
    (forall key, In key pending -> In key (for_in jsonData)) ->
    exists s',
      for_each pending (processAddedKey jsonData path) s = (Normal tt, s')
      /\ tidy (Node (hashTree s')) = true
      /\ (forall key, In key pending -> own_has key (hashTree s') = true)
      /\ (forall k child, own_get k (hashTree s') = Some child ->
            own_get k (hashTree s) = Some child
            \/ agrees (settled bound) jsonData k child)
      /\ (forall k, own_has k (hashTree s) = true -> own_has k (hashTree s') = true)
      /\ ((forall key, In key pending -> own_has key (hashTree s) = true) ->
          s' = s).
Proof.
  induction pending as [|k rest IH]; intros s Hs Hkeys.
  { exists s. repeat split; auto. }
  destruct (added_step k s Hs (Hkeys k (or_introl eq_refl)))
    as (s1 & E1 & H1 & Hk1 & Hold1 & Hmono1 & Hq1).
  destruct (IH s1 H1 (fun key Hin => Hkeys key (or_intror Hin)))
    as (s2 & E2 & H2 & Hk2 & Hold2 & Hmono2 & Hq2).
  exists s2. split; [simpl; now rewrite (bind_normal _ _ _ _ _ E1)|].
  split; [exact H2|]. split.
  { intros key [<-|Hin]; [now apply Hmono2|now apply Hk2]. }
  split.
  { intros x child Hc. destruct (Hold2 x child Hc) as [Hc1|Ha]; [|now right].
    now apply Hold1. }
  split; [intros x Hx; now apply Hmono2, Hmono1|].
  intros Hall. assert (E : s1 = s) by (apply Hq1, Hall; now left).
  subst s1. apply Hq2. intros key Hin. apply Hall. now right.
Qed.

Lemma body_settles (s : Frame) :
  tidy (Node (hashTree s)) = true ->
  exists s',
    findDifferencesAndUpdate_body self jsonData path s = (Normal tt, s')
    /\ tidy (Node (hashTree s')) = true
    /\ settled (S bound) jsonData (hashTree s')
    /\ (settled (S bound) jsonData (hashTree s) -> events s' = events s).
Proof.
  intros Hs. rewrite body_run. fold (digest jsonData). unfold root_digest.
  destruct (strict_equal (own_get "__hash" (hashTree s)) (digest jsonData)) eqn:E.
  { exists (hashed 1 s). split; [reflexivity|]. split; [exact Hs|].
    split; [now left|reflexivity]. }
  destruct (existing_loop (map fst (hashTree s)) (hashed 1 s) Hs)
    as (s1 & E1 & H1 & Hall1 & Hq1).
  { intros key Hin Hne. split; [now apply (tidy_keys (hashTree s))|].
    intros _. now apply own_has_iff. }
  destruct (added_loop (for_in jsonData) s1 H1 (fun key Hin => Hin))
    as (s2 & E2 & H2 & Hk2 & Hold2 & Hmono2 & Hq2).
  unfold processExistingKeys. unfold bind at 1. unfold bind at 1.
  unfold read at 1. cbv beta iota.
  change (hashTree (hashed 1 s)) with (hashTree s) in *. rewrite E1.
  unfold processAddedKeys. unfold bind at 1. rewrite E2.
  rewrite recomputeHash_run.
  eexists. split; [reflexivity|]. cbn [hashTree events].
  split; [apply tidy_digest; apply tidy_iff in H2; apply H2|]. split.
  - right. split.
    + intros key child Hne Hc. rewrite own_get_assign_other in Hc by congruence.
      destruct (Hold2 key child Hc) as [Hc1|Ha]; [|exact Ha].
      destruct (Hall1 key child Hne Hc1) as [Ha|[Hn Hc0]]; [exact Ha|].
      exfalso. apply Hn. apply in_map_iff. exists (key, child).
      split; [reflexivity|]. now apply own_get_Some_In.
    + intros key Hin. apply own_has_assign_mono. now apply Hk2.
  - intros [Hroot|[Hchildren Hkeys]]; [congruence|].
    destruct Hq1 as [Hev1 Hhas1].
    { intros key Hin. destruct (String.eqb_spec key "__hash") as [->|Hne];
        [now left|right].
      destruct (own_get_In key (hashTree s) Hin) as (child & Hc).
      exists child. split; [exact Hc|]. now apply Hchildren. }
    assert (E12 : s2 = s1).
    { apply Hq2. intros key Hin. rewrite Hhas1. now apply Hkeys. }
    subst s2. exact Hev1.
Qed.

End SettledPasses.

Lemma findDifferencesAndUpdate_at_settles (fuel : nat) :
  forall data p s, depth data < fuel -> is_object data = true ->
    tidy_json data = true -> tidy (Node (hashTree s)) = true ->
    exists s',
      findDifferencesAndUpdate_at fuel data p s = (Normal tt, s')
      /\ tidy (Node (hashTree s')) = true
      /\ settled fuel data (hashTree s')
      /\ (settled fuel data (hashTree s) -> events s' = events s).
Proof.
  induction fuel as [|fuel IH]; intros data p s Hd Ho Hf Hs; [lia|].
  simpl findDifferencesAndUpdate_at.
  apply (body_settles _ fuel IH); [lia|assumption|assumption|assumption].
Qed.

Lemma skipn_length {A} (l : list A) : skipn (List.length l) l = [].
Proof. induction l as [|x l IH]; [reflexivity|exact IH]. Qed.

(** X17.  A snapshot that has been taken in is not reported again.  When
    the property names of the snapshot are safe, the snapshot is an object
    or an array and the stored tree is tidy, a [detectChanges] that follows
    a [detectChanges] or an [initialize] with the same snapshot emits no
    event. *)
Theorem same_snapshot_is_not_reported_again (jsonData : Json) (s : Frame) :
  is_object jsonData = true -> tidy_json jsonData = true ->
  tidy (Node (hashTree s)) = true ->
  emitted_by (detectChanges jsonData) (after (detectChanges jsonData) s) = []
  /\ emitted_by (detectChanges jsonData) (after (initialize jsonData) s) = [].
Proof.
  intros Ho Hf Hs.
  assert (Hquiet : forall s1, tidy (Node (hashTree s1)) = true ->
            settled (S (depth jsonData)) jsonData (hashTree s1) ->
            emitted_by (detectChanges jsonData) s1 = []).
  { intros s1 H1 Hset.
    destruct (findDifferencesAndUpdate_at_settles (S (depth jsonData)) jsonData ""
                s1 (Nat.lt_succ_diag_r _) Ho Hf H1) as (s2 & E2 & _ & _ & Hq).
    unfold emitted_by, after, detectChanges, findDifferencesAndUpdate.
    rewrite (bind_normal _ _ _ _ _ E2). unfold read. cbn [snd].
    rewrite (Hq Hset). apply skipn_length. }
  split.
  - destruct (findDifferencesAndUpdate_at_settles (S (depth jsonData)) jsonData ""
                s (Nat.lt_succ_diag_r _) Ho Hf Hs) as (s1 & E1 & H1 & Hset & _).
    assert (Eafter : after (detectChanges jsonData) s = s1).
    { unfold after, detectChanges, findDifferencesAndUpdate.
      now rewrite (bind_normal _ _ _ _ _ E1). }
    rewrite Eafter. now apply Hquiet.
  - unfold after at 1. rewrite initialize_returns. cbn [snd].
    apply Hquiet; cbn [hashTree].
    + now apply tidy_built.
    + apply built_settled; [lia|assumption].
Qed.

Lemma same_snapshot_is_not_reported_again_witness :
  let jsonData := JObj [("a", JArr [JNum 1; JObj [("k", JStr "x")]]);
                        ("b", JObj [("type", JStr "T")]); ("c", JNull)] in
  let s := after (initialize (JObj [("a", JObj [("c", JBool true)]);
                                     ("d", JNum 2); ("b", JArr [])])) constructor in
  emitted_by (detectChanges jsonData) (after (detectChanges jsonData) s) = []
  /\ emitted_by (detectChanges jsonData) (after (initialize jsonData) s) = [].
Proof.
  intros jsonData s.
  exact (same_snapshot_is_not_reported_again jsonData s eq_refl eq_refl
           ltac:(vm_compute; reflexivity)).
Defined.

(** ** The engine returns or throws *)

Lemma proto_free_Node (props : HashTreeNode) :
  proto_free (Node props)
  = forallb (fun '(key, child) => negb (key =? "__proto__") && proto_free child)
            props.
Proof. reflexivity. Qed.

Lemma proto_free_iff (tree : HashTreeNode) :
  proto_free (Node tree) = true <->
  Forall (fun kc => fst kc <> "__proto__" /\ proto_free (snd kc) = true) tree.
Proof.
  rewrite proto_free_Node, forallb_forall, Forall_forall.
  split; intros H [k c] Hx; specialize (H _ Hx); cbn [fst snd] in *.
  - apply andb_true_iff in H. destruct H as [Hk Hc]. split; [|assumption].
    now apply String.eqb_neq, negb_true_iff.
  - destruct H as [Hk Hc]. apply andb_true_iff. split; [|assumption].
    now apply negb_true_iff, String.eqb_neq.
Qed.

Lemma proto_free_keys (tree : HashTreeNode) (key : string) :
  proto_free (Node tree) = true -> In key (map fst tree) -> key <> "__proto__".
Proof.
  intros H Hin. apply proto_free_iff in H. rewrite Forall_forall in H.
  apply in_map_iff in Hin. destruct Hin as ([k c] & <- & Hin).
  now destruct (H _ Hin).
Qed.

Lemma proto_free_child (tree : HashTreeNode) (key : string) (child : TreeValue) :
  proto_free (Node tree) = true -> own_get key tree = Some child ->
  key <> "__proto__" /\ proto_free child = true.
Proof.
  intros H Hget. apply proto_free_iff in H.
  exact (own_get_Forall _ key child tree H Hget).
Qed.

Lemma proto_free_not_own (tree : HashTreeNode) :
  proto_free (Node tree) = true -> own_has "__proto__" tree = false.
Proof.
  intros H. destruct (own_has "__proto__" tree) eqn:E; [|reflexivity].
  apply own_has_iff in E. now apply (proto_free_keys tree) in E.
Qed.

Lemma proto_free_define (tree : HashTreeNode) (key : string) (child : TreeValue) :
  proto_free (Node tree) = true -> key <> "__proto__" ->
  proto_free child = true -> proto_free (Node (define key child tree)) = true.
Proof.
  intros H Hk Hc. apply proto_free_iff. apply proto_free_iff in H.
  now apply Forall_define.
Qed.

(** An assignment keeps the node free of [__proto__] whatever the key. *)
Lemma proto_free_assign (tree : HashTreeNode) (key : string) (child : TreeValue) :
  proto_free (Node tree) = true -> proto_free child = true ->
  proto_free (Node (assign key child tree)) = true.
Proof.
  intros H Hc. unfold assign.
  destruct (String.eqb_spec key "__proto__") as [->|Hk].
  - now rewrite (proto_free_not_own tree H).
  - cbn [andb]. now apply proto_free_define.
Qed.

Lemma proto_free_replace (tree : HashTreeNode) (key : string) (child : TreeValue) :
  proto_free (Node tree) = true -> key <> "__proto__" ->
  proto_free child = true ->
  proto_free (Node (replace_value key child tree)) = true.
Proof.
  intros H Hk Hc. apply proto_free_iff. apply proto_free_iff in H.
  now apply Forall_replace.
Qed.

Lemma proto_free_delete (tree : HashTreeNode) (key : string) :
  proto_free (Node tree) = true -> proto_free (Node (delete key tree)) = true.
Proof.
  intros H. apply proto_free_iff. apply proto_free_iff in H.
  now apply Forall_delete.
Qed.

Lemma proto_free_spread (source tree : HashTreeNode) :
  proto_free (Node tree) = true -> proto_free (Node source) = true ->
  proto_free (Node (spread source tree)) = true.
Proof.
  intros H Hs. apply proto_free_iff. apply proto_free_iff in H, Hs.
  now apply Forall_spread.
Qed.

Lemma decimal_not_proto (z : Z) : decimal z <> "__proto__".
Proof.
  unfold decimal. destruct (Z.to_int z) as [u|u]; simpl; [|discriminate].
  destruct u; simpl; discriminate.
Qed.

Lemma proto_free_built (data : Json) : proto_free (Node (built data)) = true.
Proof.
  induction data as [data IH] using Json_depth_ind.
  destruct (atomic data) eqn:Ha.
  { now rewrite built_atomic by assumption. }
  destruct data as [| b | z | str | items | props]; try discriminate Ha.
  - rewrite built_array. apply proto_free_spread; [reflexivity|].
    unfold from_entries. apply proto_free_spread; [reflexivity|].
    apply proto_free_iff. apply Forall_combine. intros key c Hkey Hc.
    cbn [fst snd]. split.
    + unfold indices in Hkey. apply in_map_iff in Hkey.
      destruct Hkey as (i & <- & _). apply decimal_not_proto.
    + apply in_map_iff in Hc. destruct Hc as (v & <- & Hv).
      apply IH. now apply depth_item.
  - unfold atomic in Ha. simpl in Ha.
    rewrite built_object by assumption. cbv zeta.
    apply proto_free_spread; [reflexivity|].
    assert (Hkeys : forall key, In key (sort (map fst props)) ->
                     proto_free (child_of props key) = true).
    { intros key Hk. apply (Permutation_in _ (sort_perm _)) in Hk.
      destruct (own_get_In key props Hk) as (v & Hv).
      unfold child_of. rewrite Hv.
      apply IH. now apply depth_prop with (key := key). }
    revert Hkeys. generalize (sort (map fst props)).
    assert (H0 : proto_free (Node []) = true) by reflexivity.
    revert H0. generalize (@nil (string * TreeValue)).
    intros acc Hacc keys. revert acc Hacc.
    induction keys as [|key keys IHk]; simpl; intros acc Hacc Hkeys; [assumption|].
    apply IHk; [|intros; apply Hkeys; now right].
    apply proto_free_assign; [assumption|]. apply Hkeys. now left.
Qed.

Lemma get_prototype (jsonData : Json) (key : string) :
  get jsonData key = Prototype -> key = "__proto__".
Proof.
  assert (Hi : forall names, inherited key names = Prototype -> key = "__proto__").
  { intros names. unfold inherited.
    destruct (String.eqb_spec key "__proto__"); [auto|].
    destruct (mem key names); discriminate. }
  destruct jsonData as [| b | z | str | items | props]; cbn [get];
    try discriminate.
  - destruct (char_at key str); discriminate.
  - destruct (element key items); [discriminate|].
    destruct (key =? "length"); [discriminate|apply Hi].
  - destruct (own_get key props); [discriminate|apply Hi].
Qed.

(** No key that [for ... in] visits reads the prototype. *)
Lemma for_in_not_prototype (jsonData : Json) (key : string) :
  In key (for_in jsonData) -> get jsonData key <> Prototype.
Proof.
  intros Hin Hg. pose proof (get_prototype jsonData key Hg) as ->.
  destruct jsonData as [| b | z | str | items | props]; cbn [for_in] in Hin;
    try contradiction.
  - unfold indices in Hin. apply in_map_iff in Hin.
    destruct Hin as (i & E & _). now apply decimal_not_proto in E.
  - unfold indices in Hin. apply in_map_iff in Hin.
    destruct Hin as (i & E & _). now apply decimal_not_proto in E.
  - cbn [get] in Hg. destruct (own_get_In "__proto__" props Hin) as (v & Hv).
    rewrite Hv in Hg. discriminate.
Qed.

Lemma covered_ret {A} (a : A) : covered (ret a).
Proof. intros s H. exact H. Qed.

Lemma covered_throw {A} (e : TypeError) : covered (@throw A e).
Proof. intros s H. exact I. Qed.

Lemma covered_emit (kind : Kind) (p : string) : covered (emit kind p).
Proof. intros s H. exact H. Qed.

Lemma covered_calculateHash (value : option string) :
  covered (calculateHash value).
Proof. intros s H. destruct value; [exact H|exact I]. Qed.

Lemma covered_mutate (f : HashTreeNode -> HashTreeNode) :
  (forall tree, proto_free (Node tree) = true -> proto_free (Node (f tree)) = true) ->
  covered (mutate f).
Proof. intros Hf s H. apply Hf, H. Qed.

Lemma covered_bind {A B} (m : M A) (k : A -> M B) :
  covered m -> (forall a, covered (k a)) -> covered (bind m k).
Proof.
  intros Hm Hk s H. specialize (Hm s H). unfold bind.
  destruct (m s) as [[a| | |] s1]; try exact Hm. now apply Hk.
Qed.

(** After [read], the continuation may rely on the node it was given. *)
Lemma covered_read {B} (k : HashTreeNode -> M B) :
  (forall s, proto_free (Node (hashTree s)) = true ->
     match k (hashTree s) s with
     | (Normal _, s') => proto_free (Node (hashTree s')) = true
     | (Unmodelled, _) => False
     | _ => True
     end) ->
  covered (bind read k).
Proof. intros Hk s H. exact (Hk s H). Qed.

Lemma covered_for_each {A} (items : list A) (body : A -> M unit) :
  (forall x, In x items -> covered (body x)) -> covered (for_each items body).
Proof.
  induction items as [|x rest IH]; intros H; simpl.
  - apply covered_ret.
  - apply covered_bind; [apply H; now left|].
    intros _. apply IH. intros; apply H; now right.
Qed.

Lemma covered_returns {A} (m : M A) (a : A) (n : nat) :
  returns m a n -> covered m.
Proof. intros Hr s H. now rewrite Hr. Qed.

Lemma covered_leaf (x : Lookup) : covered (leaf x).
Proof.
  unfold leaf. apply covered_bind; [apply covered_calculateHash|].
  intros h. apply covered_ret.
Qed.

Lemma covered_recomputeHash : covered recomputeHash.
Proof.
  intros s H. rewrite recomputeHash_run. cbn [hashTree].
  now apply proto_free_assign.
Qed.

(** What one step of the first loop, and so the loop, keeps: the node has
    no [__proto__], and a key the snapshot has is still there. *)
Section CoveredPasses.
Variable self : Json -> string -> M unit.
Hypothesis self_covered : forall v p, covered (self v p).
Variable jsonData : Json.
Variable path : string.

Lemma storeIfChanged_covered (h key currentPath : string) (s : Frame) :
  proto_free (Node (hashTree s)) = true -> own_has key (hashTree s) = true ->
  match storeIfChanged h key currentPath s with
  | (Normal _, s') =>
      proto_free (Node (hashTree s')) = true
      /\ forall k, own_has k (hashTree s') = own_has k (hashTree s)
  | (Unmodelled, _) => False
  | _ => True
  end.
Proof.
  intros Hs Hown. unfold own_has in Hown.
  unfold storeIfChanged, bind, read.
  destruct (own_get key (hashTree s)) as [child|] eqn:E; [|discriminate].
  destruct (proto_free_child _ _ _ Hs E) as [Hk Hc].
  destruct (strict_equal _ h); [now split|].
  cbn [emit]. destruct child as [t|props]; [exact I|].
  cbn [mutate hashTree]. split.
  - apply proto_free_replace; [assumption|assumption|].
    now apply proto_free_assign.
  - intros k. apply own_has_replace.
Qed.

Lemma existing_step_covered (key : string) (s : Frame) :
  proto_free (Node (hashTree s)) = true ->
  key <> "__proto__" ->
  (key <> "__hash" -> has jsonData key = Some true ->
   own_has key (hashTree s) = true) ->
  match processExistingKey self jsonData path key s with
  | (Normal _, s') =>
      proto_free (Node (hashTree s')) = true
      /\ forall k, has jsonData k = Some true ->
           own_has k (hashTree s) = true -> own_has k (hashTree s') = true
  | (Unmodelled, _) => False
  | _ => True
  end.
Proof.
  intros Hs Hproto Hown. unfold processExistingKey.
  destruct (String.eqb_spec key "__hash") as [E|E]; [now split|].
  specialize (Hown E). cbv zeta.
  generalize (join_path path key). intros currentPath.
  destruct (has jsonData key) as [[|]|] eqn:Eh; [| |exact I].
  - specialize (Hown eq_refl).
    assert (Hstore : forall text,
      match (newPrimitiveHash <- calculateHash text ;;
             storeIfChanged newPrimitiveHash key currentPath) s with
      | (Normal _, s') =>
          proto_free (Node (hashTree s')) = true
          /\ forall k, has jsonData k = Some true ->
               own_has k (hashTree s) = true -> own_has k (hashTree s') = true
      | (Unmodelled, _) => False
      | _ => True
      end).
    { intros [text|]; [|exact I].
      unfold bind at 1. unfold calculateHash. cbv beta iota.
      pose proof (storeIfChanged_covered (sha256_hex text) key currentPath
                    (hashed 1 s) Hs Hown) as H.
      destruct (storeIfChanged (sha256_hex text) key currentPath (hashed 1 s))
        as [[[]| | |] s1]; try exact H.
      destruct H as [H1 H2]. split; [exact H1|].
      intros k _ Hk. now rewrite H2. }
    unfold processKeyValue, processPrimitiveValue.
    destruct (get jsonData key) as [v| | |] eqn:Hg; try apply Hstore.
    2:{ apply get_prototype in Hg. contradiction. }
    destruct (is_object v); [|apply Hstore].
    unfold processObjectValue. destruct (has_type v); [apply Hstore|].
    unfold bind at 1. unfold read at 1. cbv beta iota.
    pose proof Hown as Hc. unfold own_has in Hc.
    destruct (own_get key (hashTree s)) as [child|] eqn:Ec; [|discriminate].
    destruct (proto_free_child _ _ _ Hs Ec) as [_ Hchild].
    assert (Hwithin : forall s0 c,
              proto_free (Node (hashTree s0)) = true ->
              own_get key (hashTree s0) = Some (Node c) ->
              (forall k, own_has k (hashTree s0) = own_has k (hashTree s)) ->
              match within key (self v currentPath) s0 with
              | (Normal _, s') =>
                  proto_free (Node (hashTree s')) = true
                  /\ forall k, has jsonData k = Some true ->
                       own_has k (hashTree s) = true ->
                       own_has k (hashTree s') = true
              | (Unmodelled, _) => False
              | _ => True
              end).
    { intros s0 c H0 Hc0 Hsame. unfold within. rewrite Hc0.
      destruct (proto_free_child _ _ _ H0 Hc0) as [_ Hcc].
      pose proof (self_covered v currentPath
                    (mkFrame c (events s0) (hashCalls s0)) Hcc) as H.
      destruct (self v currentPath (mkFrame c (events s0) (hashCalls s0)))
        as [[[]| | |] s1]; try exact H.
      cbn [hashTree]. split.
      - now apply proto_free_replace.
      - intros k _ Hk. now rewrite own_has_replace, Hsame. }
    destruct child as [t|c].
    + unfold bind at 1. unfold mutate at 1. cbv beta iota.
      apply (Hwithin _ placeholder).
      * cbn [hashTree]. now apply proto_free_assign.
      * cbn [hashTree]. apply own_get_assign_same. unfold own_has. now rewrite Ec.
      * intros k. cbn [hashTree]. unfold assign.
        apply String.eqb_neq in Hproto. rewrite Hproto. cbn [andb].
        rewrite own_has_define. destruct (String.eqb_spec key k) as [<-|Hk];
          [now rewrite Hown|reflexivity].
    + unfold bind at 1. unfold ret at 1. cbv beta iota.
      now apply (Hwithin s c).
  - unfold bind, emit, mutate. cbn [hashTree].
    split; [now apply proto_free_delete|].
    intros k Hk Hk'. unfold own_has.
    rewrite own_get_delete_other; [exact Hk'|]. intros ->. congruence.
Qed.

Lemma existing_loop_covered (pending : list string) :
  forall s, proto_free (Node (hashTree s)) = true ->
    (forall key, In key pending ->
       key <> "__proto__"
       /\ (key <> "__hash" -> has jsonData key = Some true ->
           own_has key (hashTree s) = true)) ->
    match for_each pending (processExistingKey self jsonData path) s with
    | (Normal _, s') => proto_free (Node (hashTree s')) = true
    | (Unmodelled, _) => False
    | _ => True
    end.
Proof.
  induction pending as [|k rest IH]; intros s Hs Hkeys; [exact Hs|].
  simpl. unfold bind.
  destruct (Hkeys k (or_introl eq_refl)) as [Hk Hown].
  pose proof (existing_step_covered k s Hs Hk Hown) as H.
  destruct (processExistingKey self jsonData path k s) as [[[]| | |] s1];
    try exact H.
  destruct H as [H1 Hkeep]. apply IH; [exact H1|].
  intros key Hin. destruct (Hkeys key (or_intror Hin)) as [Hkey Hownkey].
  split; [exact Hkey|]. intros Hne Hh. apply Hkeep; auto.
Qed.

Lemma covered_processAddedKeys : covered (processAddedKeys jsonData path).
Proof.
  unfold processAddedKeys. apply covered_for_each. intros key Hin.
  unfold processAddedKey. cbv zeta. apply covered_read. intros s Hs.
  destruct (in_tree key (hashTree s)); [exact Hs|].
  unfold bind at 1. unfold emit at 1. cbv beta iota.
  destruct (get jsonData key) as [v| | |] eqn:Hg.
  - assert (Hb : exists n, forall s0,
               (if is_object v then buildHashTree v else leaf (Value v)) s0
               = (Normal (built v), hashed n s0)).
    { destruct (is_object v) eqn:Eo.
      - eexists. intros s0. apply buildHashTree_returns.
      - exists 1. intros s0. rewrite (returns_leaf v s0). f_equal. f_equal.
        symmetry. apply built_atomic. unfold atomic. now rewrite Eo. }
    destruct Hb as (n & Hb). rewrite (bind_normal _ _ _ _ _ (Hb _)).
    unfold mutate. cbn [hashTree hashed].
    apply proto_free_assign; [assumption|apply proto_free_built].
  - exact I.
  - now apply for_in_not_prototype in Hg.
  - exact I.
Qed.

Lemma covered_body (s : Frame) :
  proto_free (Node (hashTree s)) = true ->
  match findDifferencesAndUpdate_body self jsonData path s with
  | (Normal _, s') => proto_free (Node (hashTree s')) = true
  | (Unmodelled, _) => False
  | _ => True
  end.
Proof.
  intros Hs. rewrite body_run.
  destruct (strict_equal _ _); [exact Hs|].
  unfold bind at 1. unfold processExistingKeys. unfold bind at 1.
  unfold read at 1. cbv beta iota.
  change (hashTree (hashed 1 s)) with (hashTree s).
  pose proof (existing_loop_covered (map fst (hashTree s)) (hashed 1 s) Hs) as H.
  destruct (for_each (map fst (hashTree s))
                     (processExistingKey self jsonData path) (hashed 1 s))
    as [[[]| | |] s1].
  - assert (H1 : proto_free (Node (hashTree s1)) = true).
    { apply H. intros key Hin. split; [now apply (proto_free_keys (hashTree s))|].
      intros _ _. now apply own_has_iff. }
    apply (covered_bind _ _ covered_processAddedKeys
                        (fun _ => covered_recomputeHash) s1 H1).
  - exact I.
  - apply H. intros key Hin. split; [now apply (proto_free_keys (hashTree s))|].
    intros _ _. now apply own_has_iff.
  - exact I.
Qed.

End CoveredPasses.

Lemma covered_findDifferencesAndUpdate_at (fuel : nat) :
  forall data p, covered (findDifferencesAndUpdate_at fuel data p).
Proof.
  induction fuel as [|fuel IH]; intros data p s Hs; [exact I|].
  simpl findDifferencesAndUpdate_at. now apply covered_body.
Qed.

(** X4.  For every snapshot and every stored tree without a property
    named [__proto__] (the trees of the constructor and of [initialize] are
    such trees, and [detectChanges] keeps them so), [detectChanges] ends as
    the code can end: it returns the stored tree or it throws.  The
    recursion follows the nesting of the snapshot, never that of the stored
    tree, so the depth of the snapshot bounds it. *)
Theorem detectChanges_returns_or_throws (jsonData : Json) (s : Frame) :
  proto_free (Node (hashTree s)) = true ->
  ended (completion (detectChanges jsonData) s) = true
  /\ (forall tree, completion (detectChanges jsonData) s = Normal tree ->
        tree = hashTree (after (detectChanges jsonData) s)
        /\ proto_free (Node tree) = true)
  /\ proto_free (Node (built jsonData)) = true
  /\ proto_free (Node (hashTree constructor)) = true.
Proof.
  intros Hs.
  pose proof (covered_findDifferencesAndUpdate_at (S (depth jsonData)) jsonData ""
                s Hs) as Hcov.
  pose proof (finishes_findDifferencesAndUpdate_at (S (depth jsonData)) jsonData ""
                (Nat.lt_succ_diag_r _) s) as Hfin.
  unfold completion, after, detectChanges, findDifferencesAndUpdate, bind in *.
  destruct (findDifferencesAndUpdate_at (S (depth jsonData)) jsonData "" s)
    as [[[]| | |] s1]; cbn [fst snd read ended] in *.
  - split; [reflexivity|]. split; [|split; [apply proto_free_built|reflexivity]].
    intros tree [= <-]. now split.
  - split; [reflexivity|]. split; [|split; [apply proto_free_built|reflexivity]].
    intros tree [=].
  - contradiction.
  - congruence.
Qed.

Lemma detectChanges_returns_or_throws_witness :
  let s := after (initialize (JObj [("a", JObj [("c", JNum 1)]);
                                     ("b", JArr [JNull])])) constructor in
  let jsonData := JObj [("a", JStr "x"); ("b", JObj [("length", JNum 2)])] in
  proto_free (Node (hashTree s)) = true
  /\ ended (completion (detectChanges jsonData) s) = true
  /\ (forall tree, completion (detectChanges jsonData) s = Normal tree ->
        tree = hashTree (after (detectChanges jsonData) s)
        /\ proto_free (Node tree) = true)
  /\ proto_free (Node (built jsonData)) = true
  /\ proto_free (Node (hashTree constructor)) = true.
Proof.
  intros s jsonData.
  assert (Hs : proto_free (Node (hashTree s)) = true) by (vm_compute; reflexivity).
  split; [exact Hs|]. exact (detectChanges_returns_or_throws jsonData s Hs).
Defined.
